(** * GAIA chat front-end: branch tree, streaming session, request arbiter

    A shallow embedding of the chat client script (the IIFE that owns
    [loadAll]/[updateChat], [renderChat], [sendSSE], [loadModelVersions] and
    the click handlers of the message list) and the properties of its
    conversation store, branch/version tree, streaming finalisation and
    stale-response guard.

    Conventions of the embedding.
    - A JS string is the list of its UTF-16 code units ([jsstring]); [str]
      injects an ASCII literal.  [trim] strips the ECMAScript WhiteSpace and
      LineTerminator code points, all of which are single code units.
    - Array indices, [branch_of] tags and branch anchors are [nat]; version
      numbers and counters are [Z].  [undefined]/[null] fields are [option]s.
    - [localStorage] under [LS_KEY] is a [Storage]: [None] when the key is
      absent or does not parse, [Some chats] otherwise.  [JSON.parse] returns
      fresh objects, so every [getChat] yields a private copy and only
      [updateChat] writes back; the model passes chats by value accordingly.
    - [Date.now()], the DOM lookups and the payload of network events are
      arguments of the operation that reads them.
    - An [async] function is split at its [await]: one definition for the
      part that runs at the call, one for the continuation that runs when
      the awaited request settles.
    - Calls into collaborators that keep no state of this script
      ([GAIA.Memory], [Feature2RegenerateStop], the Markdown renderer, the
      scrolling helpers) are left out. *)

From Stdlib Require Import ZArith NArith Lia Ascii String Sorted.
From stdpp Require Import base list strings.

Open Scope Z_scope.

(* ===================================================================== *)
(** ** JS strings *)
(* ===================================================================== *)

Definition jsstring := list N.

Definition str (s : string) : jsstring :=
  (λ a, N_of_ascii a) <$> list_ascii_of_string s.

(** WhiteSpace (TAB, VT, FF, ZWNBSP, category Zs) and LineTerminator
    (LF, CR, LS, PS): what [String.prototype.trim] removes. *)
Definition is_whitespace (c : N) : bool :=
  ((c =? 9) || (c =? 10) || (c =? 11) || (c =? 12) || (c =? 13) || (c =? 32)
   || (c =? 160) || (c =? 5760) || ((8192 <=? c) && (c <=? 8202))
   || (c =? 8232) || (c =? 8233) || (c =? 8239) || (c =? 8287)
   || (c =? 12288) || (c =? 65279))%N.

Fixpoint trimStart (s : jsstring) : jsstring :=
  match s with
  | c :: s' => if is_whitespace c then trimStart s' else s
  | [] => []
  end.

Definition trimEnd (s : jsstring) : jsstring := reverse (trimStart (reverse s)).

Definition trim (s : jsstring) : jsstring := trimEnd (trimStart s).

(** Truthiness of a string and the [a || b] of two strings. *)
Definition truthy (s : jsstring) : bool :=
  match s with [] => false | _ => true end.

Definition js_or (a b : jsstring) : jsstring := if truthy a then a else b.

(** [(x || 1)] on a number. *)
Definition or_one (x : Z) : Z := if x =? 0 then 1 else x.

(** ["⚠️ "]: U+26A0, U+FE0F, space. *)
Definition warn_prefix : jsstring := [9888%N; 65039%N; 32%N].

(* ===================================================================== *)
(** ** Data model *)
(* ===================================================================== *)

Inductive Role := User | Assistant.

#[global] Instance Role_eq_dec : EqDecision Role.
Proof. solve_decision. Defined.

Record Usage := mkUsage {
  prompt_tokens : Z;
  completion_tokens : Z;
  usage_total_tokens : Z
}.

Record Meta := mkMeta {
  meta_model : option jsstring;
  meta_usage : option Usage
}.

Record Message := mkMessage {
  role : Role;
  content : jsstring;
  meta : option Meta;
  time : option Z;
  deleted : bool;
  editing : bool;
  edited : bool;
  edited_from : option nat;
  branch_of : option nat;
  branch_version : option Z;
  attachCount : option nat
}.

Record BranchState := mkBranch {
  anchor : nat;
  active : Z;
  total : Z
}.

Record Stats := mkStats {
  in_tokens : Z;
  out_tokens : Z;
  total_tokens : Z
}.

Record Chat := mkChat {
  id : string;
  name : jsstring;
  model : jsstring;
  history : list Message;
  stats : option Stats;
  branch : option BranchState
}.

Definition set_content (c : jsstring) (m : Message) : Message :=
  mkMessage (role m) c (meta m) (time m) (deleted m) (editing m) (edited m)
            (edited_from m) (branch_of m) (branch_version m) (attachCount m).

Definition set_time (t : Z) (m : Message) : Message :=
  mkMessage (role m) (content m) (meta m) (Some t) (deleted m) (editing m)
            (edited m) (edited_from m) (branch_of m) (branch_version m)
            (attachCount m).

Definition set_meta (x : Meta) (m : Message) : Message :=
  mkMessage (role m) (content m) (Some x) (time m) (deleted m) (editing m)
            (edited m) (edited_from m) (branch_of m) (branch_version m)
            (attachCount m).

Definition set_editing (b : bool) (m : Message) : Message :=
  mkMessage (role m) (content m) (meta m) (time m) (deleted m) b (edited m)
            (edited_from m) (branch_of m) (branch_version m) (attachCount m).

Definition set_history (h : list Message) (c : Chat) : Chat :=
  mkChat (id c) (name c) (model c) h (stats c) (branch c).

Definition set_stats (s : Stats) (c : Chat) : Chat :=
  mkChat (id c) (name c) (model c) (history c) (Some s) (branch c).

Definition set_branch (b : BranchState) (c : Chat) : Chat :=
  mkChat (id c) (name c) (model c) (history c) (stats c) (Some b).

(** A plain message literal [{ role, content, time }]. *)
Definition plain_message (r : Role) (c : jsstring) (t : Z) : Message :=
  mkMessage r c None (Some t) false false false None None None None.

(* ===================================================================== *)
(** ** ConversationStore: [loadAll], [saveAll], [createChat], [getChat],
       [updateChat], [deleteChat] *)
(* ===================================================================== *)

Definition Storage := option (list Chat).

Definition DEFAULT_STATS : Stats := mkStats 0 0 0.

(** [JSON.parse(localStorage.getItem(LS_KEY)) || []], [[]] on a throw. *)
Definition loadAll (ls : Storage) : list Chat := default [] ls.

Definition saveAll (x : list Chat) : Storage := Some x.

(** [all.findIndex(x => x.id === k)]. *)
Definition findIndex_id (k : string) (all : list Chat) : option nat :=
  fst <$> list_find (λ x, id x = k) all.

Definition updateChat (ch : Chat) (ls : Storage) : Storage :=
  let all := loadAll ls in
  match findIndex_id (id ch) all with
  | Some i => saveAll (<[i := ch]> all)
  | None => ls
  end.

(** [createChat(name)]: the identifier ["c_" + Date.now()] and the value of
    the model selector are passed in. *)
Definition createChat (fresh_id : string) (nm mdl : jsstring) (ls : Storage)
  : Chat * Storage :=
  let chat := mkChat fresh_id nm mdl [] (Some DEFAULT_STATS) None in
  (chat, saveAll (chat :: loadAll ls)).

(** [getChat(id)]: [find] by identity, with the [stats] backfill written
    through.  [currentId] may be [null], which matches no stored id. *)
Definition getChat (k : option string) (ls : Storage) : option Chat * Storage :=
  match k with
  | None => (None, ls)
  | Some k =>
      match snd <$> list_find (λ c, id c = k) (loadAll ls) with
      | Some ch =>
          match stats ch with
          | Some _ => (Some ch, ls)
          | None => let ch' := set_stats DEFAULT_STATS ch in
                    (Some ch', updateChat ch' ls)
          end
      | None => (None, ls)
      end
  end.

Definition deleteChat (k : string) (ls : Storage) : Storage :=
  saveAll (filter (λ c, id c ≠ k) (loadAll ls)).

(* ===================================================================== *)
(** ** BranchTree: version pager, edit/save, [renderChat] *)
(* ===================================================================== *)

(** [arr.findIndex((x, j) => P(j, x))], [None] for [-1]. *)
Fixpoint findIndex_from {A} (P : nat → A → bool) (l : list A) (j : nat)
  : option nat :=
  match l with
  | [] => None
  | x :: l' => if P j x then Some j else findIndex_from P l' (S j)
  end.

Definition findIndex {A} (P : nat → A → bool) (l : list A) : option nat :=
  findIndex_from P l 0.

(** [arr.splice(k, 0, x)]: a start past the end is clamped to the length. *)
Definition splice_in {A} (k : nat) (x : A) (l : list A) : list A :=
  take k l ++ x :: drop k l.

(** Pager click: [br.active = (br.active % br.total) + 1]. *)
Definition cycle (br : BranchState) : BranchState :=
  mkBranch (anchor br) (Z.rem (active br) (total br) + 1) (total br).

Definition pager_click (c : Chat) : Chat :=
  match branch c with
  | None => c
  | Some br => set_branch (cycle br) c
  end.

(** The anchor of an edit: [(typeof item.branch_of === "number")
    ? item.branch_of : idx]. *)
Definition anchor_of (item : Message) (idx : nat) : nat :=
  match branch_of item with
  | Some a => a
  | None => idx
  end.

(** "init or bump branch state". *)
Definition bump_branch (br : option BranchState) (a : nat) : BranchState :=
  match br with
  | None => mkBranch a 2 2
  | Some b =>
      if decide (anchor b ≠ a) then mkBranch a 2 2
      else let t := or_one (total b) + 1 in mkBranch (anchor b) t t
  end.

(** The scan [for (j = anchor + 1; j < history.length; j++)] that moves
    [insertIdx] past every entry tagged with the anchor and stops at the
    first entry whose [branch_of] is not a number.  [rest] is the part of
    the history from index [j] on. *)
Fixpoint scan_cluster (a : nat) (rest : list Message) (j insertIdx : nat)
  : nat :=
  match rest with
  | [] => insertIdx
  | t :: rest' =>
      if decide (branch_of t = Some a) then scan_cluster a rest' (S j) (S j)
      else match branch_of t with
           | Some _ => scan_cluster a rest' (S j) insertIdx
           | None => insertIdx
           end
  end.

Definition insertIdx_of (h : list Message) (a : nat) : nat :=
  scan_cluster a (drop (S a) h) (S a) (S a).

Definition newUser (newText : jsstring) (now : Z) (a : nat) (version : Z)
  : Message :=
  mkMessage User newText None (Some now) false false true (Some a) (Some a)
            (Some version) None.

(** The [save] action of the message-list click handler on the chat it
    fetched: [ta] is the editor's value when the textarea exists.  Returns
    the mutated chat and [insertIdx]; [None] when the guard
    [item?.role === "user" && item?.editing] fails. *)
Definition save_edit (now : Z) (idx : nat) (ta : option jsstring) (chat : Chat)
  : option (Chat * nat) :=
  match history chat !! idx with
  | None => None
  | Some item =>
      if decide (role item = User) then
        if editing item then
          let newText := default (content item) ta in
          let a := anchor_of item idx in
          let h1 := <[idx := set_editing false item]> (history chat) in
          let br := bump_branch (branch chat) a in
          let version := active br in
          let insertIdx := insertIdx_of h1 a in
          let h2 := splice_in insertIdx (newUser newText now a version) h1 in
          Some (mkChat (id chat) (name chat) (model chat) h2 (stats chat)
                       (Some br), insertIdx)
        else None
      else None
  end.

(** One call of [addMessage(role, text, meta, opts)]. *)
Record Rendered := mkRendered {
  r_role : Role;
  r_content : jsstring;
  r_meta : option Meta;
  r_idx : nat;
  r_deleted : bool;
  r_time : option Z;
  r_editing : bool;
  r_edited : bool;
  r_isAnchor : bool;
  r_branchInfo : option BranchState;
  r_attachCount : option nat
}.

(** The call for a message before the anchor. *)
Definition add_before (m : Message) (i : nat) : Rendered :=
  mkRendered (role m) (content m) (meta m) i (deleted m) (time m) (editing m)
             (edited m) false None (Some (default 0%nat (attachCount m))).

(** The call at the anchor slot: shows [x] under index [k]; the attachment
    count is always the anchor message's. *)
Definition add_anchor (br : BranchState) (x : Message) (k : nat) (m : Message)
  : Rendered :=
  mkRendered (role x) (content x) (meta x) k (deleted x) (time x) (editing x)
             (edited x) true (Some br) (Some (default 0%nat (attachCount m))).

(** The call at the bottom of the loop body. *)
Definition add_plain (br : option BranchState) (m : Message) (i : nat)
  : Rendered :=
  let at_anchor := match br with
                   | Some b => bool_decide (i = anchor b)
                   | None => false
                   end in
  mkRendered (role m) (content m) (meta m) i (deleted m) (time m) (editing m)
             (edited m) at_anchor (if at_anchor then br else None) None.

(** [x.branch_of === a && x.branch_version === v]. *)
Definition tagged (a : nat) (v : Z) (x : Message) : bool :=
  bool_decide (branch_of x = Some a) && bool_decide (branch_version x = Some v).

(** The predicate of the [findIndex] at the anchor step. *)
Definition is_version_user (i : nat) (v : Z) (j : nat) (x : Message) : bool :=
  bool_decide (i < j)%nat && tagged i v x && bool_decide (role x = User).

(** The [for] loop of [renderChat]: [rest] is [hist] from index [i] on,
    [skipIdx] the loop's variable ([None] for [-1]). *)
Fixpoint renderLoop (hist : list Message) (br : option BranchState)
    (rest : list Message) (i : nat) (skipIdx : option nat) : list Rendered :=
  match rest with
  | [] => []
  | m :: rest' =>
      match br with
      | None => add_plain br m i :: renderLoop hist br rest' (S i) skipIdx
      | Some b =>
          if decide (i < anchor b)%nat then
            add_before m i :: renderLoop hist br rest' (S i) skipIdx
          else if decide (i = anchor b) then
            if decide (active b = 1) then
              add_anchor b m i m :: renderLoop hist br rest' (S i) skipIdx
            else
              match findIndex (is_version_user i (active b)) hist with
              | Some vUserIdx =>
                  match hist !! vUserIdx with
                  | Some v2 =>
                      add_anchor b v2 vUserIdx m
                        :: renderLoop hist br rest' (S i) (Some vUserIdx)
                  | None => (* cannot happen: the index was just found *)
                      renderLoop hist br rest' (S i) skipIdx
                  end
              | None =>
                  add_anchor b m i m :: renderLoop hist br rest' (S i) skipIdx
              end
          else if decide (active b = 1) then
            if decide (branch_of m = Some (anchor b)) then
              renderLoop hist br rest' (S i) skipIdx
            else add_plain br m i :: renderLoop hist br rest' (S i) skipIdx
          else if decide (skipIdx = Some i) then
            renderLoop hist br rest' (S i) skipIdx
          else if negb (tagged (anchor b) (active b) m) then
            renderLoop hist br rest' (S i) skipIdx
          else add_plain br m i :: renderLoop hist br rest' (S i) skipIdx
      end
  end.

(** [renderChat] on the fetched chat: the sequence of [addMessage] calls. *)
Definition renderChat (chat : option Chat) : list Rendered :=
  let br := chat ≫= branch in
  let hist := default [] (history <$> chat) in
  renderLoop hist br hist 0 None.

(** *** The loop as one step per index

    [skipIdx] is written once, at the anchor step, so the loop is the
    concatenation over all indices of what [render_at] emits for each. *)

Fixpoint collect {A B} (f : nat → A → list B) (l : list A) (i : nat) : list B :=
  match l with
  | [] => []
  | x :: l' => f i x ++ collect f l' (S i)
  end.

(** The value [skipIdx] has after the anchor step. *)
Definition skip_of (hist : list Message) (b : BranchState) : option nat :=
  if decide (active b = 1) then None
  else findIndex (is_version_user (anchor b) (active b)) hist.

Definition render_at (hist : list Message) (b : BranchState) (i : nat)
    (m : Message) : list Rendered :=
  if decide (i < anchor b)%nat then [add_before m i]
  else if decide (i = anchor b) then
    match skip_of hist b ≫= (λ v, pair v <$> hist !! v) with
    | Some (v, v2) => [add_anchor b v2 v m]
    | None => [add_anchor b m i m]
    end
  else if decide (active b = 1) then
    if decide (branch_of m = Some (anchor b)) then []
    else [add_plain (Some b) m i]
  else if decide (skip_of hist b = Some i) then []
  else if tagged (anchor b) (active b) m then [add_plain (Some b) m i]
  else [].

(** A user message of version [v] of the branch anchored at [a]. *)
Definition version_user (a : nat) (v : Z) (x : Message) : Prop :=
  role x = User ∧ branch_of x = Some a ∧ branch_version x = Some v.

(** The entries of a view that were rendered as the anchor slot. *)
Definition anchor_slots (out : list Rendered) : list Rendered :=
  filter (λ r, r_isAnchor r = true) out.

(** The [edit] action: [item.editing = true] on a user message. *)
Definition edit_click (idx : nat) (chat : Chat) : Chat :=
  match history chat !! idx with
  | Some item =>
      if decide (role item = User) then
        set_history (<[idx := set_editing true item]> (history chat)) chat
      else chat
  | None => chat
  end.

(** Number of versions the chat records for anchor [a]: the [total] of a
    branch state that targets [a], and 1 (the original alone) otherwise. *)
Definition version_count (a : nat) (c : Chat) : Z :=
  match branch c with
  | Some b => if decide (anchor b = a) then total b else 1
  | None => 1
  end.

(** What may happen to a chat between two saves (edit clicks, pager clicks,
    replies being filled in): anything that keeps the branch state's anchor
    and total. *)
Definition keeps_branch_total (c c1 : Chat) : Prop :=
  anchor <$> branch c = anchor <$> branch c1 ∧
  total <$> branch c = total <$> branch c1.

(** [saves_on a c cs]: [cs] lists the chat after each of a sequence of saves
    that all resolve to anchor [a], starting from [c]. *)
Inductive saves_on (a : nat) : Chat → list Chat → Prop :=
| saves_done c : saves_on a c []
| saves_step c c1 c' now idx ta item k rest :
    keeps_branch_total c c1 →
    history c1 !! idx = Some item →
    anchor_of item idx = a →
    save_edit now idx ta c1 = Some (c', k) →
    saves_on a c' rest →
    saves_on a c (c' :: rest).

(** The scenario of the specification: the user message "What is 2+2?" at
    index 2 is edited to "What is 3+3?", and that version is edited again. *)
Definition scenario_chat : Chat :=
  mkChat "c_1" (str "New chat") (str "grok")
    [ plain_message User (str "hi") 1;
      plain_message Assistant (str "hello") 2;
      set_editing true (plain_message User (str "What is 2+2?") 3);
      plain_message Assistant (str "4") 4 ]
    (Some DEFAULT_STATS) None.

Definition scenario_save1 : option (Chat * nat) :=
  save_edit 5 2 (Some (str "What is 3+3?")) scenario_chat.

Definition scenario_chat1 : Chat := default scenario_chat (fst <$> scenario_save1).

Definition scenario_save2 : option (Chat * nat) :=
  save_edit 6 3 (Some (str "What is 4+4?")) (edit_click 3 scenario_chat1).

Definition scenario_chat2 : Chat := default scenario_chat (fst <$> scenario_save2).

(** Where the new user message goes.  [in_cluster a h j]: index [j] lies in
    the run of entries directly after the anchor that all carry a numeric
    [branch_of] (the "branch cluster" the scan walks through). *)
Definition in_cluster (a : nat) (h : list Message) (j : nat) : Prop :=
  (a < j)%nat ∧
  ∀ i, (a < i ≤ j)%nat → ∃ t, h !! i = Some t ∧ is_Some (branch_of t).

Definition cluster_tagged (a : nat) (h : list Message) (j : nat) : Prop :=
  in_cluster a h j ∧ ∃ t, h !! j = Some t ∧ branch_of t = Some a.

(** [k] is immediately after the last entry of the cluster tagged with the
    anchor, or immediately after the anchor when the cluster has none. *)
Definition after_cluster (a : nat) (h : list Message) (k : nat) : Prop :=
  (k = S a ∧ ∀ j, ¬ cluster_tagged a h j)
  ∨ (∃ j, k = S j ∧ cluster_tagged a h j
          ∧ ∀ j', (j < j')%nat → ¬ cluster_tagged a h j').

(** Entries [0..n] of [rest] all carry a numeric [branch_of]. *)
Definition numeric_upto (rest : list Message) (n : nat) : Prop :=
  ∀ i, (i ≤ n)%nat → ∃ t, rest !! i = Some t ∧ is_Some (branch_of t).






(* ===================================================================== *)
(** ** RequestArbiter: [loadModelVersions] *)
(* ===================================================================== *)

(** One [{id, label}] of a model's [versions]. *)
Record VersionInfo := mkVersion {
  v_id : jsstring;
  v_label : option jsstring
}.

(** One [<option value=...>text</option>] of the version dropdown. *)
Record SelectOption := mkOption {
  opt_value : jsstring;
  opt_text : jsstring
}.

Definition latest_option : SelectOption := mkOption [] (str "latest").

(** The counter [_mvReqSeq] and the content of [versionSel]. *)
Record Arbiter := mkArbiter {
  _mvReqSeq : Z;
  versionSel : list SelectOption
}.

(** How the awaited request comes back: [fetch] or [res.json()] rejects (no
    connection, a body that is not JSON), or the body parses to a [json]
    whose [data] maps model keys to their versions (keys are distinct; a
    missing [versions] is the empty list).  The version selector is taken
    to exist, and a parsed body to be well-formed, so that nothing throws
    behind the guard. *)
Inductive Outcome :=
| Rejects
| Json (data : list (jsstring * list VersionInfo)).

Definition entry_versions (data : list (jsstring * list VersionInfo))
    (modelValue : jsstring) : list VersionInfo :=
  match list_find (λ kv, kv.1 = modelValue) data with
  | Some (_, (_, versions)) => versions
  | None => []
  end.

(** The options written for a response: ["latest"], then the top 3. *)
Definition options_for (data : list (jsstring * list VersionInfo))
    (modelValue : jsstring) : list SelectOption :=
  latest_option ::
  ((λ v, mkOption (v_id v) (js_or (default [] (v_label v)) (v_id v)))
     <$> take 3 (entry_versions data modelValue)).

(** [loadModelVersions] up to its first [await]:
    [const reqId = ++_mvReqSeq]. *)
Definition loadModelVersions_issue (st : Arbiter) : Z * Arbiter :=
  let reqId := _mvReqSeq st + 1 in
  (reqId, mkArbiter reqId (versionSel st)).

(** The rest of [loadModelVersions] for the call that holds [reqId], run
    when its request settles; [modelValue] is [modelSel.value] then. *)
Definition loadModelVersions_resume (reqId : Z) (o : Outcome)
    (modelValue : jsstring) (st : Arbiter) : Arbiter :=
  match o with
  | Rejects =>
      (* catch: "Safe fallback: keep latest" *)
      mkArbiter (_mvReqSeq st) [latest_option]
  | Json data =>
      if decide (reqId ≠ _mvReqSeq st) then st
      else mkArbiter (_mvReqSeq st) (options_for data modelValue)
  end.

(** The scenario: refresh #1 and #2 are dispatched, #2's response arrives and
    then #1's. *)
Definition two_refreshes (o1 o2 : Outcome) (modelValue : jsstring)
    (st : Arbiter) : Arbiter :=
  let '(id1, st1) := loadModelVersions_issue st in
  let '(id2, st2) := loadModelVersions_issue st1 in
  let st3 := loadModelVersions_resume id2 o2 modelValue st2 in
  loadModelVersions_resume id1 o1 modelValue st3.

Definition grok_versions : list (jsstring * list VersionInfo) :=
  [(str "grok", [mkVersion (str "grok-4") (Some (str "Grok 4"));
                 mkVersion (str "grok-3") None])].

(* ===================================================================== *)
(** ** StreamingSession and the orchestrator: [sendSSE], [finish], the
       stream listeners, the stop button, [sendEditedAtIndex] *)
(* ===================================================================== *)

(** The closure of one [sendSSE] call.  [es_open]: the [EventSource] has not
    been closed (a closed one dispatches no further events); [closed],
    [fullText]: the closure's variables; [textTarget]: the [textContent] of
    the reply bubble, [None] when the element does not exist; [finalized]
    counts how often [finish] has run past its guard (a ghost field). *)
Record Session := mkSession {
  s_aiIdx : nat;
  s_userIdx : nat;
  es_open : bool;
  closed : bool;
  fullText : jsstring;
  textTarget : option jsstring;
  finalized : nat
}.

(** The body of a reply of the buffered endpoint. *)
Record ReplyData := mkReply {
  d_reply : option jsstring;
  d_model : option jsstring;
  d_usage : option Usage
}.

(** An [/ask] request of [sendEditedAtIndex] in flight, with what its
    continuation has captured. *)
Record Pending := mkPending {
  p_chat : Chat;
  p_userIdx : nat;
  p_anchor : nat;
  p_version : Z;
  p_aborted : bool;
  p_settled : bool
}.

(** The script's mutable state: [localStorage], [currentId], [GAIA_BUSY],
    [GAIA_ABORT] and [currentSSE] (handles are indices into [requests] and
    [sessions]). *)
Record App := mkApp {
  ls : Storage;
  currentId : option string;
  GAIA_BUSY : bool;
  GAIA_ABORT : option nat;
  currentSSE : option nat;
  sessions : list Session;
  requests : list Pending
}.

Definition set_ls (x : Storage) (st : App) : App :=
  mkApp x (currentId st) (GAIA_BUSY st) (GAIA_ABORT st) (currentSSE st)
        (sessions st) (requests st).

Definition set_session (sid : nat) (s : Session) (st : App) : App :=
  mkApp (ls st) (currentId st) (GAIA_BUSY st) (GAIA_ABORT st) (currentSSE st)
        (<[sid := s]> (sessions st)) (requests st).

Definition initial_app (x : Storage) : App :=
  mkApp x None false None None [] [].

(** A session that can still finalise: its feed is open and [finish] has not
    run. *)
Definition live (s : Session) : bool := es_open s && negb (closed s).

Definition STREAM_ERROR : jsstring := str "Stream error. Try again.".

Definition THINKING : jsstring := str "Thinking" ++ [8230%N].

(** What [sendSSE] reads from its environment: the id a new chat would get,
    [modelSel?.value || "grok"], the two [Date.now()] readings, and whether
    the reply bubble is found in the document. *)
Record SendEnv := mkSendEnv {
  fresh_id : string;
  model_value : jsstring;
  t_user : Z;
  t_ai : Z;
  has_bubble : bool
}.

Definition pushUserMessage (chat : Chat) (text : jsstring) (t : Z)
    (x : Storage) : nat * Chat * Storage :=
  let idx := length (history chat) in
  let chat' := set_history (history chat ++ [plain_message User text t]) chat in
  (idx, chat', updateChat chat' x).

Definition pushAiMessage (chat : Chat) (text : jsstring) (t : Z)
    (x : Storage) : nat * Chat * Storage :=
  let idx := length (history chat) in
  let chat' := set_history (history chat ++ [plain_message Assistant text t]) chat in
  (idx, chat', updateChat chat' x).

(** [getChat(currentId) || createChat()]. *)
Definition chat_or_create (e : SendEnv) (st : App) : Chat * Storage :=
  match getChat (currentId st) (ls st) with
  | (Some c, x) => (c, x)
  | (None, x) => createChat (fresh_id e) (str "New chat") (model_value e) x
  end.

(** [sendSSE(q)]: the synchronous part, up to the registration of the
    listeners.  The request URL is not part of the state. *)
Definition sendSSE (e : SendEnv) (q : jsstring) (st : App) : App :=
  if GAIA_BUSY st then st
  else
    let '(chat, x0) := chat_or_create e st in
    let '(userIdx, chat1, x1) := pushUserMessage chat q (t_user e) x0 in
    let '(aiIdx, chat2, x2) := pushAiMessage chat1 [] (t_ai e) x1 in
    let target := if has_bubble e then Some THINKING else None in
    let s := mkSession aiIdx userIdx true false [] target 0 in
    mkApp x2 (Some (id chat)) true (GAIA_ABORT st)
          (Some (length (sessions st))) (sessions st ++ [s]) (requests st).

(** [finalPersist] of [finish(ok)]. *)
Definition finalPersist (ok : bool) (s : Session) : jsstring :=
  let renderedErr := match textTarget s with
                     | Some t => if truthy t then trim t else []
                     | None => []
                     end in
  js_or (trim (fullText s))
        (if ok then [] else js_or renderedErr (warn_prefix ++ STREAM_ERROR)).

(** [finish(ok)] of session [sid]; [now] is [Date.now()].  The final
    Markdown render of the bubble is not modelled: [textTarget] is not read
    again. *)
Definition finish (ok : bool) (now : Z) (sid : nat) (st : App) : App :=
  match sessions st !! sid with
  | None => st
  | Some s =>
      if closed s then st
      else
        let s' := mkSession (s_aiIdx s) (s_userIdx s) false true (fullText s)
                            (textTarget s) (S (finalized s)) in
        let '(c, x0) := getChat (currentId st) (ls st) in
        let x1 :=
          match c with
          | Some c =>
              match history c !! s_aiIdx s with
              | Some m =>
                  let m' := set_time now (set_content (finalPersist ok s) m) in
                  updateChat (set_history (<[s_aiIdx s := m']> (history c)) c) x0
              | None => x0
              end
          | None => x0
          end in
        mkApp x1 (currentId st) false (GAIA_ABORT st) None
              (<[sid := s']> (sessions st)) (requests st)
  end.

(** The named events of the feed, with what [JSON.parse(e.data || "{}")]
    yields.  [EvStart]: [None] when the data does not parse, otherwise
    [info.model || ""].  [EvDelta], [EvGaiaError]: the [text] and [error]
    field, [None] when the data does not parse or lacks it. *)
Inductive StreamEvent :=
| EvStart (model_name : option jsstring)
| EvDelta (text : option jsstring)
| EvGaiaError (error : option jsstring)
| EvError
| EvDone.

Definition set_textTarget (t : jsstring) (s : Session) : Session :=
  mkSession (s_aiIdx s) (s_userIdx s) (es_open s) (closed s) (fullText s)
            (match textTarget s with Some _ => Some t | None => None end)
            (finalized s).

(** The listener of each event, for session [sid]. *)
Definition on_event (ev : StreamEvent) (now : Z) (sid : nat) (s : Session)
    (st : App) : App :=
  match ev with
  | EvGaiaError info =>
      let msg := js_or (default [] info) STREAM_ERROR in
      finish false now sid (set_session sid (set_textTarget (warn_prefix ++ msg) s) st)
  | EvStart None => st
  | EvStart (Some modelName) =>
      match getChat (currentId st) (ls st) with
      | (Some c, x0) =>
          match history c !! s_aiIdx s with
          | Some m =>
              let usage := meta m ≫= meta_usage in
              let m' := set_meta (mkMeta (Some modelName) usage) m in
              set_ls (updateChat (set_history (<[s_aiIdx s := m']> (history c)) c) x0) st
          | None => set_ls x0 st
          end
      | (None, x0) => set_ls x0 st
      end
  | EvDelta None => st
  | EvDelta (Some text) =>
      if truthy text then
        let full := fullText s ++ text in
        let s' := mkSession (s_aiIdx s) (s_userIdx s) (es_open s) (closed s)
                            full
                            (match textTarget s with
                             | Some _ => Some full
                             | None => None
                             end)
                            (finalized s) in
        set_session sid s' st
      else st
  | EvError =>
      let s' := if truthy (fullText s) then s
                else set_textTarget (warn_prefix ++ STREAM_ERROR) s in
      finish false now sid (set_session sid s' st)
  | EvDone => finish true now sid st
  end.

(** The feed delivers [ev] to session [sid]: a closed [EventSource] (or an
    unknown handle) dispatches nothing. *)
Definition deliver (sid : nat) (ev : StreamEvent) (now : Z) (st : App) : App :=
  match sessions st !! sid with
  | Some s => if es_open s then on_event ev now sid s st else st
  | None => st
  end.

Definition close_es (s : Session) : Session :=
  mkSession (s_aiIdx s) (s_userIdx s) false (closed s) (fullText s)
            (textTarget s) (finalized s).

Definition abort_request (p : Pending) : Pending :=
  mkPending (p_chat p) (p_userIdx p) (p_anchor p) (p_version p) true
            (p_settled p).

(** [GAIA_ABORT.abort()] on the controller held in [GAIA_ABORT]. *)
Definition abort_current (st : App) : list Pending :=
  match GAIA_ABORT st with
  | Some rid => alter abort_request rid (requests st)
  | None => requests st
  end.

(** The document-level click handler for [#btn-stop]. *)
Definition stop_click (st : App) : App :=
  let '(sse, ss) :=
    match currentSSE st with
    | Some sid => (None, alter close_es sid (sessions st))
    | None => (currentSSE st, sessions st)
    end in
  mkApp (ls st) (currentId st) (GAIA_BUSY st) (GAIA_ABORT st) sse ss
        (abort_current st).

(** [sendEditedAtIndex(userIdx)] up to its [await]: busy, a fresh abort
    controller, the request in flight.  (The save action always passes the
    index of a message that exists and carries [branch_of].) *)
Definition sendEditedAtIndex (userIdx : nat) (st : App) : App :=
  match getChat (currentId st) (ls st) with
  | (None, x0) => set_ls x0 st
  | (Some chat, x0) =>
      match history chat !! userIdx with
      | None => set_ls x0 st
      | Some userMsg =>
          let a := match branch_of userMsg with
                   | Some a => a
                   | None => pred userIdx
                   end in
          let fallback := match branch chat with
                          | Some b => active b
                          | None => 2
                          end in
          let version := match branch_version userMsg with
                         | Some v => if v =? 0 then fallback else v
                         | None => fallback
                         end in
          let p := mkPending chat userIdx a version false false in
          mkApp x0 (currentId st) true (Some (length (requests st)))
                (currentSSE st) (sessions st) (abort_current st ++ [p])
      end
  end.

(** How the request of [sendEditedAtIndex] settles: [fetch] or [res.json()]
    rejects, or the body parses to [data]. *)
Inductive FetchResult :=
| FetchFails
| FetchReply (data : ReplyData).

Definition add_usage (u : Usage) (s : Stats) : Stats :=
  mkStats (in_tokens s + prompt_tokens u) (out_tokens s + completion_tokens u)
          (total_tokens s + usage_total_tokens u).

(** The continuation of [sendEditedAtIndex] after the [await], with its
    [finally]: an aborted request rejects whatever the server sent. *)
Definition sendEditedAtIndex_settle (rid : nat) (r : FetchResult) (now : Z)
    (st : App) : App :=
  match requests st !! rid with
  | None => st
  | Some p =>
      if p_settled p then st
      else
        let p' := mkPending (p_chat p) (p_userIdx p) (p_anchor p)
                            (p_version p) (p_aborted p) true in
        let chat := p_chat p in
        let x1 :=
          match (if p_aborted p then FetchFails else r) with
          | FetchFails => ls st
          | FetchReply data =>
              let reply := match d_reply data with
                           | Some t => if truthy t then trim t
                                       else str "Error: empty response"
                           | None => str "Error: empty response"
                           end in
              let msg := mkMessage Assistant reply
                           (Some (mkMeta (d_model data) (d_usage data)))
                           (Some now) false false false None
                           (Some (p_anchor p)) (Some (p_version p)) None in
              let h := splice_in (S (p_userIdx p)) msg (history chat) in
              match d_usage data, stats chat with
              | Some u, Some s0 =>
                  updateChat (mkChat (id chat) (name chat) (model chat) h
                                (Some (add_usage u s0)) (branch chat)) (ls st)
              | Some u, None => ls st
              | None, _ => updateChat (set_history h chat) (ls st)
              end
          end in
        mkApp x1 (currentId st) false None (currentSSE st) (sessions st)
              (<[rid := p']> (requests st))
  end.

(** The [edit] and [save] branches of the message-list click handler. *)
Definition edit_action (idx : nat) (st : App) : App :=
  match getChat (currentId st) (ls st) with
  | (None, x0) => set_ls x0 st
  | (Some chat, x0) =>
      match history chat !! idx with
      | Some item =>
          if decide (role item = User)
          then set_ls (updateChat (edit_click idx chat) x0) st
          else set_ls x0 st
      | None => set_ls x0 st
      end
  end.

Definition save_action (now : Z) (idx : nat) (ta : option jsstring) (st : App)
  : App :=
  match getChat (currentId st) (ls st) with
  | (None, x0) => set_ls x0 st
  | (Some chat, x0) =>
      match save_edit now idx ta chat with
      | Some (chat', insertIdx) =>
          sendEditedAtIndex insertIdx (set_ls (updateChat chat' x0) st)
      | None => set_ls x0 st
      end
  end.

(** The chat that [currentId] designates, as stored. *)
Definition current_chat (st : App) : option Chat :=
  currentId st ≫= λ k, snd <$> list_find (λ c, id c = k) (loadAll (ls st)).

(** The stored content of the reply slot of session [sid]. *)
Definition persisted (sid : nat) (st : App) : option jsstring :=
  s ← sessions st !! sid;
  c ← current_chat st;
  content <$> history c !! s_aiIdx s.

(** The stream events that do not end a session. *)
Definition non_terminal (ev : StreamEvent) : Prop :=
  match ev with
  | EvStart _ | EvDelta _ => True
  | _ => False
  end.

(** The fragments a sequence of events carries, concatenated in arrival
    order. *)
Fixpoint fragments (evs : list StreamEvent) : jsstring :=
  match evs with
  | [] => []
  | EvDelta (Some text) :: evs' => text ++ fragments evs'
  | _ :: evs' => fragments evs'
  end.

(** Delivery of a list of events to one session, in order; the [n]-th event
    is handled at time [now + n]. *)
Fixpoint deliver_all (sid : nat) (evs : list StreamEvent) (now : Z) (st : App)
  : App :=
  match evs with
  | [] => st
  | ev :: evs' => deliver_all sid evs' (now + 1) (deliver sid ev now st)
  end.

Definition env1 : SendEnv := mkSendEnv "c_1" (str "grok") 1 2 true.
Definition env2 : SendEnv := mkSendEnv "c_2" (str "grok") 7 8 true.

(** [stored c x]: looking up [c]'s id in storage [x] finds exactly [c]. *)
Definition stored (c : Chat) (x : Storage) : Prop :=
  ∃ i, list_find (λ c', id c' = id c) (loadAll x) = Some (i, c).

(** The buffer of session [sid]. *)
Definition buffer (sid : nat) (st : App) : option jsstring :=
  fullText <$> sessions st !! sid.

(** What the bubble shows while a session streams: ["Thinking…"] until the
    first fragment, then the buffer. *)
Definition target_of (bubble : bool) (s : Session) : option jsstring :=
  if bubble then Some (if truthy (fullText s) then fullText s else THINKING)
  else None.

(** Session [sid] is streaming into the current chat: its feed is open,
    [finish] has not run, and the chat that [currentId] designates holds
    its still empty reply slot. *)
Definition streaming (sid : nat) (bubble : bool) (st : App) : Prop :=
  ∃ s c m,
    sessions st !! sid = Some s ∧ es_open s = true ∧ closed s = false
    ∧ finalized s = 0%nat ∧ textTarget s = target_of bubble s
    ∧ GAIA_BUSY st = true ∧ currentSSE st = Some sid
    ∧ currentId st = Some (id c) ∧ stored c (ls st) ∧ is_Some (stats c)
    ∧ history c !! s_aiIdx s = Some m ∧ content m = [].

Ltac destruct_streaming H :=
  destruct H as (s & c & m & Hs & Ho & Hc & Hf & Ht & Hb & Hsse & Hk & Hst
                   & Hstats & Hm & Hcont).



(* ===================================================================== *)
(** ** Further operations of the script and of the attachments manager *)
(* ===================================================================== *)

(** *** Store lookups *)

(** [loadAll().find(c => c.id === k)]. *)
Definition find_chat (k : string) (x : Storage) : option Chat :=
  snd <$> list_find (λ c, id c = k) (loadAll x).

(** The [stats] backfill of [getChat]. *)
Definition backfill (c : Chat) : Chat :=
  match stats c with
  | Some _ => c
  | None => set_stats DEFAULT_STATS c
  end.

(** *** The other bubble actions of the message-list click handler *)

Definition set_deleted (b : bool) (m : Message) : Message :=
  mkMessage (role m) (content m) (meta m) (time m) b (editing m) (edited m)
            (edited_from m) (branch_of m) (branch_version m) (attachCount m).

(** [delete] and [restore]: [item.deleted = true / false], on the chat the
    handler fetched.  (With no message under [idx] the assignment throws
    and nothing is stored.) *)
Definition mark_deleted (b : bool) (idx : nat) (chat : Chat) : Chat :=
  match history chat !! idx with
  | Some item => set_history (<[idx := set_deleted b item]> (history chat)) chat
  | None => chat
  end.

Definition delete_click : nat → Chat → Chat := mark_deleted true.
Definition restore_click : nat → Chat → Chat := mark_deleted false.

(** [cancel]: [item.editing = false] on a user message being edited. *)
Definition cancel_click (idx : nat) (chat : Chat) : Chat :=
  match history chat !! idx with
  | Some item =>
      if decide (role item = User) then
        if editing item then
          set_history (<[idx := set_editing false item]> (history chat)) chat
        else chat
      else chat
  | None => chat
  end.

(** [regenerate]: the loop [for (j = idx - 1; j >= 0; j--)] that looks for
    the closest preceding user message; [None] is [anchorIndex = -1]. *)
Fixpoint user_before (hist : list Message) (idx : nat) : option nat :=
  match idx with
  | O => None
  | S j =>
      match hist !! j with
      | Some prev => if decide (role prev = User) then Some j
                     else user_before hist j
      | None => user_before hist j
      end
  end.

(** The anchor index handed to [regenerateFromAnchor], if the handler gets
    that far: the action applies to assistant messages only. *)
Definition regenerate_anchor (chat : Chat) (idx : nat) : option nat :=
  match history chat !! idx with
  | Some item =>
      if decide (role item = Assistant) then user_before (history chat) idx
      else None
  | None => None
  end.

(** Two messages with the same role and the same branch tags. *)
Definition same_tags (m m' : Message) : Prop :=
  role m = role m' ∧ branch_of m = branch_of m'
  ∧ branch_version m = branch_version m'.

(** No stored message carries the tags [branch_of = a],
    [branch_version = v] yet. *)
Definition fresh_version (a : nat) (v : Z) (h : list Message) : Prop :=
  ∀ m, m ∈ h → tagged a v m = false.

(** *** Choosing the current chat: [ensureCurrent], the sidebar's delete
    button, "clear all" *)

(** [ensureCurrent()]: [fresh] and [mdl] are the identifier and the model
    [createChat()] would use.  An empty [currentId] is falsy, so [getChat]
    is not consulted for it; [all] is read before [getChat] runs.  The
    closing [renderChat()] reads the current chat back through [getChat]. *)
Definition first_or_create (fresh : string) (mdl : jsstring)
    (all : list Chat) (x : Storage) : option string * Storage :=
  match all with
  | c :: _ => (Some (id c), x)
  | [] => let '(chat, x') := createChat fresh (str "New chat") mdl x in
          (Some (id chat), x')
  end.

Definition ensureCurrent (fresh : string) (mdl : jsstring) (st : App) : App :=
  let all := loadAll (ls st) in
  let '(found, x0) :=
    match currentId st with
    | None => (false, ls st)
    | Some k =>
        if decide (k = EmptyString) then (false, ls st)
        else match getChat (Some k) (ls st) with
             | (Some _, x) => (true, x)
             | (None, x) => (false, x)
             end
    end in
  let '(cur, x1) :=
    if found then (currentId st, x0)
    else first_or_create fresh mdl all x0 in
  mkApp (getChat cur x1).2 cur (GAIA_BUSY st) (GAIA_ABORT st) (currentSSE st)
        (sessions st) (requests st).

(** The "clear all" button, once confirmed. *)
Definition clear_all (fresh : string) (mdl : jsstring) (st : App) : App :=
  ensureCurrent fresh mdl
    (mkApp None None (GAIA_BUSY st) (GAIA_ABORT st) (currentSSE st)
           (sessions st) (requests st)).

(** The delete button of the sidebar entry of the chat with id [k], once
    confirmed. *)
Definition sidebar_delete (fresh : string) (mdl : jsstring) (k : string)
    (st : App) : App :=
  let x := deleteChat k (ls st) in
  if decide (currentId st = Some k) then
    ensureCurrent fresh mdl
      (mkApp x None (GAIA_BUSY st) (GAIA_ABORT st) (currentSSE st)
             (sessions st) (requests st))
  else set_ls x st.

(** *** [hostUpdateAssistantBubble] *)

(** [hostUpdateAssistantBubble(idx, text, {meta})]: persists [text] as the
    assistant message at [idx], or appends it when [idx] holds no assistant
    message.  With usage to add and no [stats] on the chat the function
    throws before [updateChat]. *)
Definition hostUpdateAssistantBubble (e : SendEnv) (idx : nat)
    (text : jsstring) (mt : option Meta) (now : Z) (st : App) : App :=
  let '(chat, x0) := chat_or_create e st in
  let pushed := history chat ++
    [mkMessage Assistant text mt (Some now) false false false None None None
               None] in
  let h :=
    match history chat !! idx with
    | Some m =>
        if decide (role m = Assistant) then
          <[idx := mkMessage (role m) text
                     (match mt with Some x => Some x | None => meta m end)
                     (Some now) (deleted m) (editing m) (edited m)
                     (edited_from m) (branch_of m) (branch_version m)
                     (attachCount m)]> (history chat)
        else pushed
    | None => pushed
    end in
  let x1 :=
    match mt ≫= meta_usage, stats chat with
    | Some u, Some s0 =>
        Some (updateChat (mkChat (id chat) (name chat) (model chat) h
                            (Some (add_usage u s0)) (branch chat)) x0)
    | Some u, None => None
    | None, _ => Some (updateChat (set_history h chat) x0)
    end in
  let x2 := match x1 with
            | Some x => (getChat (currentId st) x).2
            | None => x0
            end in
  set_ls x2 st.

(** *** The composer's pending files: [bytesTotal], [tryAddFiles] *)

(** What the script reads of a [File]. *)
Record PickedFile := mkFile {
  file_name : jsstring;
  file_size : Z;
  file_type : jsstring
}.

Definition MAX_FILES : nat := 5.
Definition MAX_TOTAL_MB : Z := 50.

(** [list.reduce((s, f) => s + (f?.size || 0), 0)]. *)
Definition bytesTotal (l : list PickedFile) : Z :=
  foldl (λ s f, s + file_size f) 0 l.

(** The [for] loop of [tryAddFiles], with its [break]. *)
Fixpoint tryAdd_loop (incoming current : list PickedFile) (added : nat)
  : list PickedFile * nat :=
  match incoming with
  | [] => (current, added)
  | f :: rest =>
      let tooMany := bool_decide (MAX_FILES ≤ length current)%nat in
      let tooBig := bool_decide (MAX_TOTAL_MB * 1024 * 1024
                                 < bytesTotal current + file_size f) in
      if tooMany || tooBig then (current, added)
      else tryAdd_loop rest (current ++ [f]) (S added)
  end.

(** [tryAddFiles(fileList)]: the new value of [PENDING_FILES]. *)
Definition tryAddFiles (fileList PENDING_FILES : list PickedFile)
  : list PickedFile :=
  match fileList with
  | [] => PENDING_FILES
  | _ =>
      let '(current, added) := tryAdd_loop fileList PENDING_FILES 0 in
      if decide (0 < added)%nat then current else PENDING_FILES
  end.

(** *** The union of composer and vault files in [send] *)

(** A [Map] in insertion order: [set] on a present key keeps the key's
    place and replaces its value. *)
Fixpoint map_set {K V} `{EqDecision K} (k : K) (v : V) (m : list (K * V))
  : list (K * V) :=
  match m with
  | [] => [(k, v)]
  | (k', v') :: m' =>
      if decide (k' = k) then (k, v) :: m' else (k', v') :: map_set k v m'
  end.

(** The key [`${name}|${size}`] of a file, with [name = f.name || "file"].
    The decimal size holds no ["|"], so two keys are equal exactly when
    name and size are: the key is kept as the pair. *)
Definition file_key (f : PickedFile) : jsstring * Z :=
  (js_or (file_name f) (str "file"), file_size f).

(** [filesToSend]: the values of [uniq] after
    [[...filesFromChips, ...filesFromVaultRefs].forEach(f => uniq.set(key, f))]. *)
Definition filesToSend (filesFromChips filesFromVaultRefs : list PickedFile)
  : list PickedFile :=
  snd <$> foldl (λ uniq f, map_set (file_key f) f uniq) []
                (filesFromChips ++ filesFromVaultRefs).

(** *** [send] *)

(** What [send] reads besides the script's state: the composer's files (the
    snapshot of [PENDING_FILES]) and the vault files the message refers to,
    the identifier [createChat()] would give the chat made for the history
    fallback, whether [GAIA.CodeFlow.shouldPipeline(...)] asks for the code
    pipeline, and whether [GAIA.settings.streaming === 'sse'].  [GAIA.CodeFlow],
    [GAIA.Memory] and the vault are not part of the script. *)
Record SendInputs := mkSendInputs {
  chips : list PickedFile;
  vault_refs : list PickedFile;
  fallback_id : string;
  shouldPipeline : bool;
  streaming_sse : bool
}.

(** [send] up to its first [await]: the busy guard and the trimmed input;
    [None] when it returns at once. *)
Definition send_begin (input : jsstring) (st : App) : option jsstring :=
  if GAIA_BUSY st then None
  else
    let q := trim input in
    if truthy q then Some q else None.

(** [mk === "grok" || mk === "gemini-pro"]. *)
Definition sseAllowed (e : SendEnv) : bool :=
  bool_decide (model_value e = str "grok" ∨ model_value e = str "gemini-pro").

(** Where [send] goes: into [sendSSE], into the code pipeline (whose reply
    slot is [aiIdx]), or onto the buffered path. *)
Inductive Route :=
| Streamed
| Pipelined (aiIdx : nat)
| Buffered.

(** The pipeline route up to [await GAIA.CodeFlow.runAndRender(...)]: the
    chat is fetched or created and made current, the user message (with
    [attachCount: 0]) and one placeholder are pushed, the busy flag is set. *)
Definition send_pipeline (e : SendEnv) (q : jsstring) (st : App) : Route * App :=
  let '(chat, x0) := chat_or_create e st in
  let userMsg := mkMessage User q None (Some (t_user e)) false false false
                           None None None (Some 0%nat) in
  let chat1 := set_history (history chat ++ [userMsg]) chat in
  let x1 := updateChat chat1 x0 in
  let '(aiIdx, chat2, x2) := pushAiMessage chat1 [] (t_ai e) x1 in
  (Pipelined aiIdx,
   mkApp x2 (Some (id chat)) true (GAIA_ABORT st) (currentSSE st)
         (sessions st) (requests st)).

(** [send] after [await filesReferencedInMessage(q)], up to its next [await]
    or its return: the union of the files, [const chatForFallback =
    getChat(currentId) || createChat()] (which stores a chat when none is
    current, without making it current), and the choice of the route.  The
    buffered path itself ([setBusy(true)] and what follows) is not part of
    this model: [Buffered] comes with the state in which it is entered. *)
Definition send_resume (i : SendInputs) (e : SendEnv) (q : jsstring)
    (st : App) : Route * App :=
  let filesPresent := match filesToSend (chips i) (vault_refs i) with
                      | [] => false
                      | _ => true
                      end in
  let x0 := match getChat (currentId st) (ls st) with
            | (Some _, x) => x
            | (None, x) =>
                (createChat (fallback_id i) (str "New chat") (model_value e) x).2
            end in
  let st0 := set_ls x0 st in
  if shouldPipeline i then send_pipeline e q st0
  else if streaming_sse i && negb filesPresent && sseAllowed e
       then (Streamed, sendSSE e q st0)
       else (Buffered, st0).

(** [send()] when nothing else happens while the vault is read. *)
Definition send (i : SendInputs) (e : SendEnv) (input : jsstring) (st : App)
  : App :=
  match send_begin input st with
  | Some q => (send_resume i e q st).2
  | None => st
  end.

(** The pipeline route when [runAndRender] has resolved: [setBusy(false)]. *)
Definition pipeline_done (st : App) : App :=
  mkApp (ls st) (currentId st) false (GAIA_ABORT st) (currentSSE st)
        (sessions st) (requests st).

(** The pipeline route when [runAndRender] has rejected: the busy flag is
    cleared, a placeholder that is still empty is dropped, and the request
    falls back to [sendSSE] (with the readings [e'] of that call) or to the
    buffered path. *)
Definition pipeline_failed (i : SendInputs) (e' : SendEnv) (q : jsstring)
    (aiIdx : nat) (st : App) : Route * App :=
  let filesPresent := match filesToSend (chips i) (vault_refs i) with
                      | [] => false
                      | _ => true
                      end in
  let '(c, x0) := getChat (currentId st) (ls st) in
  let x1 :=
    match c with
    | Some c =>
        match history c !! aiIdx with
        | Some m =>
            if truthy (content m) then x0
            else (getChat (currentId st)
                    (updateChat (set_history (delete aiIdx (history c)) c) x0)).2
        | None => x0
        end
    | None => x0
    end in
  let st1 := mkApp x1 (currentId st) false (GAIA_ABORT st) (currentSSE st)
                   (sessions st) (requests st) in
  if streaming_sse i && negb filesPresent then (Streamed, sendSSE e' q st1)
  else (Buffered, st1).

(** *** The "new chat" button *)

(** [n] is what the prompt returned (it was not cancelled); the page's
    address names no space. *)
Definition new_chat_click (fresh : string) (mdl n : jsstring) (st : App)
  : App :=
  let '(ch, x) := createChat fresh (js_or (trim n) (str "New chat")) mdl
                    (ls st) in
  mkApp (getChat (Some (id ch)) x).2 (Some (id ch)) (GAIA_BUSY st)
        (GAIA_ABORT st) (currentSSE st) (sessions st) (requests st).

(** *** Scenarios around a streamed send *)

(** No files, no code pipeline, streaming switched on. *)
Definition plain_send : SendInputs := mkSendInputs [] [] "c_0" false true.

(** The page has loaded on an empty store: [ensureCurrent()] has made the
    chat ["c_1"] and it is current. *)
Definition page_loaded : App :=
  ensureCurrent "c_1" (str "grok") (initial_app None).

(** "hi" is sent and the reply starts to stream ("Hel"); meanwhile the user
    edits the question and saves the edit. *)
Definition saved_mid_stream : App :=
  let st1 := send plain_send env1 (str "hi") page_loaded in
  let st2 := deliver 0 (EvDelta (Some (str "Hel"))) 3 st1 in
  let st3 := edit_action 0 st2 in
  save_action 4 0 (Some (str "hi!")) st3.

(** "hi" is sent and the reply starts to stream; meanwhile the user clicks
    "new chat". *)
Definition new_chat_mid_stream : App :=
  let st1 := send plain_send env1 (str "hi") page_loaded in
  let st2 := deliver 0 (EvDelta (Some (str "Hel"))) 3 st1 in
  new_chat_click "c_2" (str "grok") (str "Second") st2.

(** "q1" is sent and its reply streams; the user edits the question and
    saves, and the request of the edit fails. *)
Definition overlap_before_second_send : App :=
  let st1 := send plain_send env1 (str "q1") page_loaded in
  let st2 := edit_action 0 st1 in
  let st3 := save_action 3 0 (Some (str "q1b")) st2 in
  sendEditedAtIndex_settle 0 FetchFails 4 st3.

(** Then "q2" is sent. *)
Definition overlap_after_second_send : App :=
  send plain_send env2 (str "q2") overlap_before_second_send.

(** *** [escapeHTML] *)

(** [s.replace(/c/g, r)] for a single character [c]. *)
Definition replace_all (c : N) (r : jsstring) (s : jsstring) : jsstring :=
  flat_map (λ x, if (x =? c)%N then r else [x]) s.

Definition AMP : N := 38.
Definition LT : N := 60.
Definition GT : N := 62.
Definition QUOT : N := 34.
Definition APOS : N := 39.

Definition escapeHTML (s : jsstring) : jsstring :=
  replace_all GT (str "&gt;")
    (replace_all LT (str "&lt;") (replace_all AMP (str "&amp;") s)).

(** *** The theme switch: [applyTheme], [getInitialTheme], [toggleTheme] *)

(** The [data-theme] attribute of the root element ([None] when absent),
    the stored preference, the text of the theme icon ([None] when the
    element is missing) and what the system prefers. *)
Record ThemeState := mkTheme {
  data_theme : option jsstring;
  saved_theme : option jsstring;
  themeIcon : option jsstring;
  prefers_dark : bool
}.

Definition SUN : jsstring := [9728%N; 65039%N].
Definition MOON : jsstring := [55356%N; 57113%N].

Definition applyTheme (theme : jsstring) (t : ThemeState) : ThemeState :=
  if decide (theme = str "dark") then
    mkTheme (Some (str "dark")) (saved_theme t) ((λ _, SUN) <$> themeIcon t)
            (prefers_dark t)
  else
    mkTheme (Some (str "light")) (saved_theme t) ((λ _, MOON) <$> themeIcon t)
            (prefers_dark t).

Definition getInitialTheme (t : ThemeState) : jsstring :=
  let system := if prefers_dark t then str "dark" else str "light" in
  match saved_theme t with
  | Some saved =>
      if decide (saved = str "light" ∨ saved = str "dark") then saved
      else system
  | None => system
  end.

Definition toggleTheme (t : ThemeState) : ThemeState :=
  let current := js_or (default [] (data_theme t)) (str "light") in
  let next := if decide (current = str "dark") then str "light"
              else str "dark" in
  applyTheme next
    (mkTheme (data_theme t) (Some next) (themeIcon t) (prefers_dark t)).

(** *** The attachments manager ([attachments.js]) *)

Module AttachmentsManager.

(** An entry of [this.files].  The [icon] field, a function of the file's
    type and name, is left out. *)
Record Item := mkItem {
  item_id : string;
  item_file : PickedFile;
  item_name : jsstring;
  item_size : Z;
  item_type : jsstring
}.

Record Manager := mkManager {
  maxFiles : nat;
  maxSizeMB : Z;
  files : list Item
}.

(** The constructor's defaults. *)
Definition default_manager : Manager := mkManager 10 25 [].

Definition new_item (k : string) (f : PickedFile) : Item :=
  mkItem k f (file_name f) (file_size f)
         (js_or (file_type f) (str "application/octet-stream")).

(** The loop of [addFiles]: every file comes with the identifier it is
    given when it is pushed.  [sizeMB > maxSizeMB] is
    [f.size > maxSizeMB * 1024 * 1024]. *)
Fixpoint addFiles_loop (mx : nat) (mb : Z) (fileList : list (string * PickedFile))
    (fs : list Item) : list Item :=
  match fileList with
  | [] => fs
  | (k, f) :: rest =>
      if decide (mx ≤ length fs)%nat then fs
      else if decide (mb * (1024 * 1024) < file_size f)
           then addFiles_loop mx mb rest fs
           else addFiles_loop mx mb rest (fs ++ [new_item k f])
  end.

Definition addFiles (fileList : list (string * PickedFile)) (m : Manager)
  : Manager :=
  mkManager (maxFiles m) (maxSizeMB m)
            (addFiles_loop (maxFiles m) (maxSizeMB m) fileList (files m)).

Definition remove (k : string) (m : Manager) : Manager :=
  mkManager (maxFiles m) (maxSizeMB m)
            (filter (λ x, item_id x ≠ k) (files m)).

Definition clear (m : Manager) : Manager :=
  mkManager (maxFiles m) (maxSizeMB m) [].

(** [s.slice(0, e)]: a negative end counts from the end of the string. *)
Definition slice0 (s : jsstring) (e : Z) : jsstring :=
  let len := Z.of_nat (length s) in
  let stop := if e <? 0 then Z.max (len + e) 0 else Z.min e len in
  take (Z.to_nat stop) s.

(** [#truncate(s, n)]; the ellipsis is U+2026. *)
Definition truncate (s : jsstring) (n : Z) : jsstring :=
  if n <? Z.of_nat (length s) then slice0 s (n - 3) ++ [8230%N] else s.

(** [#esc(s)]: one pass over the string. *)
Definition esc_char (c : N) : jsstring :=
  if (c =? AMP)%N then str "&amp;"
  else if (c =? LT)%N then str "&lt;"
  else if (c =? GT)%N then str "&gt;"
  else if (c =? QUOT)%N then str "&quot;"
  else if (c =? APOS)%N then str "&#39;"
  else [c].

Definition esc (s : jsstring) : jsstring := flat_map esc_char s.

End AttachmentsManager.

(** *** Traces of the version dropdown *)

(** What can happen to the dropdown: a refresh is dispatched, or the
    request tagged [reqId] settles. *)
Inductive ArbiterAction :=
| ARefresh
| ASettle (reqId : Z) (o : Outcome) (modelValue : jsstring).

Definition arbiter_step (a : ArbiterAction) (st : Arbiter) : Arbiter :=
  match a with
  | ARefresh => (loadModelVersions_issue st).2
  | ASettle reqId o modelValue => loadModelVersions_resume reqId o modelValue st
  end.

Definition arbiter_run (acts : list ArbiterAction) (st : Arbiter) : Arbiter :=
  foldl (λ st a, arbiter_step a st) st acts.

Definition is_refresh (a : ArbiterAction) : bool :=
  match a with ARefresh => true | ASettle _ _ _ => false end.

(** An edit of the scenario's chat has just been saved: the request of
    [sendEditedAtIndex] is in flight. *)
Definition edited_pending : App :=
  save_action 5 2 (Some (str "What is 3+3?"))
    (mkApp (Some [scenario_chat]) (Some "c_1"%string) false None None [] []).

(** The text stored for a reply of the buffered endpoint. *)
Definition reply_text (data : ReplyData) : jsstring :=
  match d_reply data with
  | Some t => if truthy t then trim t else str "Error: empty response"
  | None => str "Error: empty response"
  end.

(** A stored chat without its [stats]. *)
Definition sans_stats (c : Chat)
  : string * jsstring * jsstring * list Message * option BranchState :=
  (id c, name c, model c, history c, branch c).

(** The chat [createChat()] makes. *)
Definition new_chat (fresh : string) (mdl : jsstring) : Chat :=
  mkChat fresh (str "New chat") mdl [] (Some DEFAULT_STATS) None.

(** The characters removed by [trim]. *)
Definition blank (s : jsstring) : Prop := Forall (λ c, is_whitespace c = true) s.

(* ===================================================================== *)
(** ** Theorems *)
(* ===================================================================== *)

Section Store.

(** C10. For every chat object whose id does not occur in the persisted chat
    list, [updateChat] leaves the persisted state completely unchanged: no
    record is inserted for an unknown id (and nothing is written at all). *)
Theorem updateChat_unknown_id_unchanged (ch : Chat) (ls : Storage) :
  (∀ c, c ∈ loadAll ls → id c ≠ id ch) →
  updateChat ch ls = ls ∧ loadAll (updateChat ch ls) = loadAll ls.
Proof.
  intros Hfresh. unfold updateChat, findIndex_id.
  destruct (list_find _ (loadAll ls)) as [[i c]|] eqn:E; simpl; [|done].
  apply list_find_Some in E as (Hi & Hc & _).
  exfalso. eapply Hfresh; [|exact Hc]. eapply list_elem_of_lookup_2; eauto.
Qed.

Lemma updateChat_unknown_id_unchanged_witness :
  updateChat (mkChat "c_9" (str "Other") (str "grok") [] None None)
             (Some [scenario_chat])
  = Some [scenario_chat].
Proof.
  refine (proj1 (updateChat_unknown_id_unchanged _ (Some [scenario_chat]) _)).
  intros c Hc. apply list_elem_of_singleton in Hc as ->. discriminate.
Defined.

End Store.

Section Branch.

Lemma cycle_active_mod (br : BranchState) :
  1 ≤ active br ≤ total br →
  active (cycle br) = (active br - 1 + 1) `mod` total br + 1.
Proof.
  intros H. unfold cycle; simpl.
  rewrite Z.rem_mod_nonneg by lia. f_equal. f_equal. lia.
Qed.

Lemma cycle_iter_fields (k : nat) (br : BranchState) :
  anchor (Nat.iter k cycle br) = anchor br ∧
  total (Nat.iter k cycle br) = total br.
Proof. induction k as [|k IH]; simpl; [done|]. by destruct IH. Qed.

Lemma cycle_iter_active (k : nat) (br : BranchState) :
  1 ≤ active br ≤ total br →
  active (Nat.iter k cycle br)
  = (active br - 1 + Z.of_nat k) `mod` total br + 1.
Proof.
  intros H. induction k as [|k IH].
  - simpl. rewrite Z.add_0_r, Z.mod_small by lia. lia.
  - change (Nat.iter (S k) cycle br) with (cycle (Nat.iter k cycle br)).
    destruct (cycle_iter_fields k br) as [_ Ht].
    assert (0 ≤ (active br - 1 + Z.of_nat k) `mod` total br < total br)
      by (apply Z.mod_pos_bound; lia).
    rewrite cycle_active_mod by (rewrite Ht, IH; lia).
    rewrite Ht, IH.
    replace ((active br - 1 + Z.of_nat k) `mod` total br + 1 - 1 + 1)
      with ((active br - 1 + Z.of_nat k) `mod` total br + 1) by lia.
    rewrite Zplus_mod_idemp_l. f_equal. f_equal. lia.
Qed.

(** C5. The pager maps [active] to [(active % total) + 1].  On a branch state
    with [1 <= active <= total] this is the forward wrap-around
    1 -> 2 -> ... -> N -> 1: it stays inside [{1..total}], is injective and
    surjective there, and [total] applications return to the original
    [active]. *)
Theorem cycle_is_bijection (a : nat) (act tot : Z) :
  1 ≤ tot → 1 ≤ act ≤ tot →
  let nxt := λ x, active (cycle (mkBranch a x tot)) in
  nxt act = Z.rem act tot + 1
  ∧ (act < tot → nxt act = act + 1)
  ∧ (act = tot → nxt act = 1)
  ∧ 1 ≤ nxt act ≤ tot
  ∧ (∀ x, 1 ≤ x ≤ tot → nxt x = nxt act → x = act)
  ∧ (∃ x, 1 ≤ x ≤ tot ∧ nxt x = act)
  ∧ Nat.iter (Z.to_nat tot) cycle (mkBranch a act tot) = mkBranch a act tot.
Proof.
  intros Ht Ha nxt.
  assert (Hnxt : ∀ x, 1 ≤ x ≤ tot →
            nxt x = if decide (x = tot) then 1 else x + 1).
  { intros x Hx. unfold nxt, cycle; simpl. case_decide.
    - subst. rewrite Z.rem_same by lia. done.
    - rewrite Z.rem_small by lia. done. }
  split; [done|].
  split; [intros; rewrite Hnxt by lia; case_decide; lia|].
  split; [intros; rewrite Hnxt by lia; case_decide; lia|].
  split; [rewrite Hnxt by lia; case_decide; lia|].
  split.
  { intros x Hx. rewrite !Hnxt by lia. repeat case_decide; lia. }
  split.
  { destruct (decide (act = 1)) as [->|].
    - exists tot. rewrite Hnxt by lia. case_decide; [lia|done].
    - exists (act - 1). rewrite Hnxt by lia. case_decide; lia. }
  set (br := mkBranch a act tot).
  destruct (cycle_iter_fields (Z.to_nat tot) br) as [Han Hto].
  pose proof (cycle_iter_active (Z.to_nat tot) br) as Hac.
  destruct (Nat.iter (Z.to_nat tot) cycle br) as [a' act' tot'].
  simpl in *. subst a' tot'. f_equal.
  rewrite Hac by lia. rewrite Z2Nat.id by lia.
  replace (act - 1 + tot) with (act - 1 + 1 * tot) by lia.
  rewrite Z_mod_plus_full, Z.mod_small by lia. lia.
Qed.

Lemma cycle_is_bijection_witness :
  Nat.iter 3 cycle (mkBranch 2 2 3) = mkBranch 2 2 3.
Proof.
  exact (proj2 (proj2 (proj2 (proj2 (proj2 (proj2
    (cycle_is_bijection 2 2 3 ltac:(lia) ltac:(lia)))))))).
Defined.

Lemma save_edit_branch now idx ta chat item chat' k :
  history chat !! idx = Some item →
  save_edit now idx ta chat = Some (chat', k) →
  branch chat' = Some (bump_branch (branch chat) (anchor_of item idx)).
Proof.
  intros Hit Hs. unfold save_edit in Hs. rewrite Hit in Hs.
  destruct (decide (role item = User)); [|done].
  destruct (editing item); [|done]. by simplify_eq.
Qed.

Lemma version_count_bump (a : nat) (c c' : Chat) :
  1 ≤ version_count a c →
  branch c' = Some (bump_branch (branch c) a) →
  branch c' = Some (mkBranch a (version_count a c + 1) (version_count a c + 1))
  ∧ version_count a c' = version_count a c + 1.
Proof.
  unfold version_count, bump_branch, or_one. intros Hv ->.
  destruct (branch c) as [b|]; simpl.
  - destruct (decide (anchor b = a)) as [<-|Hne].
    + rewrite decide_False by tauto. simpl.
      destruct (Z.eqb_spec (total b) 0); [lia|].
      rewrite decide_True by done. done.
    + rewrite decide_True by done. simpl. rewrite decide_True by done. done.
  - rewrite decide_True by done. done.
Qed.

Lemma keeps_version_count (a : nat) (c c1 : Chat) :
  keeps_branch_total c c1 → version_count a c1 = version_count a c.
Proof.
  intros [Ha Ht]. unfold version_count.
  destruct (branch c) as [b|], (branch c1) as [b1|]; simplify_eq/=; try done.
  rewrite Ha, Ht. done.
Qed.

(** C3. Whenever an edit of a user message is saved: with no branch state, or
    one that targets another anchor, the branch state becomes
    [{anchor, active: 2, total: 2}]; with a branch state on this anchor,
    [total] grows by exactly 1 and [active] is set to it.  Hence along every
    sequence of saves on one anchor ([p] the chat before the [n]-th save, [q]
    the chat after it) each save grows the version count by exactly 1 and
    leaves [active = total].  Branch states have [total >= 1]. *)
Theorem save_sequence_branch (a : nat) (c : Chat) (cs : list Chat) :
  saves_on a c cs →
  1 ≤ version_count a c →
  ∀ (n : nat) (p q : Chat),
    (c :: cs) !! n = Some p → cs !! n = Some q →
    (branch p = None → branch q = Some (mkBranch a 2 2))
    ∧ (∀ b, branch p = Some b → anchor b ≠ a →
         branch q = Some (mkBranch a 2 2))
    ∧ (∀ b, branch p = Some b → anchor b = a →
         branch q = Some (mkBranch a (total b + 1) (total b + 1)))
    ∧ version_count a q = version_count a p + 1
    ∧ (∃ b', branch q = Some b' ∧ anchor b' = a ∧ active b' = total b'
             ∧ total b' = version_count a c + Z.of_nat (S n)).
Proof.
  induction 1 as [c|c c1 c' now idx ta item k rest Hk Hit Han Hs Hrest IH];
    intros Hv n p q Hp Hq; [done|].
  pose proof (save_edit_branch _ _ _ _ _ _ _ Hit Hs) as Hb. rewrite Han in Hb.
  pose proof (keeps_version_count a _ _ Hk) as Hvc.
  destruct (version_count_bump a c1 c' ltac:(lia) Hb) as [Hb' Hv'].
  rewrite Hvc in Hb', Hv'.
  destruct n as [|n]; simplify_eq/=.
  - split_and!.
    + intros E. rewrite Hb'. unfold version_count. by rewrite E.
    + intros b E Hne. rewrite Hb'. unfold version_count. rewrite E.
      by rewrite decide_False.
    + intros b E He. rewrite Hb'. unfold version_count. rewrite E.
      by rewrite decide_True.
    + done.
    + eexists. split; [exact Hb'|]. simpl. split_and!; [done|done|lia].
  - destruct (IH ltac:(lia) n p q Hp Hq) as (H1 & H2 & H3 & H4 & b' & H5).
    split_and!; try done. exists b'. rewrite Hv' in H5.
    destruct H5 as (? & ? & ? & ?). split_and!; try done. lia.
Qed.

Lemma save_sequence_branch_witness :
  ∃ b', branch scenario_chat2 = Some b' ∧ anchor b' = 2%nat
        ∧ active b' = total b' ∧ total b' = 1 + Z.of_nat 2.
Proof.
  assert (Hs : saves_on 2 scenario_chat [scenario_chat1; scenario_chat2]).
  { eapply (saves_step 2 scenario_chat scenario_chat scenario_chat1
              5 2 (Some (str "What is 3+3?"))); [done|reflexivity..|].
    eapply (saves_step 2 scenario_chat1 (edit_click 3 scenario_chat1)
              scenario_chat2 6 3 (Some (str "What is 4+4?")));
      [done|reflexivity..|constructor]. }
  exact (proj2 (proj2 (proj2 (proj2
    (save_sequence_branch 2 scenario_chat [scenario_chat1; scenario_chat2]
       Hs ltac:(vm_compute; discriminate) 1%nat scenario_chat1 scenario_chat2
       eq_refl eq_refl))))).
Defined.

Lemma numeric_upto_cons t rest n :
  numeric_upto (t :: rest) (S n) ↔ is_Some (branch_of t) ∧ numeric_upto rest n.
Proof.
  split.
  - intros H. split.
    + destruct (H 0%nat ltac:(lia)) as (t' & E & ?). by simplify_eq/=.
    + intros i Hi. apply (H (S i)). lia.
  - intros [Ht H] [|i] Hi; [by exists t|]. apply H. lia.
Qed.

(** The scan over [rest] (the history from index [j] on): either no entry of
    the leading numeric run is tagged and the accumulator is returned, or
    the result is one past the last tagged entry of that run. *)
Lemma scan_cluster_spec (a : nat) (rest : list Message) (j ins : nat) :
  (scan_cluster a rest j ins = ins
   ∧ ∀ n t, rest !! n = Some t → numeric_upto rest n → branch_of t ≠ Some a)
  ∨ (∃ n t, scan_cluster a rest j ins = S (j + n)
       ∧ rest !! n = Some t ∧ branch_of t = Some a ∧ numeric_upto rest n
       ∧ ∀ n' t', (n < n')%nat → rest !! n' = Some t' →
                  numeric_upto rest n' → branch_of t' ≠ Some a).
Proof.
  revert j ins. induction rest as [|t rest IH]; intros j ins; simpl.
  { left. split; [done|]. by intros n t. }
  destruct (decide (branch_of t = Some a)) as [Ht|Ht].
  - right. destruct (IH (S j) (S j)) as [[E Hno]|(n & t' & E & Hl & Hb & Hn & Hlater)].
    + exists 0%nat, t. rewrite E. split_and!; [f_equal; lia|done|done| |].
      * intros [|i] Hi; [|lia]. exists t. by rewrite Ht.
      * intros [|n'] t' Hn' Hl Hr; [lia|]. simpl in Hl.
        apply numeric_upto_cons in Hr as [_ Hr]. by eapply Hno.
    + exists (S n), t'. rewrite E. split_and!; [f_equal; lia|done|done| |].
      * apply numeric_upto_cons. by rewrite Ht.
      * intros [|n'] t'' Hn' Hl' Hr; [lia|]. simpl in Hl'.
        apply numeric_upto_cons in Hr as [_ Hr].
        eapply Hlater; [|done..]. lia.
  - destruct (branch_of t) as [b|] eqn:Hb.
    + destruct (IH (S j) ins) as [[E Hno]|(n & t' & E & Hl & Hb' & Hn & Hlater)].
      * left. split; [done|]. intros [|n] t' Hl Hr; simplify_eq/=; [congruence|].
        apply numeric_upto_cons in Hr as [_ Hr]. by eapply Hno.
      * right. exists (S n), t'. rewrite E.
        split_and!; [f_equal; lia|done|done| |].
        -- apply numeric_upto_cons. by rewrite Hb.
        -- intros [|n'] t'' Hn' Hl' Hr; [lia|]. simpl in Hl'.
           apply numeric_upto_cons in Hr as [_ Hr].
           eapply Hlater; [|done..]. lia.
    + left. split; [done|]. intros n t' _ Hr.
      destruct (Hr 0%nat ltac:(lia)) as (t0 & E0 & [b Hb0]). simplify_eq/=.
Qed.

Lemma in_cluster_drop (a : nat) (h : list Message) (n : nat) :
  in_cluster a h (S a + n) ↔ numeric_upto (drop (S a) h) n.
Proof.
  unfold in_cluster, numeric_upto. split.
  - intros [_ H] i Hi. rewrite lookup_drop. apply H. lia.
  - intros H. split; [lia|]. intros i Hi.
    specialize (H (i - S a)%nat ltac:(lia)). rewrite lookup_drop in H.
    by replace (S a + (i - S a))%nat with i in H by lia.
Qed.

Lemma insertIdx_after_cluster (a : nat) (h : list Message) :
  after_cluster a h (insertIdx_of h a).
Proof.
  unfold insertIdx_of, after_cluster, cluster_tagged.
  destruct (scan_cluster_spec a (drop (S a) h) (S a) (S a))
    as [[E Hno]|(n & t & E & Hl & Hb & Hn & Hlater)]; rewrite E.
  - left. split; [done|]. intros j [[Hj Hc] (t & Ht & Hb)].
    replace j with (S a + (j - S a))%nat in Ht, Hc by lia.
    eapply (Hno (j - S a)%nat t); [by rewrite lookup_drop| |done].
    apply in_cluster_drop. split; [lia|done].
  - right. exists (S a + n)%nat. split; [done|]. split.
    + split; [by apply in_cluster_drop|]. exists t. by rewrite <-lookup_drop.
    + intros j' Hj' [[Hj Hc] (t' & Ht' & Hb')].
      replace j' with (S a + (j' - S a))%nat in Ht', Hc by lia.
      eapply (Hlater (j' - S a)%nat t'); [lia|by rewrite lookup_drop| |done].
      apply in_cluster_drop. split; [lia|done].
Qed.






End Branch.

Section Render.

Lemma findIndex_from_Some {A} (P : nat → A → bool) (l : list A) (j v : nat) :
  findIndex_from P l j = Some v →
  ∃ n x, v = (j + n)%nat ∧ l !! n = Some x ∧ P v x = true
         ∧ ∀ n' x', (n' < n)%nat → l !! n' = Some x' → P (j + n')%nat x' = false.
Proof.
  revert j. induction l as [|y l IH]; intros j; simpl; [done|].
  destruct (P j y) eqn:E.
  - intros ?; simplify_eq. exists 0%nat, y.
    rewrite Nat.add_0_r. split_and!; [done..|]. intros; lia.
  - intros Hf. destruct (IH _ Hf) as (n & x & -> & Hl & HP & Hmin).
    exists (S n), x. split_and!; [lia|done|done|].
    intros [|n'] x' Hn' Hl'; simplify_eq/=.
    + by rewrite Nat.add_0_r.
    + replace (j + S n')%nat with (S j + n')%nat by lia.
      eapply Hmin; [lia|done].
Qed.

Lemma findIndex_from_None {A} (P : nat → A → bool) (l : list A) (j : nat) :
  findIndex_from P l j = None →
  ∀ n x, l !! n = Some x → P (j + n)%nat x = false.
Proof.
  revert j. induction l as [|y l IH]; intros j; simpl; [done|].
  destruct (P j y) eqn:E; [done|]. intros Hf [|n] x Hl; simplify_eq/=.
  - by rewrite Nat.add_0_r.
  - replace (j + S n)%nat with (S j + n)%nat by lia. by eapply IH.
Qed.

Lemma is_version_user_true (a : nat) (v : Z) (j : nat) (x : Message) :
  is_version_user a v j x = true ↔ (a < j)%nat ∧ version_user a v x.
Proof.
  unfold is_version_user, tagged, version_user.
  rewrite !andb_true_iff, !bool_decide_eq_true. tauto.
Qed.

Lemma tagged_true (a : nat) (v : Z) (x : Message) :
  tagged a v x = true ↔ branch_of x = Some a ∧ branch_version x = Some v.
Proof. unfold tagged. by rewrite andb_true_iff, !bool_decide_eq_true. Qed.

(** What the anchor step's search returns. *)
Lemma skip_of_Some (hist : list Message) (b : BranchState) (v : nat) :
  skip_of hist b = Some v →
  active b ≠ 1 ∧ (anchor b < v)%nat
  ∧ ∃ x, hist !! v = Some x ∧ version_user (anchor b) (active b) x
  ∧ ∀ j y, (anchor b < j < v)%nat → hist !! j = Some y →
           ¬ version_user (anchor b) (active b) y.
Proof.
  unfold skip_of, findIndex. case_decide; [done|]. intros Hf.
  destruct (findIndex_from_Some _ _ _ _ Hf) as (n & x & -> & Hl & HP & Hmin).
  simpl in *. apply is_version_user_true in HP as [Hlt Hvu].
  split_and!; [done..|]. exists x. split_and!; [done..|].
  intros j y Hj Hl' Hvu'. specialize (Hmin j y ltac:(lia) Hl'). simpl in Hmin.
  assert (is_version_user (anchor b) (active b) j y = true)
    by (apply is_version_user_true; split; [lia|done]).
  congruence.
Qed.

Lemma skip_of_None (hist : list Message) (b : BranchState) :
  skip_of hist b = None → active b ≠ 1 →
  ∀ j y, (anchor b < j)%nat → hist !! j = Some y →
         ¬ version_user (anchor b) (active b) y.
Proof.
  unfold skip_of, findIndex. case_decide; [done|]. intros Hf _ j y Hj Hl Hvu.
  pose proof (findIndex_from_None _ _ _ Hf j y Hl) as Hn. simpl in Hn.
  assert (is_version_user (anchor b) (active b) j y = true)
    by (by apply is_version_user_true).
  congruence.
Qed.

(** The loop equals the per-index collection, whatever part of the history
    is left, as long as [skipIdx] holds what the loop has put there. *)
Lemma renderLoop_collect (hist : list Message) (b : BranchState)
    (rest : list Message) (i : nat) (s : option nat) :
  (if decide (i ≤ anchor b)%nat then s = None else s = skip_of hist b) →
  renderLoop hist (Some b) rest i s = collect (render_at hist b) rest i.
Proof.
  revert i s. induction rest as [|m rest IH]; intros i s Hs; [done|].
  cbn [renderLoop collect]. unfold render_at at 1.
  destruct (decide (i < anchor b)%nat) as [Hlt|Hlt].
  { simpl. f_equal. apply IH. rewrite decide_True in Hs by lia.
    by rewrite decide_True by lia. }
  destruct (decide (i = anchor b)) as [Heq|Hne].
  { rewrite decide_True in Hs by lia. subst i s. unfold skip_of.
    destruct (decide (active b = 1)) as [H1|H1]; simpl.
    - f_equal. apply IH. rewrite decide_False by lia.
      unfold skip_of. by rewrite decide_True.
    - destruct (findIndex _ hist) as [v|] eqn:Hf; simpl.
      + assert (Hsk : skip_of hist b = Some v)
          by (unfold skip_of; by rewrite decide_False).
        destruct (skip_of_Some _ _ _ Hsk) as (_ & _ & x & Hx & _).
        rewrite Hx. simpl. f_equal. apply IH. by rewrite decide_False by lia.
      + f_equal. apply IH. rewrite decide_False by lia.
        unfold skip_of. by rewrite decide_False. }
  rewrite decide_False in Hs by lia. subst s.
  destruct (decide (active b = 1)) as [H1|H1].
  { destruct (decide (branch_of m = Some (anchor b))); simpl;
      [|f_equal]; apply IH; by rewrite decide_False by lia. }
  destruct (decide (skip_of hist b = Some i)).
  { simpl. apply IH. by rewrite decide_False by lia. }
  destruct (tagged (anchor b) (active b) m); simpl;
    [f_equal|]; apply IH; by rewrite decide_False by lia.
Qed.

Lemma elem_of_collect {A B} (f : nat → A → list B) (l : list A) (i : nat) y :
  y ∈ collect f l i ↔ ∃ n x, l !! n = Some x ∧ y ∈ f (i + n)%nat x.
Proof.
  revert i. induction l as [|x l IH]; intros i; simpl.
  { split; [by intros ?%elem_of_nil|by intros (n & x & ? & _)]. }
  rewrite elem_of_app, IH. split.
  - intros [H|(n & x' & Hl & H)].
    + exists 0%nat, x. by rewrite Nat.add_0_r.
    + exists (S n), x'. by replace (i + S n)%nat with (S i + n)%nat by lia.
  - intros ([|n] & x' & Hl & H).
    + left. rewrite Nat.add_0_r in H. by simplify_eq/=.
    + right. exists n, x'. rewrite Nat.add_succ_r in H. done.
Qed.

Lemma NoDup_collect {A B C} (g : B → C) (f : nat → A → list B)
    (l : list A) (i : nat) :
  (∀ n x, l !! n = Some x → NoDup (g <$> f (i + n)%nat x)) →
  (∀ n1 n2 x1 x2 y1 y2, l !! n1 = Some x1 → l !! n2 = Some x2 →
     y1 ∈ f (i + n1)%nat x1 → y2 ∈ f (i + n2)%nat x2 → g y1 = g y2 → n1 = n2) →
  NoDup (g <$> collect f l i).
Proof.
  revert i. induction l as [|x l IH]; intros i Hnd Hdis; simpl; [constructor|].
  rewrite fmap_app. apply NoDup_app. split_and!.
  - specialize (Hnd 0%nat x eq_refl). by rewrite Nat.add_0_r in Hnd.
  - intros c (y1 & -> & Hy1)%list_elem_of_fmap (y2 & Heq & Hy2)%list_elem_of_fmap.
    apply elem_of_collect in Hy2 as (n & x' & Hl & Hy2).
    assert (0 = S n)%nat; [|done].
    eapply (Hdis 0%nat (S n) x x' y1 y2); [done|done| | |done].
    + by rewrite Nat.add_0_r.
    + by replace (i + S n)%nat with (S i + n)%nat by lia.
  - apply IH.
    + intros n x' Hl. specialize (Hnd (S n) x' Hl).
      by replace (i + S n)%nat with (S i + n)%nat in Hnd by lia.
    + intros n1 n2 x1 x2 y1 y2 Hl1 Hl2 Hy1 Hy2 Hg.
      assert (S n1 = S n2); [|lia].
      eapply (Hdis (S n1) (S n2) x1 x2 y1 y2); [done|done| | |done].
      * by replace (i + S n1)%nat with (S i + n1)%nat by lia.
      * by replace (i + S n2)%nat with (S i + n2)%nat by lia.
Qed.

Lemma filter_collect {A B} (P : B → Prop) `{!∀ y, Decision (P y)}
    (f : nat → A → list B) (l : list A) (i : nat) :
  filter P (collect f l i) = collect (λ n x, filter P (f n x)) l i.
Proof.
  revert i. induction l as [|x l IH]; intros i; simpl; [done|].
  by rewrite filter_app, IH.
Qed.

Lemma collect_only_at {A B} (f : nat → A → list B) (l : list A) (i k : nat) x :
  l !! k = Some x →
  (∀ n y, l !! n = Some y → n ≠ k → f (i + n)%nat y = []) →
  collect f l i = f (i + k)%nat x.
Proof.
  revert i k. induction l as [|y l IH]; intros i k Hl Hnil; [done|]. simpl.
  destruct k as [|k]; simplify_eq/=.
  - rewrite Nat.add_0_r.
    assert (collect f l (S i) = []) as ->; [|by rewrite app_nil_r].
    clear IH. assert (H : ∀ n y, l !! n = Some y → f (S i + n)%nat y = []).
    { intros n y Hy. replace (S i + n)%nat with (i + S n)%nat by lia.
      by apply (Hnil (S n) y). }
    clear Hnil. revert H. generalize (S i). induction l as [|z l IH];
      intros j H; [done|]. simpl.
    rewrite <-(Nat.add_0_r j) at 1. rewrite (H 0%nat z eq_refl). simpl.
    apply IH. intros n y Hy. replace (S j + n)%nat with (j + S n)%nat by lia.
    by apply (H (S n) y).
  - rewrite <-(Nat.add_0_r i) at 1. rewrite (Hnil 0%nat y eq_refl) by done.
    simpl. replace (i + S k)%nat with (S i + k)%nat by lia.
    apply IH; [done|]. intros n z Hz Hn.
    replace (S i + n)%nat with (i + S n)%nat by lia. apply (Hnil (S n) z Hz). lia.
Qed.

Lemma renderChat_collect (c : Chat) (b : BranchState) :
  branch c = Some b →
  renderChat (Some c) = collect (render_at (history c) b) (history c) 0.
Proof.
  intros Hb. unfold renderChat. simpl. rewrite Hb.
  apply renderLoop_collect. by rewrite decide_True by lia.
Qed.

(** Under which index an emitted entry is rendered. *)
Lemma render_at_idx (hist : list Message) (b : BranchState) n x y :
  y ∈ render_at hist b n x →
  (r_idx y = n ∧ skip_of hist b ≠ Some n)
  ∨ (n = anchor b ∧ skip_of hist b = Some (r_idx y)).
Proof.
  unfold render_at. intros Hy.
  assert (Hlow : (n ≤ anchor b)%nat → skip_of hist b ≠ Some n).
  { intros Hn Hsk. apply skip_of_Some in Hsk as (_ & ? & _). lia. }
  destruct (decide (n < anchor b)%nat).
  { apply list_elem_of_singleton in Hy as ->. left. split; [done|]. apply Hlow. lia. }
  destruct (decide (n = anchor b)) as [->|].
  { destruct (skip_of hist b) as [v|] eqn:Hsk; simpl in Hy.
    - destruct (hist !! v) as [v2|] eqn:Hv; simpl in Hy;
        apply list_elem_of_singleton in Hy as ->; simpl.
      + by right.
      + left. split; [done|]. apply Hlow. lia.
    - apply list_elem_of_singleton in Hy as ->. by left. }
  destruct (decide (active b = 1)) as [H1|H1].
  { destruct (decide (branch_of x = Some (anchor b))); [by apply elem_of_nil in Hy|].
    apply list_elem_of_singleton in Hy as ->. left. split; [done|].
    unfold skip_of. by rewrite decide_True. }
  destruct (decide (skip_of hist b = Some n)); [by apply elem_of_nil in Hy|].
  destruct (tagged _ _ x); [|by apply elem_of_nil in Hy].
  apply list_elem_of_singleton in Hy as ->. by left.
Qed.

(** Every emitted entry shows the message stored under its index. *)
Lemma render_at_shows (hist : list Message) (b : BranchState) n x y :
  hist !! n = Some x → y ∈ render_at hist b n x →
  ∃ x', hist !! r_idx y = Some x'
        ∧ r_content y = content x' ∧ r_role y = role x'.
Proof.
  unfold render_at. intros Hn Hy.
  destruct (decide (n < anchor b)%nat).
  { apply list_elem_of_singleton in Hy as ->. by exists x. }
  destruct (decide (n = anchor b)) as [->|].
  { destruct (skip_of hist b) as [v|] eqn:Hsk; simpl in Hy.
    - destruct (hist !! v) as [v2|] eqn:Hv; simpl in Hy;
        apply list_elem_of_singleton in Hy as ->; simpl; by eexists.
    - apply list_elem_of_singleton in Hy as ->. by exists x. }
  destruct (decide (active b = 1)).
  { destruct (decide (branch_of x = Some (anchor b))); [by apply elem_of_nil in Hy|].
    apply list_elem_of_singleton in Hy as ->. by exists x. }
  destruct (decide (skip_of hist b = Some n)); [by apply elem_of_nil in Hy|].
  destruct (tagged _ _ x); [|by apply elem_of_nil in Hy].
  apply list_elem_of_singleton in Hy as ->. by exists x.
Qed.

Lemma render_at_length (hist : list Message) (b : BranchState) n x :
  (length (render_at hist b n x) ≤ 1)%nat.
Proof.
  unfold render_at.
  repeat first [case_decide | case_match]; simpl; lia.
Qed.

(** The anchor slot of the view is what the anchor step emitted. *)
Lemma anchor_slots_render (c : Chat) (b : BranchState) (m : Message) :
  branch c = Some b → history c !! anchor b = Some m →
  anchor_slots (renderChat (Some c)) = render_at (history c) b (anchor b) m.
Proof.
  intros Hb Hm. unfold anchor_slots.
  rewrite (renderChat_collect c b Hb), filter_collect.
  rewrite (collect_only_at _ _ 0 (anchor b) m Hm); simpl.
  - unfold render_at. rewrite decide_False by lia. rewrite decide_True by done.
    by repeat case_match.
  - intros n y Hy Hn. unfold render_at.
    destruct (decide (n < anchor b)%nat); [done|].
    rewrite decide_False by done.
    assert (r_isAnchor (add_plain (Some b) y n) ≠ true) as Hna.
    { unfold add_plain; simpl. by rewrite bool_decide_eq_false_2. }
    repeat first [case_decide | case_match]; try done;
      by rewrite filter_cons_False.
Qed.

(** C1. For every chat history and branch state [{anchor, active, total}]
    (with [active] a version number, [active >= 1]) the reconstructed view
    shows the message at an index [i > anchor] iff either [active = 1] and the
    message is not tagged with this [branch_of], or [active > 1] and the
    message has [branch_of = anchor] and [branch_version = active].  When
    [active > 1] the anchor slot is rendered from the unique later user
    message of that version (from the anchor's own content when there is
    none).  Exactly one entry is rendered as the anchor slot, every rendered
    entry shows the message stored under its index, and no index is rendered
    twice: the substituted message does not reappear at its own slot. *)
Theorem renderChat_branch_view (c : Chat) (b : BranchState) :
  branch c = Some b →
  1 ≤ active b →
  let out := renderChat (Some c) in
  let hist := history c in
  let a := anchor b in
  (∀ i m, (a < i)%nat → hist !! i = Some m →
     (∃ r, r ∈ out ∧ r_idx r = i) ↔
     (active b = 1 ∧ branch_of m ≠ Some a)
     ∨ (1 < active b ∧ branch_of m = Some a
        ∧ branch_version m = Some (active b)))
  ∧ (∀ m, hist !! a = Some m → 1 < active b →
       (∀ j y, (a < j)%nat → hist !! j = Some y →
          version_user a (active b) y →
          (∀ j' y', (a < j')%nat → hist !! j' = Some y' →
                    version_user a (active b) y' → j' = j) →
          anchor_slots out = [add_anchor b y j m])
       ∧ ((∀ j y, (a < j)%nat → hist !! j = Some y →
                  ¬ version_user a (active b) y) →
          anchor_slots out = [add_anchor b m a m]))
  ∧ (∀ m, hist !! a = Some m → ∃ r, anchor_slots out = [r])
  ∧ (∀ r, r ∈ out → ∃ x, hist !! r_idx r = Some x
                         ∧ r_content r = content x ∧ r_role r = role x)
  ∧ NoDup (r_idx <$> out).
Proof.
  intros Hb Hact out hist a.
  assert (Hout : out = collect (render_at hist b) hist 0)
    by (by apply renderChat_collect).
  split_and!.
  - intros i m Hi Hm. rewrite Hout. split.
    + intros (r & Hr & Hidx). apply elem_of_collect in Hr as (n & x & Hn & Hr).
      simpl in Hr. destruct (render_at_idx _ _ _ _ _ Hr) as [[E Hsk]|[-> Hsk]].
      * rewrite Hidx in E. subst n. assert (x = m) as -> by congruence.
        unfold render_at in Hr. fold a in Hr.
        rewrite decide_False in Hr by lia. rewrite decide_False in Hr by lia.
        destruct (decide (active b = 1)).
        -- left. split; [done|].
           by destruct (decide (branch_of m = Some a)); [apply elem_of_nil in Hr|].
        -- right. rewrite decide_False in Hr by done.
           destruct (tagged a (active b) m) eqn:Ht; [|by apply elem_of_nil in Hr].
           apply tagged_true in Ht as [??]. split_and!; [lia|done..].
      * rewrite Hidx in Hsk.
        apply skip_of_Some in Hsk as (? & _ & x' & Hx' & (_ & ? & ?) & _).
        right. assert (x' = m) as -> by (unfold hist in *; congruence).
        split_and!; [lia|done..].
    + intros Hcond.
      destruct (decide (skip_of hist b = Some i)) as [Hsk|Hsk].
      * destruct (lookup_lt_is_Some_2 hist a) as [ma Hma].
        { apply lookup_lt_Some in Hm. lia. }
        exists (add_anchor b m i ma). split; [|done].
        apply elem_of_collect. exists a, ma. split; [done|]. simpl.
        unfold render_at. fold a. rewrite decide_False by lia.
        rewrite decide_True by done. rewrite Hsk. simpl. rewrite Hm. simpl.
        apply list_elem_of_singleton. done.
      * exists (add_plain (Some b) m i). split; [|done].
        apply elem_of_collect. exists i, m. split; [done|]. simpl.
        unfold render_at. fold a. rewrite decide_False by lia.
        rewrite decide_False by lia.
        destruct Hcond as [[H1 Hnt]|(H1 & Hbo & Hbv)].
        -- rewrite decide_True by done. rewrite decide_False by done.
           by apply list_elem_of_singleton.
        -- rewrite decide_False by lia. rewrite decide_False by done.
           assert (tagged a (active b) m = true) as -> by (by apply tagged_true).
           by apply list_elem_of_singleton.
  - intros m Hm H1. unfold out. rewrite (anchor_slots_render c b m Hb Hm).
    unfold render_at. fold a hist. rewrite decide_False by lia.
    rewrite decide_True by done. split.
    + intros j y Hj Hy Hvu Huniq.
      destruct (skip_of hist b) as [v|] eqn:Hsk; simpl.
      * apply skip_of_Some in Hsk as (_ & Hv & x & Hx & Hvx & _).
        assert (v = j) as -> by (by eapply Huniq).
        rewrite Hx. simpl. unfold hist in *. by simplify_eq.
      * exfalso. eapply (skip_of_None hist b Hsk); [lia|done..].
    + intros Hnone. destruct (skip_of hist b) as [v|] eqn:Hsk; simpl; [|done].
      apply skip_of_Some in Hsk as (_ & Hv & x & Hx & Hvx & _).
      exfalso. by eapply Hnone.
  - intros m Hm. unfold out. rewrite (anchor_slots_render c b m Hb Hm).
    unfold render_at. fold a hist. rewrite decide_False by lia.
    rewrite decide_True by done. repeat case_match; by eexists.
  - intros r Hr. rewrite Hout in Hr.
    apply elem_of_collect in Hr as (n & x & Hn & Hr).
    by eapply render_at_shows.
  - rewrite Hout. apply NoDup_collect.
    + intros n x _. simpl. pose proof (render_at_length hist b n x).
      destruct (render_at hist b n x) as [|? [|]]; simpl in *; try lia;
        [constructor|apply NoDup_singleton].
    + intros n1 n2 x1 x2 y1 y2 _ _ Hy1 Hy2 Hg. simpl in *.
      destruct (render_at_idx _ _ _ _ _ Hy1) as [[E1 S1]|[-> S1]],
               (render_at_idx _ _ _ _ _ Hy2) as [[E2 S2]|[-> S2]];
        try congruence.
Qed.

Lemma renderChat_branch_view_witness :
  anchor_slots (renderChat (Some scenario_chat1))
  = [add_anchor (mkBranch 2 2 2) (newUser (str "What is 3+3?") 5 2 2) 3
       (plain_message User (str "What is 2+2?") 3)]
  ∧ NoDup (r_idx <$> renderChat (Some scenario_chat1)).
Proof.
  pose proof (renderChat_branch_view scenario_chat1 (mkBranch 2 2 2)
                eq_refl ltac:(simpl; lia)) as (_ & H2 & _ & _ & H5).
  split; [|exact H5].
  refine (proj1 (H2 _ eq_refl ltac:(simpl; lia)) 3%nat _ ltac:(simpl; lia)
            eq_refl _ _).
  - by split_and!.
  - intros j' y' Hj Hl (_ & _ & Hv).
    destruct j' as [|[|[|[|[|j']]]]]; simplify_eq/=; done.
Defined.

End Render.

Section RequestArbiter.

(** A parsed response is applied only when its tag is the current counter
    value; a staler one leaves the state as it is. *)
Lemma resume_json_stale (reqId : Z) data modelValue (st : Arbiter) :
  reqId ≠ _mvReqSeq st →
  loadModelVersions_resume reqId (Json data) modelValue st = st.
Proof. intros H. simpl. by rewrite decide_True. Qed.

Lemma resume_json_current data modelValue (st : Arbiter) :
  versionSel (loadModelVersions_resume (_mvReqSeq st) (Json data) modelValue st)
  = options_for data modelValue.
Proof. simpl. by rewrite decide_False by (intros H; by apply H). Qed.

(** X1. Refresh #1 and #2 are dispatched and #1's response arrives after
    #2's: when both bodies parse, the late response #1 is dropped and the
    dropdown is what #2's response wrote. *)
Theorem two_refreshes_json d1 d2 modelValue (st : Arbiter) :
  versionSel (two_refreshes (Json d1) (Json d2) modelValue st)
  = options_for d2 modelValue.
Proof.
  unfold two_refreshes. simpl.
  destruct (decide (_mvReqSeq st + 1 + 1 ≠ _mvReqSeq st + 1 + 1)); [done|].
  simpl. rewrite decide_True by lia. done.
Qed.

(** C7, the failing case. Refresh #1's request comes back after #2's with a
    body that is not JSON (or fails): the [catch] resets the dropdown to
    ["latest"] alone without looking at the sequence tag, so the options
    #2's response wrote are lost, for every state and every #2 response. *)
Theorem stale_rejection_resets_dropdown data2 modelValue (st : Arbiter) :
  let '(id1, st1) := loadModelVersions_issue st in
  let '(id2, st2) := loadModelVersions_issue st1 in
  let st3 := loadModelVersions_resume id2 (Json data2) modelValue st2 in
  id1 ≠ _mvReqSeq st3
  ∧ versionSel st3 = options_for data2 modelValue
  ∧ versionSel (loadModelVersions_resume id1 Rejects modelValue st3)
    = [latest_option]
  ∧ versionSel (two_refreshes Rejects (Json grok_versions) (str "grok")
                  (mkArbiter 0 [latest_option]))
    ≠ options_for grok_versions (str "grok").
Proof.
  simpl.
  destruct (decide (_mvReqSeq st + 1 + 1 ≠ _mvReqSeq st + 1 + 1)); [done|].
  simpl. split_and!; [lia|done|done|discriminate].
Qed.

End RequestArbiter.

Section Streaming.

Lemma list_find_insert_same {A} (P : A → Prop) `{!∀ x, Decision (P x)}
    (l : list A) (i : nat) (y z : A) :
  list_find P l = Some (i, y) → P z →
  list_find P (<[i := z]> l) = Some (i, z).
Proof.
  intros (Hl & _ & Hmin)%list_find_Some Hz. apply list_find_Some. split_and!.
  - apply list_lookup_insert_eq. by eapply lookup_lt_Some.
  - done.
  - intros j w Hj Hlt. rewrite list_lookup_insert_ne in Hj by lia.
    by eapply Hmin.
Qed.

Lemma stored_updateChat (c0 c : Chat) (x : Storage) :
  stored c0 x → id c = id c0 → stored c (updateChat c x).
Proof.
  intros [i Hf] Hid. unfold stored, updateChat, findIndex_id.
  rewrite Hid, Hf. simpl. exists i. rewrite <-Hid.
  eapply list_find_insert_same; [|done]. by rewrite Hid.
Qed.

Lemma getChat_stored (c : Chat) (x : Storage) :
  stored c x → is_Some (stats c) → getChat (Some (id c)) x = (Some c, x).
Proof.
  intros [i Hf] [s0 Hs]. unfold getChat. rewrite Hf. simpl. by rewrite Hs.
Qed.

Lemma current_chat_stored (c : Chat) (st : App) :
  currentId st = Some (id c) → stored c (ls st) → current_chat st = Some c.
Proof.
  intros Hk [i Hf]. unfold current_chat. rewrite Hk. simpl. by rewrite Hf.
Qed.

Lemma chat_or_create_stored (e : SendEnv) (st : App) :
  stored (chat_or_create e st).1 (chat_or_create e st).2
  ∧ is_Some (stats (chat_or_create e st).1).
Proof.
  unfold chat_or_create.
  assert (Hnew : ∀ x, let r := createChat (fresh_id e) (str "New chat")
                                  (model_value e) x in
                      stored r.1 r.2 ∧ is_Some (stats r.1)).
  { intros x. simpl. split; [|by eexists]. exists 0%nat. simpl.
    by rewrite decide_True. }
  unfold getChat. destruct (currentId st) as [k|]; [|apply Hnew].
  destruct (list_find _ (loadAll (ls st))) as [[i ch]|] eqn:Hf; simpl;
    [|apply Hnew].
  pose proof Hf as (_ & Hid & _)%list_find_Some. subst k.
  destruct (stats ch) eqn:Hs; simpl.
  - split; [by exists i|by rewrite Hs].
  - split; [|by eexists]. apply (stored_updateChat ch); [by exists i|done].
Qed.

(** A streamed send that passes the guard: where the two messages go and
    what the new session looks like. *)
Lemma sendSSE_started (e : SendEnv) (q : jsstring) (st : App) :
  GAIA_BUSY st = false →
  let c := (chat_or_create e st).1 in
  let h := history c ++ [plain_message User q (t_user e);
                         plain_message Assistant [] (t_ai e)] in
  let st' := sendSSE e q st in
  ∃ c', stored c' (ls st') ∧ id c' = id c ∧ stats c' = stats c
    ∧ history c' = h
    ∧ currentId st' = Some (id c) ∧ GAIA_BUSY st' = true
    ∧ currentSSE st' = Some (length (sessions st))
    ∧ requests st' = requests st ∧ GAIA_ABORT st' = GAIA_ABORT st
    ∧ sessions st' = sessions st ++
        [mkSession (S (length (history c))) (length (history c)) true false []
           (if has_bubble e then Some THINKING else None) 0].
Proof.
  intros Hbusy c h st'. unfold st', sendSSE. rewrite Hbusy.
  destruct (chat_or_create_stored e st) as [Hst Hstats].
  fold c in Hst, Hstats.
  destruct (chat_or_create e st) as [c0 x0] eqn:Hc. simpl in *. subst c.
  set (c1 := set_history (history c0 ++ [plain_message User q (t_user e)]) c0).
  set (c2 := set_history (history c1 ++ [plain_message Assistant [] (t_ai e)]) c1).
  exists c2. split_and!; try done.
  - apply (stored_updateChat c1); [|done].
    by apply (stored_updateChat c0).
  - unfold h. simpl. by rewrite <-app_assoc.
  - simpl. by rewrite length_app, Nat.add_comm.
Qed.

Lemma sendSSE_streaming (e : SendEnv) (q : jsstring) (st : App) :
  GAIA_BUSY st = false →
  streaming (length (sessions st)) (has_bubble e) (sendSSE e q st)
  ∧ buffer (length (sessions st)) (sendSSE e q st) = Some [].
Proof.
  intros Hbusy.
  destruct (sendSSE_started e q st Hbusy)
    as (c' & Hst & Hid & Hstats & Hh & Hcur & Hb & Hsse & _ & _ & Hss).
  unfold buffer. rewrite Hss, lookup_app_r, Nat.sub_diag by lia. simpl.
  split; [|done].
  eexists _, c', (plain_message Assistant [] (t_ai e)).
  rewrite Hss, lookup_app_r, Nat.sub_diag by lia. simpl.
  split_and!; try done.
  - by rewrite Hid.
  - rewrite Hstats. apply chat_or_create_stored.
  - simpl. rewrite Hh. rewrite lookup_app_r by lia.
    by rewrite Nat.sub_succ_l, Nat.sub_diag by lia.
Qed.

Lemma fragments_cons (ev : StreamEvent) (evs : list StreamEvent) :
  fragments (ev :: evs) = fragments [ev] ++ fragments evs.
Proof.
  destruct ev as [| [t|] | | |]; simpl; try done. by rewrite app_nil_r.
Qed.

Lemma fragments_app (evs1 evs2 : list StreamEvent) :
  fragments (evs1 ++ evs2) = fragments evs1 ++ fragments evs2.
Proof.
  induction evs1 as [|ev evs1 IH]; [done|].
  rewrite <-app_comm_cons, (fragments_cons ev (evs1 ++ evs2)), IH.
  by rewrite (fragments_cons ev evs1), app_assoc.
Qed.

Lemma truthy_app_r (a b : jsstring) : truthy b = true → truthy (a ++ b) = true.
Proof. by destruct a, b. Qed.

Lemma not_truthy (a : jsstring) : truthy a = false → a = [].
Proof. by destruct a. Qed.

(** A non-terminal event keeps the session streaming and appends its
    fragment, if it carries one, to the buffer. *)
Lemma deliver_streaming sid bubble (ev : StreamEvent) (now : Z) (st : App) :
  streaming sid bubble st → non_terminal ev →
  streaming sid bubble (deliver sid ev now st)
  ∧ buffer sid (deliver sid ev now st)
    = (λ t, t ++ fragments [ev]) <$> buffer sid st.
Proof.
  intros Hstr Hev. destruct_streaming Hstr.
  assert (Hsame : streaming sid bubble st) by (by eexists s, c, m).
  assert (Hbuf : (λ t, t ++ []) <$> buffer sid st = buffer sid st).
  { unfold buffer. rewrite Hs. simpl. by rewrite app_nil_r. }
  unfold deliver. rewrite Hs, Ho.
  destruct ev as [[nm|] | [text|] | | |]; try done; simpl.
  - rewrite Hk, (getChat_stored c _ Hst Hstats), Hm.
    set (m' := set_meta (mkMeta (Some nm) (meta m ≫= meta_usage)) m).
    set (c' := set_history (<[s_aiIdx s := m']> (history c)) c).
    split; [|done].
    exists s, c', m'. split_and!; try done.
    + simpl. by eapply stored_updateChat.
    + simpl. apply list_lookup_insert_eq. by eapply lookup_lt_Some.
  - destruct (truthy text) eqn:Htxt.
    + assert (Hlt : (sid < length (sessions st))%nat) by (by eapply lookup_lt_Some).
      split.
      * eexists _, c, m. simpl. rewrite list_lookup_insert_eq by done.
        split_and!; try done. simpl. rewrite Ht. unfold target_of. simpl.
        destruct bubble; [|done]. by rewrite truthy_app_r.
      * unfold buffer. simpl. rewrite list_lookup_insert_eq by done.
        rewrite Hs. simpl. by rewrite app_nil_r.
    + apply not_truthy in Htxt as ->. done.
Qed.

Lemma deliver_all_streaming sid bubble (evs : list StreamEvent) (now : Z)
    (st : App) :
  streaming sid bubble st → Forall non_terminal evs →
  streaming sid bubble (deliver_all sid evs now st)
  ∧ buffer sid (deliver_all sid evs now st)
    = (λ t, t ++ fragments evs) <$> buffer sid st.
Proof.
  revert now st. induction evs as [|ev evs IH]; intros now st Hst Hall.
  { split; [done|]. destruct Hst as (s & _ & _ & Hs & _).
    unfold buffer. simpl. rewrite Hs. simpl. by rewrite app_nil_r. }
  apply Forall_cons in Hall as [Hev Hall].
  destruct (deliver_streaming sid bubble ev now st Hst Hev) as [Hst1 Hb1].
  destruct (IH (now + 1) _ Hst1 Hall) as [Hst2 Hb2].
  split; [done|]. cbn [deliver_all]. rewrite Hb2, Hb1.
  destruct (buffer sid st) as [t|]; [|done].
  change (Some ((t ++ fragments [ev]) ++ fragments evs)
          = Some (t ++ fragments (ev :: evs))).
  by rewrite (fragments_cons ev evs), app_assoc.
Qed.








(** X2. [finish] is guarded by the [closed] flag: in every state, a second
    call for the same session, with whatever arguments, changes nothing. *)
Theorem finish_idempotent (ok ok' : bool) (t t' : Z) (sid : nat) (st : App) :
  finish ok' t' sid (finish ok t sid st) = finish ok t sid st.
Proof.
  unfold finish at 2 3.
  destruct (sessions st !! sid) as [s|] eqn:Hs.
  - destruct (closed s) eqn:Hc.
    + unfold finish. by rewrite Hs, Hc.
    + destruct (getChat (currentId st) (ls st)) as [c x0].
      unfold finish. simpl.
      by rewrite list_lookup_insert_eq by (by eapply lookup_lt_Some).
  - unfold finish. by rewrite Hs.
Qed.

Lemma trimStart_split (s : jsstring) :
  ∃ l, s = l ++ trimStart s ∧ blank l
       ∧ ∀ c, head (trimStart s) = Some c → is_whitespace c = false.
Proof.
  induction s as [|c s (l & Hs & Hl & Hh)]; simpl.
  { exists []. split_and!; [done|constructor|done]. }
  destruct (is_whitespace c) eqn:Hc.
  - exists (c :: l). split_and!; [by rewrite Hs at 1|by constructor|done].
  - exists []. split_and!; [done|constructor|]. by intros ? [= <-].
Qed.

Lemma trimStart_blank (s : jsstring) : blank s → trimStart s = [].
Proof. induction 1 as [|c s Hc _ IH]; simpl; [done|by rewrite Hc]. Qed.

Lemma trimStart_head (s : jsstring) (c : N) :
  head s = Some c → is_whitespace c = false → trimStart s = s.
Proof. destruct s; simpl; [done|]. by intros [= ->] ->. Qed.

Lemma trimEnd_split (s : jsstring) :
  ∃ r, s = trimEnd s ++ r ∧ blank r
       ∧ ∀ c, last (trimEnd s) = Some c → is_whitespace c = false.
Proof.
  unfold trimEnd. destruct (trimStart_split (reverse s)) as (l & Hs & Hl & Hh).
  exists (reverse l). split_and!.
  - rewrite <-reverse_app, <-Hs. by rewrite reverse_involutive.
  - by apply Forall_reverse.
  - intros c. rewrite last_reverse. apply Hh.
Qed.

(** What [trim] leaves: the string between its leading and trailing
    whitespace. *)
Lemma trim_split (s : jsstring) :
  ∃ l r, s = l ++ trim s ++ r ∧ blank l ∧ blank r
    ∧ (∀ c, head (trim s) = Some c → is_whitespace c = false)
    ∧ (∀ c, last (trim s) = Some c → is_whitespace c = false).
Proof.
  unfold trim. destruct (trimStart_split s) as (l & Hs & Hl & Hh).
  destruct (trimEnd_split (trimStart s)) as (r & Ht & Hr & Hlast).
  exists l, r. split_and!; [by rewrite <-Ht|done..| |done].
  intros c Hc. apply Hh. rewrite Ht.
  destruct (trimEnd (trimStart s)); simpl in *; done.
Qed.

Lemma trim_blank (s : jsstring) : trim s = [] ↔ blank s.
Proof.
  split.
  - intros H. destruct (trim_split s) as (l & r & Hs & Hl & Hr & _).
    rewrite H in Hs. rewrite Hs. simpl. by apply Forall_app.
  - intros H. unfold trim. by rewrite (trimStart_blank s H).
Qed.

(** *** One session, from its start

    A streamed send that starts (the busy flag is clear), followed by
    non-terminal events [evs] of its feed. *)
Section AfterSend.

Context (e : SendEnv) (q : jsstring) (st : App)
        (evs : list StreamEvent) (now : Z).
Hypothesis Hbusy : GAIA_BUSY st = false.
Hypothesis Hevs : Forall non_terminal evs.

Let sid : nat := length (sessions st).
Let st1 : App := deliver_all sid evs now (sendSSE e q st).

Lemma after_send_streaming :
  streaming sid (has_bubble e) st1 ∧ buffer sid st1 = Some (fragments evs).
Proof.
  destruct (sendSSE_streaming e q st Hbusy) as [Hst0 Hb0].
  destruct (deliver_all_streaming sid _ evs now _ Hst0 Hevs) as [Hst1 Hb1].
  split; [done|]. unfold st1. rewrite Hb1. fold sid in Hb0. by rewrite Hb0.
Qed.



(** C2, the failing case. The stop button closes the feed of the session in
    [currentSSE] and clears the handle, but does not call [finish]: the
    finalize-and-persist step has not run, the reply slot is still the empty
    placeholder (neither the buffer nor a "stopped" sentinel), the busy flag
    stays set, and since a closed feed delivers nothing, no later event runs
    it either. *)
Theorem stop_skips_finalize :
  let st2 := stop_click st1 in
  buffer sid st2 = Some (fragments evs)
  ∧ es_open <$> sessions st2 !! sid = Some false
  ∧ finalized <$> sessions st2 !! sid = Some 0%nat
  ∧ persisted sid st2 = Some []
  ∧ GAIA_BUSY st2 = true
  ∧ currentSSE st2 = None
  ∧ (∀ ev t, deliver sid ev t st2 = st2).
Proof.
  intros st2. destruct after_send_streaming as [Hst1 Hb1].
  destruct_streaming Hst1.
  unfold buffer in Hb1. rewrite Hs in Hb1. simpl in Hb1.
  injection Hb1 as Hbuf.
  assert (Hst2 : st2 = mkApp (ls st1) (currentId st1) (GAIA_BUSY st1)
                         (GAIA_ABORT st1) None
                         (alter close_es sid (sessions st1))
                         (abort_current st1)).
  { unfold st2, stop_click. by rewrite Hsse. }
  assert (Hsid : sessions st2 !! sid = Some (close_es s)).
  { rewrite Hst2. simpl. by rewrite list_lookup_alter_eq, Hs. }
  unfold buffer, persisted. rewrite Hsid. simpl.
  split_and!; try done.
  - by rewrite Hbuf.
  - by rewrite Hf.
  - rewrite (current_chat_stored c st2) by (by rewrite Hst2).
    simpl. rewrite Hm. simpl. by rewrite Hcont.
  - by rewrite Hst2.
  - by rewrite Hst2.
  - intros ev t. unfold deliver. by rewrite Hsid.
Qed.

End AfterSend.




Lemma stop_skips_finalize_witness :
  let st2 := stop_click
               (deliver_all 0 [EvDelta (Some (str "Hel"))] 5
                  (sendSSE env1 (str "hi") (initial_app None))) in
  buffer 0 st2 = Some (str "Hel")
  ∧ finalized <$> sessions st2 !! 0%nat = Some 0%nat
  ∧ persisted 0 st2 = Some []
  ∧ GAIA_BUSY st2 = true.
Proof.
  pose proof (stop_skips_finalize env1 (str "hi") (initial_app None)
                [EvDelta (Some (str "Hel"))] 5 eq_refl
                ltac:(by repeat constructor)) as (H1 & _ & H3 & H4 & H5 & _).
  by split_and!.
Defined.

End Streaming.

(* ===================================================================== *)
(** ** Further properties *)
(* ===================================================================== *)

Section StoreOps.

Lemma getChat_find (k : string) (x : Storage) :
  (getChat (Some k) x).1 = backfill <$> find_chat k x.
Proof.
  unfold getChat, find_chat, backfill.
  destruct (list_find _ (loadAll x)) as [[i c]|]; simpl; [|done].
  by destruct (stats c).
Qed.

Lemma find_chat_cons (k : string) (c : Chat) (l : list Chat) :
  find_chat k (Some (c :: l))
  = if decide (id c = k) then Some c else find_chat k (Some l).
Proof.
  unfold find_chat. simpl. case_decide; [done|].
  by destruct (list_find _ l) as [[??]|].
Qed.

Lemma find_chat_id (k : string) (x : Storage) (c : Chat) :
  find_chat k x = Some c → id c = k ∧ c ∈ loadAll x.
Proof.
  unfold find_chat. destruct (list_find _ _) as [[i c']|] eqn:E; [|done].
  intros ?; simplify_eq/=. apply list_find_Some in E as (Hl & ? & _).
  split; [done|]. by eapply list_elem_of_lookup_2.
Qed.

Lemma find_chat_None (k : string) (x : Storage) :
  find_chat k x = None ↔ ∀ c, c ∈ loadAll x → id c ≠ k.
Proof.
  unfold find_chat. split.
  - destruct (list_find _ _) as [[??]|] eqn:E; [done|]. intros _.
    apply list_find_None in E. intros c Hc. by eapply Forall_forall in E.
  - intros H. destruct (list_find _ _) as [[i c]|] eqn:E; [|done].
    apply list_find_Some in E as (Hl & ? & _).
    destruct (H c); [by eapply list_elem_of_lookup_2|done].
Qed.

(** What [updateChat] stores, chat by chat: the first chat carrying the id
    is replaced, everything else stays in place. *)
Lemma updateChat_loadAll (ch : Chat) (x : Storage) :
  ∃ l1 c0 l2, (find_chat (id ch) x = None ∧ updateChat ch x = x)
    ∨ (loadAll x = l1 ++ c0 :: l2 ∧ id c0 = id ch
       ∧ (∀ c, c ∈ l1 → id c ≠ id ch)
       ∧ updateChat ch x = Some (l1 ++ ch :: l2)).
Proof.
  unfold updateChat, findIndex_id, find_chat.
  destruct (list_find _ (loadAll x)) as [[i c0]|] eqn:E; simpl.
  - apply list_find_Some in E as (Hl & Hid & Hmin).
    exists (take i (loadAll x)), c0, (drop (S i) (loadAll x)). right.
    split_and!; try done.
    + by rewrite take_drop_middle.
    + intros c (j & Hj)%list_elem_of_lookup.
      apply lookup_take_Some in Hj as [Hj Hlt]. by eapply Hmin.
    + unfold saveAll. f_equal.
      rewrite <-(take_drop_middle _ _ _ Hl) at 1.
      assert (Hlen : length (take i (loadAll x)) = i).
      { apply length_take_le. apply lookup_lt_Some in Hl. lia. }
      rewrite <-Hlen at 1. rewrite insert_app_r_alt, Hlen, Nat.sub_diag by lia.
      done.
  - exists [], ch, []. by left.
Qed.

Lemma find_chat_app_skip (k : string) (l1 l2 : list Chat) :
  (∀ c, c ∈ l1 → id c ≠ k) →
  find_chat k (Some (l1 ++ l2)) = find_chat k (Some l2).
Proof.
  induction l1 as [|c l1 IH]; intros H; [done|].
  rewrite <-app_comm_cons, find_chat_cons.
  rewrite decide_False by (apply H; by left).
  apply IH. intros c' Hc'. apply H. by right.
Qed.

Lemma find_chat_app_other (k : string) (l1 l2 l2' : list Chat) :
  find_chat k (Some l2) = find_chat k (Some l2') →
  find_chat k (Some (l1 ++ l2)) = find_chat k (Some (l1 ++ l2')).
Proof.
  intros H. induction l1 as [|c l1 IH]; [done|].
  rewrite <-!app_comm_cons, !find_chat_cons. by case_decide.
Qed.

Lemma find_chat_filter_ne (k k' : string) (l : list Chat) :
  k' ≠ k →
  find_chat k' (Some (filter (λ c, id c ≠ k) l)) = find_chat k' (Some l).
Proof.
  intros Hk. induction l as [|c l IH]; [done|].
  rewrite filter_cons, (find_chat_cons k' c l). case_decide.
  - rewrite find_chat_cons. by case_decide.
  - rewrite decide_False by congruence. done.
Qed.

(** X3. [createChat] puts the new chat at the head of the list and
    [getChat] on its id returns it, with an empty history and zeroed stats;
    a lookup of any other id gives the same chat as before. *)
Theorem createChat_getChat (fresh : string) (nm mdl : jsstring) (x : Storage) :
  let '(chat, x') := createChat fresh nm mdl x in
  loadAll x' = chat :: loadAll x
  ∧ getChat (Some fresh) x' = (Some chat, x')
  ∧ id chat = fresh ∧ name chat = nm ∧ history chat = []
  ∧ stats chat = Some DEFAULT_STATS ∧ branch chat = None
  ∧ (∀ k, k ≠ fresh → (getChat (Some k) x').1 = (getChat (Some k) x).1).
Proof.
  unfold createChat. lazy beta iota zeta. split_and!; try done.
  - unfold getChat. simpl. by rewrite decide_True.
  - intros k Hk. rewrite !getChat_find. f_equal. unfold saveAll.
    rewrite find_chat_cons. simpl. rewrite decide_False by done.
    by destruct x.
Qed.

(** X4. After [deleteChat(k)] no chat with id [k] is found, every other id
    resolves to the same chat as before, the remaining chats keep their
    order, and deleting again changes nothing. *)
Theorem deleteChat_lookup (k : string) (x : Storage) :
  getChat (Some k) (deleteChat k x) = (None, deleteChat k x)
  ∧ (∀ k', k' ≠ k →
       (getChat (Some k') (deleteChat k x)).1 = (getChat (Some k') x).1)
  ∧ loadAll (deleteChat k x) = filter (λ c, id c ≠ k) (loadAll x)
  ∧ deleteChat k (deleteChat k x) = deleteChat k x.
Proof.
  split_and!.
  - assert (H : find_chat k (deleteChat k x) = None).
    { apply find_chat_None. intros c Hc. simpl in Hc.
      by apply list_elem_of_filter in Hc as [? _]. }
    unfold find_chat in H. unfold getChat.
    by destruct (list_find _ (loadAll (deleteChat k x))) as [[??]|].
  - intros k' Hk'. rewrite !getChat_find. f_equal.
    unfold deleteChat, saveAll. rewrite find_chat_filter_ne by done.
    by destruct x.
  - done.
  - unfold deleteChat, saveAll. simpl. f_equal.
    rewrite list_filter_filter. apply list_filter_iff. tauto.
Qed.

Lemma list_find_insert_first {A} (P : A → Prop) `{!∀ x, Decision (P x)}
    (l : list A) (i : nat) (y z : A) :
  list_find P l = Some (i, y) → P z →
  list_find P (<[i := z]> l) = Some (i, z).
Proof.
  intros (Hl & _ & Hmin)%list_find_Some Hz. apply list_find_Some. split_and!.
  - apply list_lookup_insert_eq. by eapply lookup_lt_Some.
  - done.
  - intros j w Hj Hlt. rewrite list_lookup_insert_ne in Hj by lia.
    by eapply Hmin.
Qed.

(** X5. When the id of [ch] is in the store, [updateChat(ch)] followed by
    [getChat] on that id returns [ch] (with [stats] filled in if it had
    none), the list keeps its length, and every other id resolves to the
    same chat as before; a second [updateChat(ch)] changes nothing. *)
Theorem updateChat_getChat (ch : Chat) (x : Storage) :
  is_Some (find_chat (id ch) x) →
  (getChat (Some (id ch)) (updateChat ch x)).1 = Some (backfill ch)
  ∧ length (loadAll (updateChat ch x)) = length (loadAll x)
  ∧ (∀ k, k ≠ id ch →
       (getChat (Some k) (updateChat ch x)).1 = (getChat (Some k) x).1)
  ∧ updateChat ch (updateChat ch x) = updateChat ch x.
Proof.
  intros [c Hc].
  destruct (updateChat_loadAll ch x) as (l1 & c0 & l2 & [[Hn _]|(Hl & Hid & Hl1 & Hu)]);
    [congruence|].
  split_and!.
  - rewrite getChat_find, Hu, find_chat_app_skip, find_chat_cons by done.
    by rewrite decide_True.
  - rewrite Hu, Hl. simpl. by rewrite !length_app.
  - intros k Hk. rewrite !getChat_find, Hu. f_equal.
    replace (find_chat k x) with (find_chat k (Some (l1 ++ c0 :: l2)))
      by (unfold find_chat; simpl; by rewrite Hl).
    apply find_chat_app_other. rewrite !find_chat_cons.
    rewrite !decide_False by congruence. done.
  - unfold updateChat, findIndex_id.
    destruct (list_find (λ c', id c' = id ch) (loadAll x)) as [[i c1]|] eqn:E;
      simpl.
    + rewrite (list_find_insert_first _ _ _ _ ch E) by done. simpl.
      by rewrite list_insert_insert_eq.
    + by rewrite E.
Qed.

Lemma updateChat_getChat_witness :
  (getChat (Some "c_1")
     (updateChat (set_history [] scenario_chat) (Some [scenario_chat]))).1
  = Some (set_history [] scenario_chat).
Proof.
  exact (proj1 (updateChat_getChat (set_history [] scenario_chat)
                  (Some [scenario_chat]) (mk_is_Some _ _ eq_refl))).
Defined.

(** X6. [getChat] never returns a chat without [stats] and returns
    nothing exactly when no stored chat carries the id; the backfill it
    writes is stable (asking again gives the same chat and leaves the store
    as it is) and changes no id, no history and no position in the list. *)
Theorem getChat_backfill_stable (k : option string) (x : Storage) :
  let '(r, x') := getChat k x in
  (∀ c, r = Some c → is_Some (stats c) ∧ k = Some (id c))
  ∧ (r = None ↔ ∀ k' c, k = Some k' → c ∈ loadAll x → id c ≠ k')
  ∧ getChat k x' = (r, x')
  ∧ id <$> loadAll x' = id <$> loadAll x
  ∧ history <$> loadAll x' = history <$> loadAll x
  ∧ branch <$> loadAll x' = branch <$> loadAll x.
Proof.
  unfold getChat. destruct k as [k|].
  2: { lazy beta iota zeta. split_and!; try done. }
  destruct (list_find _ (loadAll x)) as [[i c]|] eqn:E; simpl.
  - pose proof E as E2. apply list_find_Some in E2 as (Hl & Hid & Hmin).
    assert (Hnn : ¬ ∀ k' c0, Some k = Some k' → c0 ∈ loadAll x → id c0 ≠ k').
    { intros H. eapply (H k c); [done| |done]. by eapply list_elem_of_lookup_2. }
    destruct (stats c) as [s0|] eqn:Hs.
    + lazy beta iota zeta. split_and!; try done.
      * intros c' [= <-]. rewrite Hs, Hid. by split.
      * rewrite E. simpl. by rewrite Hs.
    + unfold updateChat, findIndex_id. simpl. rewrite Hid, E. simpl.
      assert (Hfm : ∀ {B} (f : Chat → B),
                f (set_stats DEFAULT_STATS c) = f c →
                f <$> <[i:=set_stats DEFAULT_STATS c]> (loadAll x)
                = f <$> loadAll x).
      { intros B f Hf. rewrite list_fmap_insert, Hf.
        apply list_insert_id. by rewrite list_lookup_fmap, Hl. }
      split_and!; try done; try (by apply Hfm).
      * intros c' [= <-]. simpl. rewrite Hid. by split.
      * rewrite (list_find_insert_first _ _ _ _ (set_stats DEFAULT_STATS c) E)
          by done.
        done.
  - apply list_find_None in E. split_and!; try done.
    + split; [|done]. intros _ k' c ? Hc; simplify_eq.
      by eapply Forall_forall in E.
    + destruct (list_find _ (loadAll x)) as [[??]|] eqn:E'; [|done].
      apply list_find_Some in E' as (Hl & ? & _).
      eapply Forall_forall in E; [|by eapply list_elem_of_lookup_2]. done.
Qed.

End StoreOps.

Section BubbleActions.

(** X7. Saving an edit removes and reorders nothing: the history grows by
    exactly one entry, every earlier message is still there with its
    content (only the edited message's [editing] flag is cleared), at its
    old index when that lies before the insertion point and one further
    otherwise; name, model and stats of the chat are untouched. *)
Theorem save_edit_keeps_messages now idx ta chat chat' k :
  save_edit now idx ta chat = Some (chat', k) →
  length (history chat') = S (length (history chat))
  ∧ (∀ i m, history chat !! i = Some m →
       history chat' !! (if decide (i < k)%nat then i else S i)
       = Some (if decide (i = idx) then set_editing false m else m))
  ∧ id chat' = id chat ∧ name chat' = name chat ∧ model chat' = model chat
  ∧ stats chat' = stats chat.
Proof.
  unfold save_edit. destruct (history chat !! idx) as [item|] eqn:Hit; [|done].
  destruct (decide (role item = User)); [|done].
  destruct (editing item); [|done]. intros ?; simplify_eq. simpl.
  set (h1 := <[idx := set_editing false item]> (history chat)).
  set (k := insertIdx_of h1 (anchor_of item idx)).
  assert (Hlen : length h1 = length (history chat)) by apply length_insert.
  assert (Hh1 : ∀ i m, history chat !! i = Some m →
            h1 !! i = Some (if decide (i = idx) then set_editing false m else m)).
  { intros i m Hm. unfold h1. destruct (decide (i = idx)) as [->|].
    - rewrite list_lookup_insert_eq by (by eapply lookup_lt_Some). congruence.
    - by rewrite list_lookup_insert_ne. }
  split_and!; try done.
  - unfold splice_in. rewrite length_app. simpl. rewrite length_take, length_drop.
    lia.
  - intros i m Hm. specialize (Hh1 i m Hm).
    assert (Hi : (i < length h1)%nat) by (by eapply lookup_lt_Some).
    unfold splice_in. destruct (decide (i < k)%nat).
    + rewrite lookup_app_l by (rewrite length_take; lia).
      by rewrite lookup_take_lt.
    + rewrite lookup_app_r by (rewrite length_take; lia).
      rewrite length_take, Nat.min_l by lia.
      replace (S i - k)%nat with (S (i - k)) by lia. simpl.
      rewrite lookup_drop. by replace (k + (i - k))%nat with i by lia.
Qed.

Lemma save_edit_keeps_messages_witness :
  length (history scenario_chat1) = 5%nat
  ∧ history scenario_chat1 !! 4%nat = Some (plain_message Assistant (str "4") 4).
Proof.
  destruct (save_edit_keeps_messages 5 2 (Some (str "What is 3+3?"))
              scenario_chat scenario_chat1 3 eq_refl) as (H1 & H2 & _).
  split; [exact H1|]. exact (H2 3%nat _ eq_refl).
Defined.

Lemma user_before_spec (hist : list Message) (idx : nat) :
  match user_before hist idx with
  | Some j => (j < idx)%nat ∧ (∃ m, hist !! j = Some m ∧ role m = User)
              ∧ ∀ i m, (j < i < idx)%nat → hist !! i = Some m → role m ≠ User
  | None => ∀ i m, (i < idx)%nat → hist !! i = Some m → role m ≠ User
  end.
Proof.
  induction idx as [|n IH]; simpl; [intros; lia|].
  destruct (hist !! n) as [prev|] eqn:Hn.
  - destruct (decide (role prev = User)) as [Hu|Hu].
    + split_and!; [lia|by eexists|intros; lia].
    + destruct (user_before hist n) as [j|].
      * destruct IH as (Hj & Hm & Hbetween). split_and!; [lia|done|].
        intros i m Hi Him. destruct (decide (i = n)) as [->|]; [congruence|].
        eapply Hbetween; [|done]. lia.
      * intros i m Hi Him. destruct (decide (i = n)) as [->|]; [congruence|].
        eapply IH; [|done]. lia.
  - destruct (user_before hist n) as [j|].
    + destruct IH as (Hj & Hm & Hbetween). split_and!; [lia|done|].
      intros i m Hi Him. destruct (decide (i = n)) as [->|]; [congruence|].
      eapply Hbetween; [|done]. lia.
    + intros i m Hi Him. destruct (decide (i = n)) as [->|]; [congruence|].
      eapply IH; [|done]. lia.
Qed.

(** X11. Regenerating an assistant reply resolves to the closest preceding
    user message: the index found is below the reply, holds a user message,
    and no user message lies in between; nothing is found exactly when the
    clicked entry is not an assistant message or no user message precedes
    it. *)
Theorem regenerate_anchor_nearest_user (chat : Chat) (idx : nat) :
  (∀ j, regenerate_anchor chat idx = Some j ↔
        (∃ item, history chat !! idx = Some item ∧ role item = Assistant)
        ∧ (j < idx)%nat
        ∧ (∃ m, history chat !! j = Some m ∧ role m = User)
        ∧ ∀ i m, (j < i < idx)%nat → history chat !! i = Some m →
                 role m ≠ User)
  ∧ (regenerate_anchor chat idx = None ↔
       (∀ item, history chat !! idx = Some item → role item ≠ Assistant)
       ∨ ∀ i m, (i < idx)%nat → history chat !! i = Some m → role m ≠ User).
Proof.
  unfold regenerate_anchor. pose proof (user_before_spec (history chat) idx) as Hs.
  destruct (history chat !! idx) as [item|] eqn:Hit.
  2: { split; [|by split; [left|]].
       intros j. split; [done|]. by intros [(? & ? & _) _]. }
  destruct (decide (role item = Assistant)) as [Ha|Ha].
  2: { split.
       - intros j. split; [done|]. intros [(? & ? & ?) _]. congruence.
       - split; [|done]. intros _. left. intros ? [= <-]. done. }
  destruct (user_before (history chat) idx) as [j0|].
  - destruct Hs as (Hlt & Hm & Hbetween). split.
    + intros j. split.
      * intros [= <-]. split_and!; [by eexists|done..].
      * intros (_ & Hj & (m & Hjm & Hu) & Hb). f_equal.
        destruct Hm as (m0 & Hm0 & Hu0).
        destruct (Nat.lt_trichotomy j j0) as [H|[H|H]]; [|done|].
        -- exfalso. by eapply (Hb j0 m0).
        -- exfalso. by eapply (Hbetween j m).
    + split; [done|]. intros [H|H].
      * by destruct (H item).
      * destruct Hm as (m0 & Hm0 & Hu0). by destruct (H j0 m0).
  - split.
    + intros j. split; [done|]. intros (_ & Hj & (m & Hjm & Hu) & _).
      by destruct (Hs j m).
    + split; [|done]. intros _. by right.
Qed.

End BubbleActions.

Section RenderOrder.

Lemma collect_app {A B} (f : nat → A → list B) (l1 l2 : list A) (i : nat) :
  collect f (l1 ++ l2) i = collect f l1 i ++ collect f l2 (i + length l1).
Proof.
  revert i. induction l1 as [|x l1 IH]; intros i; simpl.
  - by rewrite Nat.add_0_r.
  - rewrite IH, <-app_assoc. by replace (S i + length l1)%nat
      with (i + S (length l1))%nat by lia.
Qed.

Lemma collect_singletons {A B} (f : nat → A → list B) (g : nat → A → B)
    (l : list A) (i : nat) :
  (∀ n x, l !! n = Some x → f (i + n)%nat x = [g (i + n)%nat x]) →
  collect f l i = imap (λ n, g (i + n)%nat) l.
Proof.
  revert i. induction l as [|x l IH]; intros i H; simpl; [done|].
  specialize (H 0%nat x eq_refl) as H0. rewrite Nat.add_0_r in H0.
  rewrite H0, Nat.add_0_r. simpl. f_equal. rewrite IH.
  - apply imap_ext. intros n y _. simpl. f_equal. lia.
  - intros n y Hy. replace (S i + n)%nat with (i + S n)%nat by lia.
    by apply (H (S n) y).
Qed.

Lemma collect_nil {A B} (f : nat → A → list B) (l : list A) (i : nat) :
  (∀ n x, l !! n = Some x → f (i + n)%nat x = []) → collect f l i = [].
Proof.
  revert i. induction l as [|x l IH]; intros i H; simpl; [done|].
  specialize (H 0%nat x eq_refl) as H0. rewrite Nat.add_0_r in H0.
  rewrite H0. simpl. apply IH. intros n y Hy.
  replace (S i + n)%nat with (i + S n)%nat by lia. by apply (H (S n) y).
Qed.

Lemma renderLoop_no_branch (hist rest : list Message) (i : nat) s :
  renderLoop hist None rest i s = imap (λ n m, add_plain None m (i + n)) rest.
Proof.
  revert i. induction rest as [|m rest IH]; intros i; simpl; [done|].
  rewrite Nat.add_0_r. f_equal. rewrite IH. apply imap_ext.
  intros n y _. simpl. f_equal. lia.
Qed.

(** X8. A chat without branch state is shown in full: the view has one
    entry per stored message, in history order, each under its own index
    and with its own role and content, and none of them is rendered as an
    anchor slot (so no pager is offered). *)
Theorem renderChat_no_branch (c : Chat) :
  branch c = None →
  let out := renderChat (Some c) in
  out = imap (λ i m, add_plain None m i) (history c)
  ∧ r_idx <$> out = seq 0 (length (history c))
  ∧ r_content <$> out = content <$> history c
  ∧ r_role <$> out = role <$> history c
  ∧ anchor_slots out = []
  ∧ Forall (λ r, r_branchInfo r = None) out.
Proof.
  intros Hb out.
  assert (Hout : out = imap (λ i m, add_plain None m i) (history c)).
  { unfold out, renderChat. simpl. rewrite Hb. apply renderLoop_no_branch. }
  split; [done|]. rewrite Hout. clear. split_and!.
  - rewrite fmap_imap. rewrite <-(list_fmap_id (seq _ _)).
    apply (imap_seq_0 (history c) (λ n, n)).
  - rewrite fmap_imap. apply (imap_const content).
  - rewrite fmap_imap. apply (imap_const role).
  - unfold anchor_slots. apply elem_of_nil_inv.
    intros r [Hr (i & m & -> & _)%elem_of_lookup_imap]%list_elem_of_filter.
    done.
  - apply Forall_forall. intros r (i & m & -> & _)%elem_of_lookup_imap. done.
Qed.

Lemma renderChat_no_branch_witness :
  r_idx <$> renderChat (Some scenario_chat) = [0; 1; 2; 3]%nat.
Proof.
  exact (proj1 (proj2 (renderChat_no_branch scenario_chat eq_refl))).
Defined.

Lemma sorted_collect {A B} (g : B → nat) (f : nat → A → list B)
    (l : list A) (i : nat) :
  (∀ n x y, l !! n = Some x → y ∈ f (i + n)%nat x → g y = (i + n)%nat) →
  (∀ n x, l !! n = Some x → (length (f (i + n)%nat x) ≤ 1)%nat) →
  StronglySorted lt (g <$> collect f l i)
  ∧ Forall (λ k, i ≤ k)%nat (g <$> collect f l i).
Proof.
  revert i. induction l as [|x l IH]; intros i Hg Hlen; simpl.
  { split; constructor. }
  destruct (IH (S i)) as [IH1 IH2].
  { intros n x' y Hl Hy. replace (S i + n)%nat with (i + S n)%nat in * by lia.
    by apply (Hg (S n) x' y). }
  { intros n x' Hl. replace (S i + n)%nat with (i + S n)%nat by lia.
    by apply (Hlen (S n) x'). }
  specialize (Hg 0%nat x). specialize (Hlen 0%nat x eq_refl).
  rewrite Nat.add_0_r in Hg, Hlen.
  destruct (f i x) as [|y [|??]] eqn:E; simpl in *; [| |lia].
  - split; [done|]. eapply Forall_impl; [exact IH2|]. simpl. lia.
  - rewrite (Hg y eq_refl) by (by apply list_elem_of_singleton).
    split.
    + constructor; [done|]. eapply Forall_impl; [exact IH2|]. simpl. lia.
    + constructor; [lia|]. eapply Forall_impl; [exact IH2|]. simpl. lia.
Qed.

(** X9. With a branch state the messages before the anchor are untouched by
    versioning: whatever version is active, the view starts with them, one
    entry each under its own index.  The entries other than the anchor slot
    are rendered under strictly increasing indices, i.e. in history order. *)
Theorem renderChat_prefix_and_order (c : Chat) (b : BranchState) :
  branch c = Some b →
  let out := renderChat (Some c) in
  take (anchor b) out
  = imap (λ i m, add_before m i) (take (anchor b) (history c))
  ∧ StronglySorted lt (r_idx <$> filter (λ r, r_isAnchor r = false) out).
Proof.
  intros Hb out. unfold out. rewrite (renderChat_collect c b Hb). split.
  - rewrite <-(take_drop (anchor b) (history c)) at 2.
    rewrite collect_app. simpl.
    rewrite (collect_singletons _ (λ n m, add_before m n)).
    2: { intros n x Hx. apply lookup_take_Some in Hx as [_ Hn]. simpl.
         unfold render_at. by rewrite decide_True by done. }
    simpl. set (pre := imap _ _).
    assert (Hlen : length pre = length (take (anchor b) (history c)))
      by apply length_imap.
    destruct (decide (anchor b ≤ length (history c))%nat).
    + rewrite take_app_length'; [done|]. rewrite Hlen, length_take. lia.
    + rewrite drop_ge by lia. simpl. rewrite app_nil_r.
      apply take_ge. rewrite Hlen, length_take. lia.
  - rewrite filter_collect.
    apply (sorted_collect r_idx
             (λ n x, filter (λ r, r_isAnchor r = false)
                       (render_at (history c) b n x))).
    + intros n x y Hx Hy. simpl in *.
      apply list_elem_of_filter in Hy as [Hna Hy].
      unfold render_at in Hy. repeat case_decide;
        repeat case_match; try (by apply elem_of_nil in Hy);
        apply list_elem_of_singleton in Hy as ->; simpl in *; done.
    + intros n x Hx. etrans; [apply length_filter|]. apply render_at_length.
Qed.

Lemma renderChat_prefix_and_order_witness :
  take 2 (renderChat (Some scenario_chat1))
  = [add_before (plain_message User (str "hi") 1) 0;
     add_before (plain_message Assistant (str "hello") 2) 1].
Proof.
  exact (proj1 (renderChat_prefix_and_order scenario_chat1
                  (mkBranch 2 2 2) eq_refl)).
Defined.

End RenderOrder.

Section FlagActions.

Lemma findIndex_from_same_tags (a : nat) (v : Z) (l l' : list Message) (j : nat) :
  Forall2 same_tags l l' →
  findIndex_from (is_version_user a v) l j
  = findIndex_from (is_version_user a v) l' j.
Proof.
  intros H. revert j. induction H as [|m m' l l' (Hr & Hb & Hv) _ IH];
    intros j; simpl; [done|].
  unfold is_version_user at 1 3, tagged. rewrite Hr, Hb, Hv.
  destruct (_ && _); [done|]. apply IH.
Qed.

Lemma renderLoop_idx_same_tags (hist hist' : list Message) br
    (rest rest' : list Message) (i : nat) s :
  Forall2 same_tags hist hist' → Forall2 same_tags rest rest' →
  r_idx <$> renderLoop hist br rest i s
  = r_idx <$> renderLoop hist' br rest' i s.
Proof.
  intros Hh Hr. revert i s.
  induction Hr as [|m m' rest rest' (Hro & Hbo & Hbv) _ IH]; intros i s; [done|].
  cbn [renderLoop]. destruct br as [b|]; [|simpl; f_equal; apply IH].
  destruct (decide (i < anchor b)%nat); [simpl; f_equal; apply IH|].
  destruct (decide (i = anchor b)).
  { destruct (decide (active b = 1)); [simpl; f_equal; apply IH|].
    unfold findIndex. rewrite (findIndex_from_same_tags _ _ hist hist') by done.
    destruct (findIndex_from _ hist' 0) as [v|]; [|simpl; f_equal; apply IH].
    destruct (hist !! v) as [x|] eqn:Hx.
    - destruct (Forall2_lookup_l _ _ _ _ _ Hh Hx) as (x' & -> & _).
      simpl; f_equal; apply IH.
    - apply lookup_ge_None in Hx. rewrite (Forall2_length _ _ _ Hh) in Hx.
      apply lookup_ge_None in Hx. rewrite Hx. apply IH. }
  unfold tagged. rewrite Hbo, Hbv.
  repeat first [case_decide | case_match];
    first [apply IH | simpl; f_equal; apply IH].
Qed.

Lemma renderLoop_entry (hist : list Message) br (rest : list Message)
    (i : nat) s r :
  (∀ n x, rest !! n = Some x → hist !! (i + n)%nat = Some x) →
  r ∈ renderLoop hist br rest i s →
  ∃ x, hist !! r_idx r = Some x ∧ r_deleted r = deleted x
       ∧ r_editing r = editing x ∧ r_content r = content x.
Proof.
  revert i s. induction rest as [|m rest IH]; intros i s Hrest;
    [by intros ?%elem_of_nil|].
  assert (Hm : hist !! i = Some m).
  { specialize (Hrest 0%nat m eq_refl). by rewrite Nat.add_0_r in Hrest. }
  assert (Hnext : ∀ n x, rest !! n = Some x → hist !! (S i + n)%nat = Some x).
  { intros n x Hx. replace (S i + n)%nat with (i + S n)%nat by lia.
    by apply (Hrest (S n) x). }
  cbn [renderLoop].
  assert (Hhere : ∀ y s', r_idx y = i → r_deleted y = deleted m →
            r_editing y = editing m → r_content y = content m →
            r ∈ y :: renderLoop hist br rest (S i) s' →
            ∃ x, hist !! r_idx r = Some x ∧ r_deleted r = deleted x
                 ∧ r_editing r = editing x ∧ r_content r = content x).
  { intros y s' H1 H2 H3 H4 [->|Hr]%elem_of_cons; [|by eapply IH].
    exists m. by rewrite H1. }
  destruct br as [b|]; [|by apply Hhere].
  destruct (decide (i < anchor b)%nat); [by apply Hhere|].
  destruct (decide (i = anchor b)).
  { destruct (decide (active b = 1)); [by apply Hhere|].
    destruct (findIndex _ hist) as [v|]; [|by apply Hhere].
    destruct (hist !! v) as [v2|] eqn:Hv; [|by eapply IH].
    intros [->|Hr]%elem_of_cons; [|by eapply IH]. by exists v2. }
  repeat first [case_decide | case_match];
    first [by apply Hhere | by eapply IH].
Qed.

Lemma renderChat_entry (c : Chat) r :
  r ∈ renderChat (Some c) →
  ∃ x, history c !! r_idx r = Some x ∧ r_deleted r = deleted x
       ∧ r_editing r = editing x ∧ r_content r = content x.
Proof. unfold renderChat. simpl. by apply renderLoop_entry. Qed.

Lemma flag_update_same_tags (h : list Message) (idx : nat) (item item' : Message) :
  h !! idx = Some item → same_tags item item' →
  Forall2 same_tags h (<[idx := item']> h).
Proof.
  intros Hit Hst. apply Forall2_same_length_lookup_2; [by rewrite length_insert|].
  intros i x y Hx Hy. destruct (decide (i = idx)) as [->|].
  - rewrite list_lookup_insert_eq in Hy by (by eapply lookup_lt_Some).
    by simplify_eq.
  - rewrite list_lookup_insert_ne in Hy by done. by simplify_eq.
Qed.

Lemma renderChat_idx_flag_update (c : Chat) (idx : nat) (item item' : Message) :
  history c !! idx = Some item → same_tags item item' →
  r_idx <$> renderChat (Some (set_history (<[idx := item']> (history c)) c))
  = r_idx <$> renderChat (Some c).
Proof.
  intros Hit Hst. unfold renderChat. simpl. symmetry.
  apply renderLoop_idx_same_tags; by eapply flag_update_same_tags.
Qed.

(** X10. Soft delete, restore, edit and cancel only flip a flag of one
    message: the view afterwards lists exactly the same indices in the same
    order as before, and no message text is lost.  After a delete the entry
    under that index is rendered as deleted, after a restore as not
    deleted, and restoring after a delete gives the same chat as restoring
    alone. *)
Theorem flag_actions_keep_view (idx : nat) (c : Chat) :
  let shown c' := r_idx <$> renderChat (Some c') in
  shown (delete_click idx c) = shown c
  ∧ shown (restore_click idx c) = shown c
  ∧ shown (edit_click idx c) = shown c
  ∧ shown (cancel_click idx c) = shown c
  ∧ content <$> history (delete_click idx c) = content <$> history c
  ∧ (∀ r, r ∈ renderChat (Some (delete_click idx c)) → r_idx r = idx →
          r_deleted r = true)
  ∧ (∀ r, r ∈ renderChat (Some (restore_click idx c)) → r_idx r = idx →
          r_deleted r = false)
  ∧ restore_click idx (delete_click idx c) = restore_click idx c.
Proof.
  intros shown. unfold shown, delete_click, restore_click, edit_click,
    cancel_click, mark_deleted.
  destruct (history c !! idx) as [item|] eqn:Hit.
  2: { simpl. rewrite Hit. split_and!; try done.
       - intros r (x & Hx & _)%renderChat_entry <-. congruence.
       - intros r (x & Hx & _)%renderChat_entry <-. congruence. }
  assert (Hlt : (idx < length (history c))%nat) by (by eapply lookup_lt_Some).
  split_and!.
  - by apply (renderChat_idx_flag_update c idx item).
  - by apply (renderChat_idx_flag_update c idx item).
  - case_decide; [|done]. by apply (renderChat_idx_flag_update c idx item).
  - case_decide; [|done]. destruct (editing item); [|done].
    by apply (renderChat_idx_flag_update c idx item).
  - simpl. rewrite list_fmap_insert. simpl. apply list_insert_id.
    by rewrite list_lookup_fmap, Hit.
  - intros r (x & Hx & Hd & _)%renderChat_entry <-. simpl in Hx.
    rewrite list_lookup_insert_eq in Hx by done. by simplify_eq.
  - intros r (x & Hx & Hd & _)%renderChat_entry <-. simpl in Hx.
    rewrite list_lookup_insert_eq in Hx by done. by simplify_eq.
  - simpl. rewrite list_lookup_insert_eq by done.
    unfold set_history. simpl. by rewrite list_insert_insert_eq.
Qed.

End FlagActions.

Section SaveView.

Lemma splice_in_lookup {A} (k : nat) (u : A) (h : list A) (n : nat) :
  (k ≤ length h)%nat →
  splice_in k u h !! n
  = if decide (n < k)%nat then h !! n
    else if decide (n = k) then Some u else h !! (n - 1)%nat.
Proof.
  intros Hk. unfold splice_in. destruct (decide (n < k)%nat).
  - rewrite lookup_app_l by (rewrite length_take; lia).
    by rewrite lookup_take_lt.
  - rewrite lookup_app_r by (rewrite length_take; lia).
    rewrite length_take, Nat.min_l by lia.
    destruct (decide (n = k)) as [->|]; [by rewrite Nat.sub_diag|].
    replace (n - k)%nat with (S (n - 1 - k)) by lia. simpl.
    rewrite lookup_drop. f_equal. lia.
Qed.

Lemma insertIdx_bounds (h : list Message) (a : nat) :
  (a < length h)%nat → (a < insertIdx_of h a ≤ length h)%nat.
Proof.
  intros Ha. destruct (insertIdx_after_cluster a h)
    as [[-> _]|(j & -> & [[Hj _] (t & Ht & _)] & _)]; [lia|].
  apply lookup_lt_Some in Ht. lia.
Qed.

Lemma findIndex_from_first {A} (P : nat → A → bool) (l : list A) (j n : nat) x :
  l !! n = Some x → P (j + n)%nat x = true →
  (∀ n' x', (n' < n)%nat → l !! n' = Some x' → P (j + n')%nat x' = false) →
  findIndex_from P l j = Some (j + n)%nat.
Proof.
  revert j n. induction l as [|y l IH]; intros j n Hl HP Hmin; [done|]. simpl.
  destruct n as [|n]; simplify_eq/=.
  - rewrite Nat.add_0_r in *. by rewrite HP.
  - specialize (Hmin 0%nat y ltac:(lia) eq_refl) as H0.
    rewrite Nat.add_0_r in H0. rewrite H0.
    replace (j + S n)%nat with (S j + n)%nat in * by lia.
    apply IH; [done..|]. intros n' x' Hn' Hl'.
    replace (S j + n')%nat with (j + S n')%nat by lia.
    apply (Hmin (S n') x'); [lia|done].
Qed.

Lemma bump_branch_anchor_active (br : option BranchState) (a : nat) :
  anchor (bump_branch br a) = a ∧ active (bump_branch br a) ≠ 1.
Proof.
  unfold bump_branch. destruct br as [b|]; [|done].
  destruct (decide (anchor b ≠ a)) as [|Hn]; [done|]. simpl.
  split; [by destruct (decide (anchor b = a))|].
  unfold or_one. destruct (Z.eqb_spec (total b) 0); lia.
Qed.

(** X12. What the chat looks like right after an edit is saved (before
    any reply arrives), provided the anchor lies inside the history and the
    new version number is not carried by a stored message yet: the view is
    the messages before the anchor followed by the anchor slot, which shows
    the newly inserted user message under its insertion index.  Nothing
    else is shown: the original text, its reply and all other versions are
    hidden. *)
Theorem save_edit_view now idx ta chat item chat' k :
  history chat !! idx = Some item →
  save_edit now idx ta chat = Some (chat', k) →
  (anchor_of item idx < length (history chat))%nat →
  fresh_version (anchor_of item idx)
    (active (bump_branch (branch chat) (anchor_of item idx))) (history chat) →
  ∃ b' m0,
    branch chat' = Some b' ∧ anchor b' = anchor_of item idx
    ∧ history chat' !! anchor b' = Some m0
    ∧ let u := newUser (default (content item) ta) now (anchor b') (active b') in
      history chat' !! k = Some u
      ∧ renderChat (Some chat')
        = imap (λ i m, add_before m i) (take (anchor b') (history chat'))
          ++ [add_anchor b' u k m0].
Proof.
  intros Hit Hs Ha Hfresh.
  pose proof (save_edit_branch _ _ _ _ _ _ _ Hit Hs) as Hb.
  destruct (bump_branch_anchor_active (branch chat) (anchor_of item idx))
    as [Hanc Hact].
  unfold save_edit in Hs. rewrite Hit in Hs.
  destruct (decide (role item = User)); [|done].
  destruct (editing item); [|done]. simplify_eq. simpl in Hb.
  set (a := anchor_of item idx) in *.
  set (b' := bump_branch (branch chat) a) in *.
  set (h1 := <[idx := set_editing false item]> (history chat)).
  set (k := insertIdx_of h1 a).
  set (u0 := newUser (default (content item) ta) now a (active b')).
  assert (Hlen1 : length h1 = length (history chat)) by apply length_insert.
  assert (Hk : (a < k ≤ length h1)%nat)
    by (apply insertIdx_bounds; by rewrite Hlen1).
  assert (Hold : ∀ n x, h1 !! n = Some x → tagged a (active b') x = false).
  { intros n x Hx. unfold h1 in Hx. destruct (decide (n = idx)) as [->|].
    - rewrite list_lookup_insert_eq in Hx by (by eapply lookup_lt_Some).
      simplify_eq. apply (Hfresh item). by eapply list_elem_of_lookup_2.
    - rewrite list_lookup_insert_ne in Hx by done.
      apply Hfresh. by eapply list_elem_of_lookup_2. }
  destruct (lookup_lt_is_Some_2 h1 a ltac:(lia)) as [m0 Hm0].
  exists b', m0. simpl. rewrite Hanc.
  set (h' := splice_in k u0 h1).
  assert (Hlk : ∀ n, h' !! n = if decide (n < k)%nat then h1 !! n
                     else if decide (n = k) then Some u0 else h1 !! (n - 1)%nat).
  { intros n. apply splice_in_lookup. lia. }
  assert (Hm0' : h' !! a = Some m0) by (by rewrite Hlk, decide_True by lia).
  assert (Hu : h' !! k = Some u0).
  { rewrite Hlk, decide_False by lia. by rewrite decide_True. }
  assert (Hskip : skip_of h' b' = Some k).
  { unfold skip_of. rewrite decide_False by done. unfold findIndex.
    apply (findIndex_from_first _ h' 0 k u0); [done| |].
    - simpl. rewrite Hanc. apply is_version_user_true.
      split; [lia|]. by split_and!.
    - intros n' x' Hn' Hx'. simpl. rewrite Hlk, decide_True in Hx' by done.
      unfold is_version_user. rewrite Hanc, (Hold n' x' Hx').
      by rewrite andb_false_r. }
  split_and!; [done..|].
  erewrite (renderChat_collect _ b') by reflexivity. simpl. fold h'.
  rewrite <-(take_drop_middle h' a m0 Hm0') at 2.
  assert (Hta : length (take a h') = a).
  { rewrite length_take. apply lookup_lt_Some in Hm0'. lia. }
  rewrite collect_app. cbn [collect]. rewrite Hta. simpl.
  rewrite (collect_singletons _ (λ n m, add_before m n)).
  2: { intros n x Hx. apply lookup_take_Some in Hx as [_ Hn]. simpl.
       unfold render_at. by rewrite Hanc, decide_True by done. }
  simpl. f_equal.
  assert (render_at h' b' a m0 = [add_anchor b' u0 k m0]) as ->.
  { unfold render_at. rewrite Hanc, decide_False by lia.
    rewrite decide_True by done. rewrite Hskip. simpl. by rewrite Hu. }
  simpl. f_equal. apply collect_nil. intros n x Hx.
  rewrite lookup_drop in Hx. unfold render_at.
  rewrite Hanc, decide_False by lia. rewrite decide_False by lia.
  rewrite decide_False by done.
  destruct (decide (skip_of h' b' = Some (S a + n)%nat)) as [|Hne]; [done|].
  rewrite Hskip in Hne. rewrite Hlk in Hx.
  destruct (decide (S a + n < k)%nat).
  - by rewrite (Hold _ _ Hx).
  - destruct (decide (S a + n = k)%nat) as [E|]; [by rewrite E in Hne|].
    by rewrite (Hold _ _ Hx).
Qed.

Lemma save_edit_view_witness :
  r_content <$> renderChat (Some scenario_chat1)
  = [str "hi"; str "hello"; str "What is 3+3?"].
Proof.
  destruct (save_edit_view 5 2 (Some (str "What is 3+3?")) scenario_chat
              (set_editing true (plain_message User (str "What is 2+2?") 3))
              scenario_chat1 3 eq_refl eq_refl
              ltac:(vm_compute; lia)
              ltac:(intros m Hm; cbv [scenario_chat history] in Hm;
                    repeat (apply elem_of_cons in Hm as [->|Hm];
                            [reflexivity|]); by apply elem_of_nil in Hm))
    as (b' & m0 & Hb & Ha & Hm0 & Hu & Hview).
  rewrite Hview. injection Hb as <-. reflexivity.
Defined.

End SaveView.

Section Theme.

(** X13. Toggling the theme persists what it applies: afterwards the root
    attribute is "dark" or "light", the stored preference equals it, and a
    reload ([applyTheme(getInitialTheme())]) changes nothing.  The toggle
    goes from "dark" to "light" and from anything else (also a missing or
    empty attribute) to "dark"; once toggled, two further toggles give the
    same state again. *)
Theorem toggleTheme_persists (t : ThemeState) :
  let t' := toggleTheme t in
  (data_theme t' = Some (str "dark") ∨ data_theme t' = Some (str "light"))
  ∧ saved_theme t' = data_theme t'
  ∧ Some (getInitialTheme t') = data_theme t'
  ∧ applyTheme (getInitialTheme t') t' = t'
  ∧ (data_theme t' = Some (str "light") ↔ data_theme t = Some (str "dark"))
  ∧ toggleTheme (toggleTheme t') = t'.
Proof.
  destruct t as [attr saved icon sys]. unfold toggleTheme. simpl.
  destruct (decide (js_or (default [] attr) (str "light") = str "dark"))
    as [Hd|Hd].
  - assert (attr = Some (str "dark")) as ->.
    { destruct attr as [[|c a]|]; [by vm_compute in Hd|f_equal; exact Hd|
                                   by vm_compute in Hd]. }
    destruct icon; vm_compute; split_and!; try done; by right.
  - assert (Hattr : attr ≠ Some (str "dark")).
    { intros ->. by apply Hd. }
    destruct icon; vm_compute; split_and!; try done; try (by left);
      split; intros; done.
Qed.

End Theme.

Section PendingFiles.

Lemma bytesTotal_snoc (l : list PickedFile) (f : PickedFile) :
  bytesTotal (l ++ [f]) = bytesTotal l + file_size f.
Proof. unfold bytesTotal. by rewrite foldl_app. Qed.

Lemma tryAdd_loop_spec (incoming current : list PickedFile) (added : nat) :
  ∃ n, (n ≤ length incoming)%nat
    ∧ tryAdd_loop incoming current added
      = (current ++ take n incoming, (added + n)%nat)
    ∧ (length (current ++ take n incoming)
       ≤ Nat.max MAX_FILES (length current))%nat
    ∧ bytesTotal (current ++ take n incoming)
      ≤ Z.max (MAX_TOTAL_MB * 1024 * 1024) (bytesTotal current)
    ∧ ∀ f, incoming !! n = Some f →
        (MAX_FILES ≤ length (current ++ take n incoming))%nat
        ∨ MAX_TOTAL_MB * 1024 * 1024
          < bytesTotal (current ++ take n incoming) + file_size f.
Proof.
  revert current added. induction incoming as [|f rest IH]; intros current added.
  { exists 0%nat. simpl. rewrite app_nil_r, Nat.add_0_r.
    split_and!; [lia|done|lia|lia|done]. }
  cbn [tryAdd_loop].
  destruct (bool_decide (MAX_FILES ≤ length current)%nat) eqn:Hm; simpl.
  { apply bool_decide_eq_true in Hm. exists 0%nat. simpl.
    rewrite app_nil_r, Nat.add_0_r. split_and!; [lia|done|lia|lia|].
    intros ? [= <-]. by left. }
  destruct (bool_decide (_ < _)) eqn:Hb.
  { apply bool_decide_eq_true in Hb. exists 0%nat. simpl.
    rewrite app_nil_r, Nat.add_0_r. split_and!; [lia|done|lia|lia|].
    intros ? [= <-]. by right. }
  apply bool_decide_eq_false in Hm, Hb.
  destruct (IH (current ++ [f]) (S added)) as (n & Hn & E & Hl & Ht & Hoff).
  exists (S n). simpl. rewrite E, <-app_assoc in *. simpl in *.
  rewrite bytesTotal_snoc in Ht. rewrite !length_app in Hl. simpl in Hl.
  unfold MAX_FILES, MAX_TOTAL_MB in *.
  split_and!; [lia|f_equal; lia|rewrite length_app; simpl; lia|lia|done].
Qed.

(** X14. [tryAddFiles] extends the pending files by a prefix of the picked
    files and stops at the first file that does not fit: the result never
    holds more than 5 files nor more than 50 MB in total (or, if the pending
    files already did, no more than they), and the first file left out, if
    any, found 5 files pending or would have exceeded 50 MB; files behind
    it are not considered even if they would fit. *)
Theorem tryAddFiles_prefix_within_limits (fileList pending : list PickedFile) :
  ∃ n, (n ≤ length fileList)%nat
    ∧ tryAddFiles fileList pending = pending ++ take n fileList
    ∧ (length (tryAddFiles fileList pending)
       ≤ Nat.max 5 (length pending))%nat
    ∧ bytesTotal (tryAddFiles fileList pending)
      ≤ Z.max (50 * 1024 * 1024) (bytesTotal pending)
    ∧ ∀ f, fileList !! n = Some f →
        (5 ≤ length (tryAddFiles fileList pending))%nat
        ∨ 50 * 1024 * 1024
          < bytesTotal (tryAddFiles fileList pending) + file_size f.
Proof.
  destruct (tryAdd_loop_spec fileList pending 0) as (n & Hn & E & Hl & Ht & Hoff).
  exists n. assert (Hr : tryAddFiles fileList pending = pending ++ take n fileList).
  { unfold tryAddFiles. destruct fileList as [|f rest].
    { by rewrite take_nil, app_nil_r. }
    rewrite E. simpl. destruct n as [|n]; simpl; [by rewrite app_nil_r|done]. }
  rewrite Hr. by split_and!.
Qed.

End PendingFiles.

Section Attachments.

Import AttachmentsManager.

Lemma addFiles_loop_spec (mx : nat) (mb : Z) (fileList : list (string * PickedFile))
    (fs : list Item) :
  addFiles_loop mx mb fileList fs
  = fs ++ take (mx - length fs)
            ((λ kf, new_item kf.1 kf.2)
               <$> filter (λ kf, file_size kf.2 ≤ mb * (1024 * 1024)) fileList).
Proof.
  revert fs. induction fileList as [|[k f] rest IH]; intros fs; simpl.
  { by rewrite take_nil, app_nil_r. }
  destruct (decide (mx ≤ length fs)%nat) as [Hfull|Hroom].
  { replace (mx - length fs)%nat with 0%nat by lia. by rewrite app_nil_r. }
  destruct (decide (mb * (1024 * 1024) < file_size f)) as [Hbig|Hok].
  - rewrite filter_cons_False by (simpl; lia). apply IH.
  - rewrite filter_cons_True by (simpl; lia). rewrite IH, length_app. simpl.
    rewrite <-app_assoc. simpl.
    replace (mx - length fs)%nat with (S (mx - (length fs + 1))) by lia. done.
Qed.

(** X15. [addFiles] of the attachments manager appends, in the order picked,
    the files that are not larger than [maxSizeMB], for as long as there is
    room: the loop with its [break] and [continue] equals "filter by size,
    then take what fits".  So an oversized file is skipped without blocking
    the files behind it, the manager never holds more than [maxFiles] files
    (unless it already did), existing entries keep their place, and the
    limits themselves are not changed. *)
Theorem addFiles_take_filter (fileList : list (string * PickedFile)) (m : Manager) :
  let m' := addFiles fileList m in
  let fits (kf : string * PickedFile) :=
    file_size kf.2 ≤ maxSizeMB m * (1024 * 1024) in
  files m' = files m ++ take (maxFiles m - length (files m))
                          ((λ kf, new_item kf.1 kf.2) <$> filter fits fileList)
  ∧ (length (files m') ≤ Nat.max (maxFiles m) (length (files m)))%nat
  ∧ (∀ x, x ∈ files m' → x ∈ files m ∨
          (item_size x ≤ maxSizeMB m * (1024 * 1024)
           ∧ (item_id x, item_file x) ∈ fileList))
  ∧ maxFiles m' = maxFiles m ∧ maxSizeMB m' = maxSizeMB m.
Proof.
  intros m' fits. unfold m', addFiles. simpl. rewrite addFiles_loop_spec.
  split_and!; [done| | |done..].
  - rewrite length_app, length_take. lia.
  - intros x [Hx|Hx]%elem_of_app; [by left|]. right.
    apply elem_of_take in Hx as (i & Hx & _).
    apply list_elem_of_lookup_2, list_elem_of_fmap in Hx as ([k f] & -> & Hkf).
    apply list_elem_of_filter in Hkf as [Hfit Hin]. simpl in *. done.
Qed.

(** X16. [remove(id)] deletes exactly the entries with that identifier and
    keeps the others in order; removing twice is removing once, removals
    commute, and removing an identifier that no entry carries changes
    nothing.  In particular adding one file under an unused identifier and
    removing it again gives back the manager as it was, whether or not the
    file was accepted. *)
Theorem remove_after_addFiles (k : string) (f : PickedFile) (m : Manager) :
  (∀ x, x ∈ files (remove k m) ↔ x ∈ files m ∧ item_id x ≠ k)
  ∧ files (remove k m) `sublist_of` files m
  ∧ remove k (remove k m) = remove k m
  ∧ (∀ k', remove k (remove k' m) = remove k' (remove k m))
  ∧ (Forall (λ x, item_id x ≠ k) (files m) →
       remove k m = m ∧ remove k (addFiles [(k, f)] m) = m)
  ∧ files (remove k (clear m)) = [].
Proof.
  assert (Hfresh : ∀ m0, Forall (λ x, item_id x ≠ k) (files m0) →
            remove k m0 = m0).
  { intros [mx mb fs] H. unfold remove. simpl in *. f_equal.
    induction H as [|x l Hx _ IH]; [done|].
    by rewrite filter_cons_True, IH. }
  split_and!.
  - intros x. unfold remove. simpl. rewrite list_elem_of_filter. tauto.
  - apply sublist_filter.
  - unfold remove. simpl. f_equal. rewrite list_filter_filter.
    apply list_filter_iff. tauto.
  - intros k'. unfold remove. simpl. f_equal. rewrite !list_filter_filter.
    apply list_filter_iff. tauto.
  - intros H. split; [by apply Hfresh|].
    unfold remove, addFiles. simpl.
    destruct (decide (maxFiles m ≤ length (files m))%nat);
      [by apply Hfresh|].
    destruct (decide (maxSizeMB m * (1024 * 1024) < file_size f));
      [by apply Hfresh|].
    rewrite filter_app, filter_cons_False, filter_nil, app_nil_r
      by (simpl; tauto).
    by apply Hfresh.
  - done.
Qed.

Lemma remove_after_addFiles_witness :
  remove "f1" (addFiles [("f1", mkFile (str "a.txt") 10 (str "text/plain"))]
                 default_manager) = default_manager.
Proof.
  exact (proj2 (proj1 (proj2 (proj2 (proj2 (proj2
    (remove_after_addFiles "f1" (mkFile (str "a.txt") 10 (str "text/plain"))
       default_manager))))) (Forall_nil_2 _))).
Defined.

(** X17. [#truncate(s, n)] with [n >= 3] (the chips use 28) returns a
    string of at most [n] characters: the string itself when it has at most
    [n] characters, and otherwise its first [n - 3] characters followed by
    the ellipsis. *)
Theorem truncate_bound (s : jsstring) (n : Z) :
  3 ≤ n →
  Z.of_nat (length (truncate s n)) ≤ n
  ∧ (Z.of_nat (length s) ≤ n → truncate s n = s)
  ∧ (n < Z.of_nat (length s) →
       truncate s n = take (Z.to_nat (n - 3)) s ++ [8230%N]
       ∧ Z.of_nat (length (truncate s n)) = n - 2).
Proof.
  intros Hn. unfold truncate, slice0.
  destruct (Z.ltb_spec n (Z.of_nat (length s))) as [Hlong|Hshort].
  - destruct (Z.ltb_spec (n - 3) 0); [lia|].
    rewrite Z.min_l by lia. rewrite length_app, length_take. simpl.
    split_and!; [lia|lia|]. intros _. split; [done|lia].
  - split_and!; [lia|done|lia].
Qed.

Lemma truncate_bound_witness :
  Z.of_nat (length (truncate (str "a-rather-long-file-name-for-a-chip.txt") 28))
  ≤ 28.
Proof.
  exact (proj1 (truncate_bound (str "a-rather-long-file-name-for-a-chip.txt") 28
                  ltac:(lia))).
Defined.

End Attachments.

Section Escaping.

Import AttachmentsManager.

Lemma esc_char_cases (c : N) :
  (c = AMP ∧ esc_char c = [38; 97; 109; 112; 59]%N)
  ∨ (c = LT ∧ esc_char c = [38; 108; 116; 59]%N)
  ∨ (c = GT ∧ esc_char c = [38; 103; 116; 59]%N)
  ∨ (c = QUOT ∧ esc_char c = [38; 113; 117; 111; 116; 59]%N)
  ∨ (c = APOS ∧ esc_char c = [38; 35; 51; 57; 59]%N)
  ∨ ((c ≠ AMP ∧ c ≠ LT ∧ c ≠ GT ∧ c ≠ QUOT ∧ c ≠ APOS) ∧ esc_char c = [c]).
Proof.
  unfold esc_char.
  destruct (N.eqb_spec c AMP) as [->|?]; [by left|right].
  destruct (N.eqb_spec c LT) as [->|?]; [by left|right].
  destruct (N.eqb_spec c GT) as [->|?]; [by left|right].
  destruct (N.eqb_spec c QUOT) as [->|?]; [by left|right].
  destruct (N.eqb_spec c APOS) as [->|?]; [by left|right]. done.
Qed.

Lemma replace_all_app (c : N) (r a b : jsstring) :
  replace_all c r (a ++ b) = replace_all c r a ++ replace_all c r b.
Proof. apply flat_map_app. Qed.

Lemma escapeHTML_app (a b : jsstring) :
  escapeHTML (a ++ b) = escapeHTML a ++ escapeHTML b.
Proof. unfold escapeHTML. by rewrite !replace_all_app. Qed.

Lemma esc_char_sequential (c : N) :
  esc_char c
  = replace_all APOS (str "&#39;")
      (replace_all QUOT (str "&quot;") (escapeHTML [c])).
Proof.
  destruct (esc_char_cases c)
    as [[-> ->]|[[-> ->]|[[-> ->]|[[-> ->]|[[-> ->]|[(?&?&?&?&?) ->]]]]]];
    try reflexivity.
  unfold escapeHTML, replace_all. simpl.
  rewrite (proj2 (N.eqb_neq c AMP)) by done. simpl.
  rewrite (proj2 (N.eqb_neq c LT)) by done. simpl.
  rewrite (proj2 (N.eqb_neq c GT)) by done. simpl.
  rewrite (proj2 (N.eqb_neq c QUOT)) by done. simpl.
  by rewrite (proj2 (N.eqb_neq c APOS)) by done.
Qed.

(** X18. The one-pass [#esc] of the attachments manager agrees with the
    script's [escapeHTML] (three successive replacements, ampersand first)
    followed by the replacement of the two quote characters.  Its output
    contains none of the characters [<], [>], double quote and apostrophe,
    the output of [escapeHTML] contains neither [<] nor [>], and [#esc]
    loses no information: different strings have different escaped
    forms. *)
Theorem esc_extends_escapeHTML (s : jsstring) :
  esc s = replace_all APOS (str "&#39;")
            (replace_all QUOT (str "&quot;") (escapeHTML s))
  ∧ Forall (λ c, c ≠ LT ∧ c ≠ GT ∧ c ≠ QUOT ∧ c ≠ APOS) (esc s)
  ∧ Forall (λ c, c ≠ LT ∧ c ≠ GT) (escapeHTML s)
  ∧ (∀ s', esc s = esc s' → s = s').
Proof.
  split_and!.
  - induction s as [|c s IH]; [done|].
    change (c :: s) with ([c] ++ s) at 2.
    rewrite escapeHTML_app, !replace_all_app, <-IH, <-esc_char_sequential.
    done.
  - induction s as [|c s IH]; [constructor|].
    change (esc (c :: s)) with (esc_char c ++ esc s).
    apply Forall_app. split; [|done].
    destruct (esc_char_cases c)
      as [[-> ->]|[[-> ->]|[[-> ->]|[[-> ->]|[[-> ->]|[(?&?&?&?&?) ->]]]]]];
      repeat constructor; done.
  - induction s as [|c s IH]; [constructor|].
    change (c :: s) with ([c] ++ s). rewrite escapeHTML_app.
    apply Forall_app. split; [|done]. clear IH.
    unfold escapeHTML, replace_all. simpl.
    destruct (N.eqb_spec c AMP) as [->|?]; [repeat constructor; done|]. simpl.
    destruct (N.eqb_spec c LT) as [->|?]; [repeat constructor; done|]. simpl.
    destruct (N.eqb_spec c GT) as [->|?]; [repeat constructor; done|].
    repeat constructor; done.
  - induction s as [|c s IH]; intros [|c' s'] H; [done| | |].
    + change (esc (c' :: s')) with (esc_char c' ++ esc s') in H.
      destruct (esc_char_cases c')
        as [[_ E]|[[_ E]|[[_ E]|[[_ E]|[[_ E]|[_ E]]]]]];
        rewrite E in H; done.
    + change (esc (c :: s)) with (esc_char c ++ esc s) in H.
      destruct (esc_char_cases c)
        as [[_ E]|[[_ E]|[[_ E]|[[_ E]|[[_ E]|[_ E]]]]]];
        rewrite E in H; done.
    + change (esc (c :: s)) with (esc_char c ++ esc s) in H.
      change (esc (c' :: s')) with (esc_char c' ++ esc s') in H.
      destruct (esc_char_cases c)
        as [[-> E]|[[-> E]|[[-> E]|[[-> E]|[[-> E]|[(?&?&?&?&?) E]]]]]];
      destruct (esc_char_cases c')
        as [[-> E']|[[-> E']|[[-> E']|[[-> E']|[[-> E']|[(?&?&?&?&?) E']]]]]];
      rewrite ?E, ?E' in H; simpl in H;
      try discriminate H; try (injection H as ? ?; congruence);
      injection H as H; f_equal; try done; by apply IH.
Qed.

End Escaping.

Section ArbiterTraces.

(** X19. Along every sequence of refreshes and settling requests (in any
    order, with any outcomes) the version dropdown, once it starts with the
    "latest" option and holds at most four options, keeps doing so; the
    request counter is never changed by a response and ends at its initial
    value plus the number of refreshes dispatched. *)
Theorem arbiter_run_invariant (acts : list ArbiterAction) (st : Arbiter) :
  head (versionSel st) = Some latest_option →
  (length (versionSel st) ≤ 4)%nat →
  let st' := arbiter_run acts st in
  head (versionSel st') = Some latest_option
  ∧ (length (versionSel st') ≤ 4)%nat
  ∧ _mvReqSeq st' = _mvReqSeq st + Z.of_nat (length (filter is_refresh acts)).
Proof.
  revert st. induction acts as [|a acts IH]; intros st Hh Hl; cbv zeta.
  { simpl. split_and!; [done..|lia]. }
  change (arbiter_run (a :: acts) st)
    with (arbiter_run acts (arbiter_step a st)).
  assert (Hstep : head (versionSel (arbiter_step a st)) = Some latest_option
            ∧ (length (versionSel (arbiter_step a st)) ≤ 4)%nat
            ∧ _mvReqSeq (arbiter_step a st)
              = _mvReqSeq st + (if is_refresh a then 1 else 0)).
  { destruct a as [|reqId [|data] modelValue]; simpl.
    - split_and!; [done..|lia].
    - split_and!; [done|lia|lia].
    - case_decide; [split_and!; [done..|lia]|]. simpl.
      split_and!; [done| |lia].
      unfold options_for. simpl. rewrite length_fmap, length_take. lia. }
  destruct Hstep as (H1 & H2 & H3).
  destruct (IH (arbiter_step a st) H1 H2) as (H4 & H5 & H6).
  split_and!; [done..|]. rewrite H6, H3.
  rewrite filter_cons. destruct a; simpl; lia.
Qed.

Lemma arbiter_run_invariant_witness :
  let st' := arbiter_run [ARefresh; ASettle 1 (Json grok_versions) (str "grok")]
               (mkArbiter 0 [latest_option]) in
  (length (versionSel st') ≤ 4)%nat ∧ _mvReqSeq st' = 1.
Proof.
  destruct (arbiter_run_invariant
              [ARefresh; ASettle 1 (Json grok_versions) (str "grok")]
              (mkArbiter 0 [latest_option]) eq_refl ltac:(simpl; lia))
    as (_ & H1 & H2).
  split; [exact H1|exact H2].
Defined.

End ArbiterTraces.

Section Navigation.

Lemma stored_find (c : Chat) (x : Storage) :
  stored c x → find_chat (id c) x = Some c.
Proof. intros [i E]. unfold find_chat. by rewrite E. Qed.

(** The two ways [getChat] can come back. *)
Lemma getChat_cases (k : option string) (x : Storage) :
  (getChat k x = (None, x) ∧ ∀ k', k = Some k' → find_chat k' x = None)
  ∨ (∃ c x', getChat k x = (Some c, x') ∧ k = Some (id c)
       ∧ stored c x' ∧ is_Some (stats c) ∧ is_Some (find_chat (id c) x)
       ∧ sans_stats <$> loadAll x' = sans_stats <$> loadAll x
       ∧ getChat k x' = (Some c, x')).
Proof.
  destruct k as [k|]; [|by left]. unfold getChat.
  destruct (list_find (λ c, id c = k) (loadAll x)) as [[i c]|] eqn:E; simpl.
  2: { left. split; [done|]. intros ? [= <-]. unfold find_chat. by rewrite E. }
  right. pose proof E as E2. apply list_find_Some in E2 as (Hl & Hid & _).
  subst k. assert (Hst : stored c x) by (by exists i).
  destruct (stats c) as [s0|] eqn:Hs.
  - exists c, x. split_and!; try done.
    + by rewrite (stored_find c x Hst).
    + rewrite E. simpl. by rewrite Hs.
  - set (c' := set_stats DEFAULT_STATS c).
    assert (Hst' : stored c' (updateChat c' x))
      by (by apply (stored_updateChat c)).
    exists c', (updateChat c' x). split_and!; try done.
    + simpl. by rewrite (stored_find c x Hst).
    + unfold updateChat, findIndex_id. simpl. rewrite E. simpl.
      rewrite list_fmap_insert. apply list_insert_id.
      by rewrite list_lookup_fmap, Hl.
    + by apply (getChat_stored c').
Qed.

Lemma first_or_create_spec (fresh : string) (mdl : jsstring) (x : Storage) :
  let r := first_or_create fresh mdl (loadAll x) x in
  let x2 := (getChat r.1 r.2).2 in
  (∃ c, r.1 = Some (id c) ∧ stored c x2 ∧ is_Some (stats c))
  ∧ (∀ c l, loadAll x = c :: l →
       r.1 = Some (id c) ∧ sans_stats <$> loadAll x2 = sans_stats <$> loadAll x)
  ∧ (loadAll x = [] → r.1 = Some fresh ∧ loadAll x2 = [new_chat fresh mdl]).
Proof.
  unfold first_or_create. destruct (loadAll x) as [|c l] eqn:El;
    [simpl|cbv zeta; cbn [fst snd]].
  - rewrite El, decide_True by done. simpl. split_and!; [|done..].
    exists (new_chat fresh mdl). split_and!; [done| |by eexists].
    exists 0%nat. simpl. by rewrite decide_True.
  - destruct (getChat_cases (Some (id c)) x)
      as [[_ Hn]|(c' & x' & E & Hk & Hst & Hstats & _ & Hss & _)].
    + specialize (Hn (id c) eq_refl). unfold find_chat in Hn.
      rewrite El in Hn. simpl in Hn. by rewrite decide_True in Hn.
    + rewrite E. simpl. split_and!; [| |done].
      * exists c'. by rewrite <-Hk.
      * intros c0 l0 [= <- <-]. split; [done|]. by rewrite Hss, El.
Qed.

(** X20. After [ensureCurrent] the current id designates a stored chat that
    carries stats.  A non-empty current id that designates a stored chat is
    kept; otherwise the first stored chat becomes current, and only when the
    store is empty a chat is created (and becomes current).  No stored chat
    is lost or altered, apart from stats being filled in; in particular
    after "clear all" the store holds exactly one, new and empty, chat and
    it is the current one. *)
Theorem ensureCurrent_valid (fresh : string) (mdl : jsstring) (st : App) :
  let st' := ensureCurrent fresh mdl st in
  (∃ c, current_chat st' = Some c ∧ is_Some (stats c))
  ∧ (∀ k, currentId st = Some k → k ≠ EmptyString →
          is_Some (find_chat k (ls st)) → currentId st' = Some k)
  ∧ (∀ c l, loadAll (ls st) = c :: l →
       sans_stats <$> loadAll (ls st') = sans_stats <$> loadAll (ls st)
       ∧ ((∀ k, currentId st = Some k →
                k = EmptyString ∨ find_chat k (ls st) = None) →
          currentId st' = Some (id c)))
  ∧ (loadAll (ls st) = [] →
       currentId st' = Some fresh ∧ loadAll (ls st') = [new_chat fresh mdl])
  ∧ (let st0 := clear_all fresh mdl st in
     currentId st0 = Some fresh ∧ loadAll (ls st0) = [new_chat fresh mdl]
     ∧ renderChat (current_chat st0) = []).
Proof.
  intros st'.
  assert (Hpick : (∀ k, currentId st = Some k →
                        k = EmptyString ∨ find_chat k (ls st) = None) →
            let r := first_or_create fresh mdl (loadAll (ls st)) (ls st) in
            st' = mkApp (getChat r.1 r.2).2 r.1 (GAIA_BUSY st) (GAIA_ABORT st)
                        (currentSSE st) (sessions st) (requests st)).
  { intros Hno. unfold st', ensureCurrent.
    destruct (currentId st) as [k|] eqn:Hk.
    - destruct (decide (k = EmptyString)) as [->|Hne].
      + by destruct (first_or_create _ _ _ _).
      + destruct (Hno k eq_refl) as [?|Hnf]; [done|].
        destruct (getChat_cases (Some k) (ls st))
          as [[E _]|(c & x' & _ & Hkc & _ & _ & [c0 Hf] & _)].
        * rewrite E. by destruct (first_or_create _ _ _ _).
        * simplify_eq.
    - by destruct (first_or_create _ _ _ _). }
  assert (Hkeep : ∀ k, currentId st = Some k → k ≠ EmptyString →
            is_Some (find_chat k (ls st)) →
            ∃ c x', stored c x' ∧ is_Some (stats c) ∧ k = id c
              ∧ sans_stats <$> loadAll x' = sans_stats <$> loadAll (ls st)
              ∧ st' = mkApp x' (Some k) (GAIA_BUSY st) (GAIA_ABORT st)
                            (currentSSE st) (sessions st) (requests st)).
  { intros k Hk Hne [c0 Hf]. unfold st', ensureCurrent. rewrite Hk.
    rewrite decide_False by done.
    destruct (getChat_cases (Some k) (ls st))
      as [[_ Hn]|(c & x' & E & Hkc & Hst & Hstats & _ & Hss & E2)].
    { specialize (Hn k eq_refl). congruence. }
    rewrite E. cbv beta iota zeta. rewrite E2. simpl. exists c, x'.
    split_and!; [done..|congruence|done|done]. }
  assert (Hcases : (∃ k, currentId st = Some k ∧ k ≠ EmptyString
                      ∧ is_Some (find_chat k (ls st)))
                   ∨ (∀ k, currentId st = Some k →
                        k = EmptyString ∨ find_chat k (ls st) = None)).
  { destruct (currentId st) as [k|]; [|by right].
    destruct (decide (k = EmptyString)) as [->|Hne].
    { right. intros ? [= <-]. by left. }
    destruct (find_chat k (ls st)) as [c|] eqn:Hf.
    - left. exists k. split_and!; [done..|]. rewrite Hf. by eexists.
    - right. intros ? [= <-]. by right. }
  pose proof (first_or_create_spec fresh mdl (ls st)) as (Hp1 & Hp2 & Hp3).
  simpl in Hp1, Hp2, Hp3.
  split_and!.
  - destruct Hcases as [(k & Hk & Hne & Hf)|Hno].
    + destruct (Hkeep k Hk Hne Hf) as (c & x' & Hst & Hstats & -> & _ & ->).
      exists c. split; [|done]. by apply current_chat_stored.
    + rewrite (Hpick Hno). simpl. destruct Hp1 as (c & Hc & Hst & Hstats).
      exists c. split; [|done]. by apply current_chat_stored.
  - intros k Hk Hne Hf.
    by destruct (Hkeep k Hk Hne Hf) as (c & x' & _ & _ & _ & _ & ->).
  - intros c l Hl. destruct (Hp2 c l Hl) as [Hc Hss]. split.
    + destruct Hcases as [(k & Hk & Hne & Hf)|Hno].
      * by destruct (Hkeep k Hk Hne Hf) as (c' & x' & _ & _ & _ & ? & ->).
      * by rewrite (Hpick Hno).
    + intros Hno. by rewrite (Hpick Hno).
  - intros Hl. destruct (Hp3 Hl) as [Hc Hx].
    assert (Hno : ∀ k, currentId st = Some k →
              k = EmptyString ∨ find_chat k (ls st) = None).
    { intros k _. right. apply find_chat_None. rewrite Hl.
      by intros c ?%elem_of_nil. }
    by rewrite (Hpick Hno).
  - unfold clear_all, ensureCurrent, current_chat. simpl.
    rewrite decide_True by done. simpl. by rewrite decide_True.
Qed.

(** X21. The sidebar's delete button: deleting a chat other than the
    current one leaves the current id alone; deleting the current chat
    makes the first remaining chat current, or a newly created one when
    none remains, so that the current id designates a stored chat again.
    The remaining chats are kept unaltered (apart from stats being filled
    in), and unless the new chat is given the deleted id no chat with that
    id can be found afterwards. *)
Theorem sidebar_delete_moves_on (fresh : string) (mdl : jsstring) (k : string)
    (st : App) :
  let st' := sidebar_delete fresh mdl k st in
  let rest := filter (λ c, id c ≠ k) (loadAll (ls st)) in
  (currentId st ≠ Some k →
     currentId st' = currentId st ∧ loadAll (ls st') = rest)
  ∧ (currentId st = Some k →
       (∃ c, current_chat st' = Some c)
       ∧ (∀ c l, rest = c :: l →
            currentId st' = Some (id c)
            ∧ sans_stats <$> loadAll (ls st') = sans_stats <$> rest)
       ∧ (rest = [] →
            currentId st' = Some fresh
            ∧ loadAll (ls st') = [new_chat fresh mdl]))
  ∧ (fresh ≠ k → find_chat k (ls st') = None).
Proof.
  intros st' rest.
  pose proof (first_or_create_spec fresh mdl (deleteChat k (ls st))) as Hp.
  cbv zeta in Hp.
  change (loadAll (deleteChat k (ls st))) with rest in Hp.
  destruct Hp as (Hp1 & Hp2 & Hp3).
  set (r := first_or_create fresh mdl rest (deleteChat k (ls st))) in *.
  set (x2 := (getChat r.1 r.2).2) in *.
  assert (Hcur : currentId st = Some k →
            st' = mkApp x2 r.1 (GAIA_BUSY st) (GAIA_ABORT st)
                        (currentSSE st) (sessions st) (requests st)).
  { intros Hk. unfold st', sidebar_delete. rewrite decide_True by done.
    unfold ensureCurrent. cbn [ls currentId GAIA_BUSY GAIA_ABORT currentSSE
                               sessions requests].
    change (loadAll (deleteChat k (ls st))) with rest. fold r.
    unfold x2. by destruct r. }
  assert (Hother : currentId st ≠ Some k →
            st' = set_ls (deleteChat k (ls st)) st).
  { intros Hk. unfold st', sidebar_delete. by rewrite decide_False. }
  assert (Hnok : ∀ x : Storage,
            sans_stats <$> loadAll x = sans_stats <$> rest →
            find_chat k x = None).
  { intros x Hl. apply find_chat_None. intros c Hc Hid.
    assert (Hin : sans_stats c ∈ sans_stats <$> rest)
      by (rewrite <-Hl; by apply list_elem_of_fmap_2).
    apply list_elem_of_fmap in Hin as (c' & Hcc & Hc').
    apply list_elem_of_filter in Hc' as [Hne _].
    assert (id c = id c') by (by injection Hcc). congruence. }
  split_and!.
  - intros Hk. by rewrite (Hother Hk).
  - intros Hk. rewrite (Hcur Hk). split_and!.
    + destruct Hp1 as (c & Hc & Hst & _). exists c.
      by apply current_chat_stored.
    + intros c l Hl. by apply (Hp2 c l).
    + done.
  - intros Hfresh. destruct (decide (currentId st = Some k)) as [Hk|Hk].
    + rewrite (Hcur Hk). cbn [ls].
      assert (Hr : rest = [] ∨ ∃ c l, rest = c :: l).
      { clear. clearbody rest. destruct rest; [by left|right; by eexists _, _]. }
      destruct Hr as [Hr|(c & l & Hr)].
      * destruct (Hp3 Hr) as [_ Hx]. apply find_chat_None. rewrite Hx.
        intros c ->%list_elem_of_singleton. done.
      * destruct (Hp2 c l Hr) as [_ Hss]. by apply Hnok.
    + rewrite (Hother Hk). simpl. by apply Hnok.
Qed.

End Navigation.

Section EditedSend.

Lemma find_stored (k : string) (x : Storage) (c : Chat) :
  find_chat k x = Some c → stored c x ∧ id c = k.
Proof.
  unfold find_chat, stored.
  destruct (list_find _ (loadAll x)) as [[i c0]|] eqn:E; [|done].
  intros [= <-]. pose proof E as (_ & Hid & _)%list_find_Some.
  split; [|done]. exists i. by rewrite Hid.
Qed.

Lemma find_chat_updateChat (ch : Chat) (x : Storage) :
  is_Some (find_chat (id ch) x) → find_chat (id ch) (updateChat ch x) = Some ch.
Proof.
  intros [c0 Hf]. apply find_stored in Hf as [Hst Hid].
  apply stored_find. by apply (stored_updateChat c0).
Qed.

(** X23. When the request of an edited send settles for the first time,
    whatever its outcome, the busy flag is cleared and the abort handle is
    reset (whichever request it pointed to); streams are not touched.  If
    the request was aborted or failed, nothing is written to storage.  A
    request settles only once, and the other requests in flight are left as
    they are. *)
Theorem settle_finally (rid : nat) (r : FetchResult) (now : Z) (st : App)
    (p : Pending) :
  requests st !! rid = Some p → p_settled p = false →
  let st' := sendEditedAtIndex_settle rid r now st in
  GAIA_BUSY st' = false ∧ GAIA_ABORT st' = None
  ∧ sessions st' = sessions st ∧ currentSSE st' = currentSSE st
  ∧ currentId st' = currentId st
  ∧ (p_aborted p = true ∨ r = FetchFails → ls st' = ls st)
  ∧ (∀ r' now', sendEditedAtIndex_settle rid r' now' st' = st')
  ∧ (∀ rid' p', rid' ≠ rid → requests st !! rid' = Some p' →
       requests st' !! rid' = Some p').
Proof.
  intros Hp Hs st'. unfold st', sendEditedAtIndex_settle. rewrite Hp, Hs.
  assert (Hlt : (rid < length (requests st))%nat) by (by eapply lookup_lt_Some).
  split_and!; try done.
  - intros [Ha| ->]; [by rewrite Ha|]. simpl. by destruct (p_aborted p).
  - intros r' now'. cbn [requests]. by rewrite list_lookup_insert_eq by done.
  - intros rid' p' Hne Hp'. cbn [requests].
    by rewrite list_lookup_insert_ne by done.
Qed.

Lemma settle_finally_witness :
  GAIA_BUSY edited_pending = true
  ∧ GAIA_BUSY (sendEditedAtIndex_settle 0 FetchFails 9 edited_pending) = false
  ∧ ls (sendEditedAtIndex_settle 0 FetchFails 9 edited_pending)
    = ls edited_pending.
Proof.
  split; [reflexivity|].
  destruct (settle_finally 0 FetchFails 9 edited_pending
              (mkPending scenario_chat1 3 2 2 false false) eq_refl eq_refl)
    as (H1 & _ & _ & _ & _ & H2 & _).
  split; [exact H1|]. apply H2. by right.
Defined.

(** X24. The stop button during an edited send: once stop has been clicked
    while the abort handle points to the request, the response that
    arrives afterwards is discarded, whatever the server sent.  Storage
    stays as it was when stop was clicked, and the busy flag and the abort
    handle are cleared when the request settles. *)
Theorem stop_discards_edit_reply (rid : nat) (r : FetchResult) (now : Z)
    (st : App) (p : Pending) :
  GAIA_ABORT st = Some rid → requests st !! rid = Some p →
  p_settled p = false →
  let st' := sendEditedAtIndex_settle rid r now (stop_click st) in
  ls st' = ls st ∧ GAIA_BUSY st' = false ∧ GAIA_ABORT st' = None
  ∧ currentSSE st' = None.
Proof.
  intros Ha Hp Hs st'.
  assert (Hp' : requests (stop_click st) !! rid = Some (abort_request p)).
  { unfold stop_click, abort_current. rewrite Ha.
    destruct (currentSSE st); simpl; by rewrite list_lookup_alter_eq, Hp. }
  assert (Hls : ls (stop_click st) = ls st).
  { unfold stop_click. by destruct (currentSSE st). }
  assert (Hsse : currentSSE (stop_click st) = None).
  { unfold stop_click. by destruct (currentSSE st) eqn:E. }
  unfold st', sendEditedAtIndex_settle. rewrite Hp'. simpl. rewrite Hs.
  simpl. by rewrite Hls, Hsse.
Qed.

Lemma stop_discards_edit_reply_witness :
  ls (sendEditedAtIndex_settle 0
        (FetchReply (mkReply (Some (str "6")) None None)) 9
        (stop_click edited_pending))
  = ls edited_pending.
Proof.
  exact (proj1 (stop_discards_edit_reply 0
                  (FetchReply (mkReply (Some (str "6")) None None)) 9
                  edited_pending (mkPending scenario_chat1 3 2 2 false false)
                  eq_refl eq_refl eq_refl)).
Defined.

(** X25. When the request of an edited send settles with a reply and was
    not aborted, the chat captured when the request was issued is written
    back with the reply inserted directly behind the user message it
    answers: the history grows by one assistant message carrying the
    anchor and version of that user message, whose text is the trimmed
    reply (or the "empty response" notice when there is none); the branch
    state is the captured one and the usage of the reply is added to the
    chat's stats. *)
Theorem settle_inserts_reply (rid : nat) (data : ReplyData) (now : Z)
    (st : App) (p : Pending) :
  requests st !! rid = Some p → p_settled p = false → p_aborted p = false →
  is_Some (find_chat (id (p_chat p)) (ls st)) → is_Some (stats (p_chat p)) →
  let st' := sendEditedAtIndex_settle rid (FetchReply data) now st in
  ∃ c' msg,
    find_chat (id (p_chat p)) (ls st') = Some c'
    ∧ history c' = splice_in (S (p_userIdx p)) msg (history (p_chat p))
    ∧ length (history c') = S (length (history (p_chat p)))
    ∧ role msg = Assistant ∧ content msg = reply_text data
    ∧ branch_of msg = Some (p_anchor p)
    ∧ branch_version msg = Some (p_version p)
    ∧ branch c' = branch (p_chat p)
    ∧ (∀ s0, stats (p_chat p) = Some s0 →
         stats c' = Some (match d_usage data with
                          | Some u => add_usage u s0
                          | None => s0
                          end))
    ∧ ((p_userIdx p < length (history (p_chat p)))%nat →
         history c' !! S (p_userIdx p) = Some msg
         ∧ history c' !! p_userIdx p = history (p_chat p) !! p_userIdx p).
Proof.
  intros Hp Hs Ha Hf [s0 Hst] st'.
  unfold st', sendEditedAtIndex_settle. rewrite Hp, Hs, Ha. cbn [ls].
  set (msg := mkMessage Assistant _ _ _ _ _ _ _ _ _ _).
  set (h := splice_in (S (p_userIdx p)) msg (history (p_chat p))).
  assert (Hlen : length h = S (length (history (p_chat p)))).
  { unfold h, splice_in. rewrite length_app. simpl.
    rewrite length_take, length_drop. lia. }
  assert (Hlook : (p_userIdx p < length (history (p_chat p)))%nat →
            h !! S (p_userIdx p) = Some msg
            ∧ h !! p_userIdx p = history (p_chat p) !! p_userIdx p).
  { intros Hlt. unfold h, splice_in. split.
    - rewrite lookup_app_r by (rewrite length_take; lia).
      rewrite length_take, Nat.min_l by lia. by rewrite Nat.sub_diag.
    - rewrite lookup_app_l by (rewrite length_take; lia).
      by rewrite lookup_take_lt by lia. }
  rewrite Hst.
  destruct (d_usage data) as [u|] eqn:Hu.
  - set (c' := mkChat _ _ _ h _ _). exists c', msg.
    split_and!; try done.
    + by apply (find_chat_updateChat c').
    + intros ? [= <-]. done.
  - set (c' := set_history h (p_chat p)). exists c', msg.
    split_and!; try done.
    + by apply (find_chat_updateChat c').
    + intros ? [= <-]. exact Hst.
Qed.

Lemma settle_inserts_reply_witness :
  ∃ c', current_chat (sendEditedAtIndex_settle 0
          (FetchReply (mkReply (Some (str " 6 ")) None None)) 9 edited_pending)
        = Some c'
        ∧ content <$> history c'
          = [str "hi"; str "hello"; str "What is 2+2?"; str "What is 3+3?";
             str "6"; str "4"].
Proof.
  destruct (settle_inserts_reply 0 (mkReply (Some (str " 6 ")) None None) 9
              edited_pending (mkPending scenario_chat1 3 2 2 false false)
              eq_refl eq_refl eq_refl ltac:(by eexists) ltac:(by eexists))
    as (c' & msg & Hf & Hh & _).
  exists c'. split; [exact Hf|].
  injection Hf as <-. reflexivity.
Defined.

End EditedSend.

Section HostUpdate.

Lemma list_find_insert_other {A} (P : A → Prop) `{!∀ x, Decision (P x)}
    (l : list A) (i j : nat) (y z c : A) :
  list_find P l = Some (j, c) → l !! i = Some y → ¬ P y → ¬ P z →
  list_find P (<[i := z]> l) = Some (j, c).
Proof.
  intros (Hj & Hc & Hmin)%list_find_Some Hi Hy Hz.
  assert (i ≠ j) by (intros ->; by simplify_eq).
  apply list_find_Some. split_and!; [by rewrite list_lookup_insert_ne|done|].
  intros j' z' Hj' Hlt. destruct (decide (j' = i)) as [->|].
  - rewrite list_lookup_insert_eq in Hj' by (by eapply lookup_lt_Some).
    by simplify_eq.
  - rewrite list_lookup_insert_ne in Hj' by done. by eapply Hmin.
Qed.

(** Reading a chat back never disturbs a stored chat that carries stats. *)
Lemma getChat_keeps_stored (k : option string) (c : Chat) (x : Storage) :
  stored c x → is_Some (stats c) → stored c (getChat k x).2.
Proof.
  intros [j Hc] [s0 Hs]. destruct k as [k|]; [|by exists j]. unfold getChat.
  destruct (list_find (λ c, id c = k) (loadAll x)) as [[i ch]|] eqn:E; simpl;
    [|by exists j].
  destruct (stats ch) eqn:Hch; simpl; [by exists j|].
  pose proof E as (Hi & Hid & _)%list_find_Some.
  assert (Hne : id c ≠ k).
  { intros Heq. rewrite <-Heq in E. rewrite E in Hc. by simplify_eq. }
  unfold updateChat, findIndex_id. simpl. rewrite Hid, E. simpl. exists j.
  eapply list_find_insert_other; [done|done|..]; simpl; congruence.
Qed.

(** X26. [hostUpdateAssistantBubble] never overwrites a user message and
    never drops one: when the index holds an assistant message, only that
    message is replaced (new text, same branch tags, same length of the
    history); when it holds a user message or lies outside the history, the
    text is appended as a new assistant message and every stored message
    stays where it was.  The usage passed along is added to the chat's
    stats, and the chat is found in storage afterwards. *)
Theorem hostUpdate_replaces_or_appends (e : SendEnv) (idx : nat)
    (text : jsstring) (mt : option Meta) (now : Z) (st : App) :
  let c := (chat_or_create e st).1 in
  let st' := hostUpdateAssistantBubble e idx text mt now st in
  let pushed := mkMessage Assistant text mt (Some now) false false false
                          None None None None in
  ∃ c', stored c' (ls st') ∧ id c' = id c
    ∧ (∀ i m, history c !! i = Some m → i ≠ idx ∨ role m = User →
         history c' !! i = Some m)
    ∧ (∀ m, history c !! idx = Some m → role m = Assistant →
         length (history c') = length (history c)
         ∧ ∃ m', history c' !! idx = Some m' ∧ role m' = Assistant
                 ∧ content m' = text ∧ branch_of m' = branch_of m
                 ∧ branch_version m' = branch_version m
                 ∧ deleted m' = deleted m)
    ∧ ((∀ m, history c !! idx = Some m → role m = User) →
         history c' = history c ++ [pushed])
    ∧ (∀ s0, stats c = Some s0 →
         stats c' = Some (match mt ≫= meta_usage with
                          | Some u => add_usage u s0
                          | None => s0
                          end)).
Proof.
  intros c st' pushed. unfold st', hostUpdateAssistantBubble.
  destruct (chat_or_create_stored e st) as [Hst [s0 Hstats]]. fold c in Hst, Hstats.
  destruct (chat_or_create e st) as [c0 x0] eqn:Hc. simpl in c, Hst.
  subst c. fold pushed.
  set (h := match history c0 !! idx with
            | Some m => if decide (role m = Assistant)
                        then <[idx := _]> (history c0)
                        else history c0 ++ [pushed]
            | None => history c0 ++ [pushed]
            end).
  assert (Hkeep : ∀ i m, history c0 !! i = Some m → i ≠ idx ∨ role m = User →
            h !! i = Some m).
  { intros i m Hm Hor. unfold h.
    destruct (history c0 !! idx) as [m0|] eqn:H0;
      [|by apply lookup_app_l_Some].
    destruct (decide (role m0 = Assistant)) as [Hr|];
      [|by apply lookup_app_l_Some].
    destruct (decide (i = idx)) as [->|Hne].
    - destruct Hor as [|Hu]; [done|]. simplify_eq. congruence.
    - by rewrite list_lookup_insert_ne. }
  assert (Hrepl : ∀ m, history c0 !! idx = Some m → role m = Assistant →
            length h = length (history c0)
            ∧ ∃ m', h !! idx = Some m' ∧ role m' = Assistant
                    ∧ content m' = text ∧ branch_of m' = branch_of m
                    ∧ branch_version m' = branch_version m
                    ∧ deleted m' = deleted m).
  { intros m Hm Hr. unfold h. rewrite Hm, decide_True by done.
    rewrite length_insert. split; [done|]. eexists.
    rewrite list_lookup_insert_eq by (by eapply lookup_lt_Some).
    split; [done|]. by split_and!. }
  assert (Happ : (∀ m, history c0 !! idx = Some m → role m = User) →
            h = history c0 ++ [pushed]).
  { intros Hu. unfold h. destruct (history c0 !! idx) as [m0|]; [|done].
    rewrite decide_False; [done|]. rewrite (Hu m0 eq_refl). done. }
  clearbody h. rewrite Hstats.
  destruct (mt ≫= meta_usage) as [u|]; cbn [ls set_ls].
  - set (c' := mkChat _ _ _ h _ _). exists c'.
    split_and!; try done.
    + apply getChat_keeps_stored; [|by eexists].
      by apply (stored_updateChat c0).
    + intros ? [= <-]. done.
  - set (c' := set_history h c0). exists c'.
    split_and!; try done.
    + apply getChat_keeps_stored; [|by eexists].
      by apply (stored_updateChat c0).
    + intros ? [= <-]. exact Hstats.
Qed.

End HostUpdate.

Section FilesToSend.

Lemma map_set_fresh {K V} `{EqDecision K} (k : K) (v : V) (m : list (K * V)) :
  k ∉ m.*1 → map_set k v m = m ++ [(k, v)].
Proof.
  induction m as [|[k' v'] m IH]; csimpl; [done|]. intros Hk.
  apply not_elem_of_cons in Hk as [Hne Hk].
  rewrite decide_False by done. by rewrite IH.
Qed.

Lemma map_set_keys {K V} `{EqDecision K} (k : K) (v : V) (m : list (K * V)) :
  (map_set k v m).*1 = if decide (k ∈ m.*1) then m.*1 else m.*1 ++ [k].
Proof.
  induction m as [|[k' v'] m IH]; csimpl; [done|].
  destruct (decide (k' = k)) as [->|Hne]; csimpl.
  - rewrite decide_True by left. done.
  - rewrite IH. destruct (decide (k ∈ m.*1)) as [Hin|Hin].
    + rewrite decide_True by (by right). done.
    + rewrite decide_False; [done|].
      intros [?|?]%elem_of_cons; congruence.
Qed.

Lemma map_set_elem {K V} `{EqDecision K} (k : K) (v : V) (m : list (K * V)) p :
  NoDup m.*1 →
  p ∈ map_set k v m ↔ p = (k, v) ∨ (p ∈ m ∧ p.1 ≠ k).
Proof.
  induction m as [|[k' v'] m IH]; csimpl; intros Hnd.
  { rewrite list_elem_of_singleton. split; [by left|].
    intros [?|[?%elem_of_nil _]]; done. }
  apply NoDup_cons in Hnd as [Hk' Hnd].
  destruct (decide (k' = k)) as [->|Hne].
  - rewrite !elem_of_cons. split.
    + intros [->|Hp]; [by left|]. right. split; [by right|].
      intros <-. apply Hk'. by apply list_elem_of_fmap_2.
    + intros [->|[[->|Hp] Hpk]]; [by left|done|by right].
  - rewrite !elem_of_cons, (IH Hnd). split.
    + intros [->|[->|[Hp Hpk]]]; [right|by left|right]; split;
        [by left|done|by right|done].
    + intros [->|[[->|Hp] Hpk]]; [right; by left|by left|].
      right. right. done.
Qed.

(** X27. The union of composer files and referenced vault files that
    [send] builds holds one file per key (name and size): a file is sent
    exactly when it is the last one of its key in "composer files, then
    vault files", so a vault file replaces a composer file of the same name
    and size.  No two files sent share a key, every file sent was offered,
    and when all keys are distinct the files are sent unchanged and in
    order. *)
Theorem filesToSend_last_of_key (chips refs : list PickedFile) :
  let all := chips ++ refs in
  let out := filesToSend chips refs in
  NoDup (file_key <$> out)
  ∧ (∀ f, f ∈ out ↔
       ∃ i, all !! i = Some f
            ∧ ∀ j g, (i < j)%nat → all !! j = Some g → file_key g ≠ file_key f)
  ∧ (NoDup (file_key <$> all) → out = all)
  ∧ (length out ≤ length all)%nat.
Proof.
  intros all out. unfold out, filesToSend. fold all. clearbody all. clear.
  set (uniq l := foldl (λ uniq f, map_set (file_key f) f uniq) [] l).
  assert (Hinv : ∀ l,
    NoDup (uniq l).*1
    ∧ (∀ p, p ∈ uniq l → p.1 = file_key p.2)
    ∧ (∀ f, f ∈ (uniq l).*2 ↔
         ∃ i, l !! i = Some f
              ∧ ∀ j g, (i < j)%nat → l !! j = Some g → file_key g ≠ file_key f)
    ∧ (NoDup (file_key <$> l) → uniq l = (λ f, (file_key f, f)) <$> l)
    ∧ (length (uniq l) ≤ length l)%nat).
  { induction l as [|x l (Hnd & Hkey & Hmem & Heq & Hlen)] using rev_ind.
    { split_and!; [constructor|by intros ? ?%elem_of_nil| |done|done].
      intros f. split; [by intros ?%elem_of_nil|by intros (i & ? & _)]. }
    assert (Hu : uniq (l ++ [x]) = map_set (file_key x) x (uniq l)).
    { unfold uniq. by rewrite foldl_app. }
    rewrite Hu. split_and!.
    - rewrite map_set_keys. case_decide; [done|].
      apply NoDup_app. split_and!; [done| |apply NoDup_singleton].
      by intros k Hk ->%list_elem_of_singleton.
    - intros p [->|[Hp _]]%map_set_elem; [done|by apply Hkey|done].
    - intros f. rewrite list_elem_of_fmap. split.
      + intros ([k g] & -> & Hp). simpl.
        apply map_set_elem in Hp as [[= -> ->]|[Hp Hne]]; [| |done].
        * exists (length l). split; [by rewrite list_lookup_middle|].
          intros j g' Hj Hg'. apply lookup_lt_Some in Hg'.
          rewrite length_app in Hg'. simpl in Hg'. lia.
        * simpl in Hne. pose proof (Hkey _ Hp) as Hk. simpl in Hk. subst k.
          destruct (proj1 (Hmem g)) as (i & Hi & Hlast).
          { apply list_elem_of_fmap. by exists (file_key g, g). }
          exists i. split; [by apply lookup_app_l_Some|].
          intros j g' Hj Hg'. destruct (decide (j < length l)%nat).
          -- rewrite lookup_app_l in Hg' by done. by eapply Hlast.
          -- apply lookup_lt_Some in Hg' as Hlt.
             rewrite length_app in Hlt. simpl in Hlt.
             assert (j = length l) as -> by lia.
             rewrite list_lookup_middle in Hg' by done. by simplify_eq.
      + intros (i & Hi & Hlast).
        destruct (decide (i < length l)%nat) as [Hlt|Hge].
        * rewrite lookup_app_l in Hi by done.
          assert (Hne : file_key x ≠ file_key f).
          { apply (Hlast (length l)); [done|]. by rewrite list_lookup_middle. }
          assert (Hf : f ∈ (uniq l).*2).
          { apply Hmem. exists i. split; [done|].
            intros j g Hj Hg. apply (Hlast j); [done|].
            by apply lookup_app_l_Some. }
          apply list_elem_of_fmap in Hf as ([k g] & -> & Hp). simpl in *.
          exists (k, g). split; [done|]. apply map_set_elem; [done|].
          right. split; [done|]. simpl.
          pose proof (Hkey _ Hp) as Hk. simpl in Hk. congruence.
        * apply lookup_lt_Some in Hi as Hlt.
          rewrite length_app in Hlt. simpl in Hlt.
          assert (i = length l) as -> by lia.
          rewrite list_lookup_middle in Hi by done. simplify_eq.
          exists (file_key f, f). split; [done|].
          apply map_set_elem; [done|]. by left.
    - rewrite fmap_app. intros (Hl & Hx & _)%NoDup_app.
      rewrite (Heq Hl), fmap_app. simpl. apply map_set_fresh.
      rewrite <-list_fmap_compose. intros Hin. apply (Hx (file_key x)); [|by left].
      exact Hin.
    - assert (length (map_set (file_key x) x (uniq l)) ≤ S (length (uniq l)))%nat.
      { rewrite <-(length_fmap fst), map_set_keys.
        case_decide; rewrite ?length_app, !length_fmap; simpl; lia. }
      rewrite length_app. simpl. lia. }
  destruct (Hinv all) as (Hnd & Hkey & Hmem & Heq & Hlen).
  change (foldl (λ uniq f, map_set (file_key f) f uniq) [] all)
    with (uniq all).
  split_and!.
  - assert (E : file_key <$> (uniq all).*2 = (uniq all).*1).
    { rewrite <-list_fmap_compose. apply list_fmap_ext.
      intros i p Hp. simpl. symmetry. apply Hkey.
      by eapply list_elem_of_lookup_2. }
    by rewrite E.
  - done.
  - intros H. rewrite (Heq H), <-list_fmap_compose. apply list_fmap_id.
  - by rewrite length_fmap.
Qed.

End FilesToSend.

Section PagerAfterEdit.

Lemma collect_fmap_singletons {A B C} (f : nat → A → list B) (g : B → C)
    (h : A → C) (l : list A) (i : nat) :
  (∀ n x, l !! n = Some x → ∃ y, f (i + n)%nat x = [y] ∧ g y = h x) →
  g <$> collect f l i = h <$> l.
Proof.
  revert i. induction l as [|x l IH]; intros i H; [done|]. cbn [collect].
  destruct (H 0%nat x eq_refl) as (y & Hy & Hg). rewrite Nat.add_0_r in Hy.
  rewrite Hy, fmap_app, IH; [by rewrite !fmap_cons, Hg|].
  intros n x' Hx'. replace (S i + n)%nat with (i + S n)%nat by lia.
  by apply (H (S n) x').
Qed.

(** X28. Editing a message of a chat that has no versions yet and then
    clicking the version pager once brings back the original conversation:
    the branch state is [{anchor, active: 1, total: 2}], the view shows
    exactly the texts the chat had before the edit, in order, and the new
    version is hidden.  A second click returns to the edited version. *)
Theorem edit_then_pager_shows_original now idx ta chat item chat' k :
  history chat !! idx = Some item →
  save_edit now idx ta chat = Some (chat', k) →
  branch chat = None →
  Forall (λ m, branch_of m = None) (history chat) →
  branch (pager_click chat') = Some (mkBranch idx 1 2)
  ∧ r_content <$> renderChat (Some (pager_click chat'))
    = content <$> history chat
  ∧ r_role <$> renderChat (Some (pager_click chat')) = role <$> history chat
  ∧ pager_click (pager_click chat') = chat'.
Proof.
  intros Hit Hs Hbr Hall.
  assert (Hitem : branch_of item = None).
  { eapply Forall_forall in Hall; [exact Hall|].
    by eapply list_elem_of_lookup_2. }
  assert (Hlt : (idx < length (history chat))%nat) by (by eapply lookup_lt_Some).
  unfold save_edit in Hs. rewrite Hit in Hs.
  destruct (decide (role item = User)); [|done].
  destruct (editing item); [|done]. simplify_eq.
  unfold anchor_of. rewrite Hitem, Hbr. cbn [bump_branch active].
  set (h1 := <[idx := set_editing false item]> (history chat)).
  assert (Hlen1 : length h1 = length (history chat)) by apply length_insert.
  assert (Hall1 : ∀ n x, h1 !! n = Some x → branch_of x = None).
  { intros n x Hx. unfold h1 in Hx. destruct (decide (n = idx)) as [->|].
    - rewrite list_lookup_insert_eq in Hx by done. by simplify_eq.
    - rewrite list_lookup_insert_ne in Hx by done.
      eapply Forall_forall in Hall; [exact Hall|].
      by eapply list_elem_of_lookup_2. }
  assert (Hk : insertIdx_of h1 idx = S idx).
  { destruct (insertIdx_after_cluster idx h1)
      as [[-> _]|(j & _ & [_ (t & Ht & Hb)] & _)]; [done|].
    rewrite (Hall1 _ _ Ht) in Hb. done. }
  rewrite Hk.
  set (u := newUser (default (content item) ta) now idx 2).
  set (b2 := mkBranch idx 1 2).
  set (h' := splice_in (S idx) u h1).
  assert (Hfields : ∀ (g : Rendered → jsstring * Role),
            (∀ x n, g (add_before x n) = (content x, role x)) →
            (∀ x n, g (add_anchor b2 x n x) = (content x, role x)) →
            (∀ x n, g (add_plain (Some b2) x n) = (content x, role x)) →
            g <$> collect (render_at h' b2) h' 0
            = (λ x, (content x, role x)) <$> history chat).
  { intros g Hg1 Hg2 Hg3.
    assert (Hcr : (λ x, (content x, role x)) <$> h1
                  = (λ x, (content x, role x)) <$> history chat).
    { unfold h1. rewrite list_fmap_insert. apply list_insert_id.
      by rewrite list_lookup_fmap, Hit. }
    set (f := render_at h' b2).
    rewrite <-Hcr, <-(take_drop (S idx) h1), fmap_app.
    change h' with (take (S idx) h1 ++ [u] ++ drop (S idx) h1).
    rewrite !collect_app, !fmap_app. cbn [collect length].
    rewrite length_take, Nat.min_l by lia. simpl.
    assert (f (S idx) u = []) as ->.
    { unfold f, render_at. simpl.
      repeat case_decide; first [done|lia]. }
    simpl. f_equal.
    - apply collect_fmap_singletons. intros n x Hx.
      apply lookup_take_Some in Hx as [Hx Hn]. unfold f, render_at, skip_of.
      simpl. repeat case_decide; first [lia|done|by eexists].
    - apply collect_fmap_singletons. intros n x Hx.
      rewrite lookup_drop in Hx. unfold f, render_at. simpl.
      rewrite (Hall1 _ _ Hx).
      repeat case_decide; first [lia|done|by eexists]. }
  unfold pager_click. cbn [branch cycle anchor active total set_branch].
  change (Z.rem 2 2 + 1) with 1. fold b2.
  split_and!.
  - done.
  - match goal with
    | |- context [renderChat (Some ?c)] =>
        rewrite (renderChat_collect c b2 eq_refl)
    end.
    cbn [history].
    pose proof (Hfields (λ r, (r_content r, r_role r))
                  (λ _ _, eq_refl) (λ _ _, eq_refl) (λ _ _, eq_refl)) as H.
    apply (f_equal (fmap (M := list) fst)) in H.
    rewrite <-!list_fmap_compose in H. exact H.
  - match goal with
    | |- context [renderChat (Some ?c)] =>
        rewrite (renderChat_collect c b2 eq_refl)
    end.
    cbn [history].
    pose proof (Hfields (λ r, (r_content r, r_role r))
                  (λ _ _, eq_refl) (λ _ _, eq_refl) (λ _ _, eq_refl)) as H.
    apply (f_equal (fmap (M := list) snd)) in H.
    rewrite <-!list_fmap_compose in H. exact H.
  - done.
Qed.

Lemma edit_then_pager_shows_original_witness :
  r_content <$> renderChat (Some (pager_click scenario_chat1))
  = [str "hi"; str "hello"; str "What is 2+2?"; str "4"].
Proof.
  exact (proj1 (proj2 (edit_then_pager_shows_original 5 2
    (Some (str "What is 3+3?")) scenario_chat
    (set_editing true (plain_message User (str "What is 2+2?") 3))
    scenario_chat1 3 eq_refl eq_refl eq_refl
    ltac:(repeat constructor)))).
Defined.

End PagerAfterEdit.

(** *** [send], and other actions while a reply streams *)

Section SendRoutes.

Lemma updateChat_head (ch c0 : Chat) (l : list Chat) :
  id c0 = id ch → updateChat ch (Some (c0 :: l)) = Some (ch :: l).
Proof.
  intros Hid. unfold updateChat, findIndex_id. simpl.
  by rewrite decide_True.
Qed.

Lemma backfill_history (c : Chat) : history (backfill c) = history c.
Proof. unfold backfill. by destruct (stats c). Qed.

(** The chat [sendSSE] continues after the fallback lookup of [send]: the
    current chat when there is one, an empty chat otherwise. *)
Lemma chat_after_fallback (fb : string) (e : SendEnv) (st : App) :
  let x0 := match getChat (currentId st) (ls st) with
            | (Some _, x) => x
            | (None, x) => (createChat fb (str "New chat") (model_value e) x).2
            end in
  history (chat_or_create e (set_ls x0 st)).1
  = default [] (history <$> current_chat st)
  ∧ (currentId st = None →
       chat_or_create e (set_ls x0 st)
       = createChat (fresh_id e) (str "New chat") (model_value e)
           (Some (new_chat fb (model_value e) :: loadAll (ls st)))).
Proof.
  intros x0. unfold x0. clear x0.
  destruct (getChat_cases (currentId st) (ls st))
    as [[E Hnone]|(c & x' & E & Hk & Hst & Hstats & _ & _ & E2)]; rewrite E.
  - assert (Hcur : current_chat st = None).
    { unfold current_chat. destruct (currentId st) as [k|]; [|done].
      simpl. apply (Hnone k eq_refl). }
    rewrite Hcur. unfold chat_or_create. cbn [set_ls currentId ls snd createChat].
    split.
    + destruct (currentId st) as [k|]; [|done].
      specialize (Hnone k eq_refl).
      pose proof (getChat_find k (saveAll (new_chat fb (model_value e)
                                            :: loadAll (ls st)))) as Hf.
      unfold saveAll in *.
      change (mkChat fb (str "New chat") (model_value e) [] (Some DEFAULT_STATS)
                None) with (new_chat fb (model_value e)).
      clear E.
      destruct (getChat (Some k)
                  (Some (new_chat fb (model_value e) :: loadAll (ls st))))
        as [[c|] x]; simpl in Hf |- *; [|reflexivity].
      rewrite find_chat_cons in Hf.
      destruct (decide (id (new_chat fb (model_value e)) = k)).
      * by injection Hf as ->.
      * change (find_chat k (Some (loadAll (ls st))))
          with (find_chat k (ls st)) in Hf. by rewrite Hnone in Hf.
    + intros ->. done.
  - assert (Hf : (getChat (currentId st) (ls st)).1
                 = backfill <$> find_chat (id c) (ls st)).
    { rewrite Hk. apply getChat_find. }
    rewrite E in Hf. simpl in Hf.
    split; [|by rewrite Hk].
    unfold chat_or_create. cbn [set_ls currentId ls]. rewrite E2. simpl.
    unfold current_chat. rewrite Hk. simpl.
    change (snd <$> list_find (λ c0, id c0 = id c) (loadAll (ls st)))
      with (find_chat (id c) (ls st)).
    destruct (find_chat (id c) (ls st)) as [c0|]; [|done].
    simpl in *. injection Hf as ->. by rewrite backfill_history.
Qed.

(** What a streamed send does once it is past the guard. *)
Lemma send_resume_streamed (i : SendInputs) (e : SendEnv) (q : jsstring)
    (st : App) :
  GAIA_BUSY st = false → shouldPipeline i = false → streaming_sse i = true →
  filesToSend (chips i) (vault_refs i) = [] → sseAllowed e = true →
  let st' := (send_resume i e q st).2 in
  ∃ c', current_chat st' = Some c'
    ∧ history c' = default [] (history <$> current_chat st) ++
                     [plain_message User q (t_user e);
                      plain_message Assistant [] (t_ai e)]
    ∧ GAIA_BUSY st' = true
    ∧ currentSSE st' = Some (length (sessions st))
    ∧ (∃ s', sessions st' = sessions st ++ [s'] ∧ live s' = true
             ∧ fullText s' = [])
    ∧ (currentId st = None →
         loadAll (ls st')
         = c' :: new_chat (fallback_id i) (model_value e) :: loadAll (ls st)).
Proof.
  intros Hbusy Hpipe Hsse Hfiles Hallowed st'.
  unfold st', send_resume. rewrite Hpipe, Hsse, Hfiles, Hallowed.
  cbn [negb andb snd].
  set (x0 := match getChat (currentId st) (ls st) with
             | (Some _, x) => x
             | (None, x) =>
                 (createChat (fallback_id i) (str "New chat") (model_value e) x).2
             end).
  destruct (chat_after_fallback (fallback_id i) e st) as [Hh Hnone].
  fold x0 in Hh, Hnone.
  destruct (sendSSE_started e q (set_ls x0 st) Hbusy)
    as (c' & Hst & Hid & _ & Hhist & Hcur & Hb & Hcs & _ & _ & Hss).
  exists c'. split_and!; try done.
  - apply current_chat_stored; [|done]. by rewrite Hid.
  - by rewrite Hhist, Hh.
  - eexists. split; [exact Hss|]. done.
  - intros Hk. specialize (Hnone Hk).
    assert (Hls : ∃ cF, ls (sendSSE e q (set_ls x0 st))
                        = Some (cF :: new_chat (fallback_id i) (model_value e)
                                   :: loadAll (ls st))
                        ∧ id cF = fresh_id e).
    { unfold sendSSE. cbn [set_ls GAIA_BUSY]. rewrite Hbusy, Hnone. simpl.
      unfold saveAll. rewrite !updateChat_head by done.
      eexists. split; reflexivity. }
    destruct Hls as (cF & Hls & HidF). rewrite Hls. simpl. f_equal.
    destruct Hst as [j Hj]. rewrite Hls in Hj. simpl in Hj.
    rewrite Hid, Hnone in Hj. simpl in Hj.
    rewrite decide_True in Hj by done. by simplify_eq.
Qed.

(** X22. A streamed send stores the input without its leading and trailing
    whitespace: input consisting of whitespace only (or empty) changes
    nothing at all; otherwise the chat that is current afterwards is the
    chat that was current before (an empty chat when there was none)
    extended by the user message, whose text starts and ends with a
    non-whitespace character and is the input minus surrounding whitespace,
    and by the still empty reply slot, and the busy flag is set.  With no
    current id the send stores two chats: the one made for the history
    fallback, which stays empty, and in front of it the one that takes the
    messages. *)
Theorem send_trims_input (i : SendInputs) (e : SendEnv) (input : jsstring)
    (st : App) :
  GAIA_BUSY st = false → shouldPipeline i = false → streaming_sse i = true →
  filesToSend (chips i) (vault_refs i) = [] → sseAllowed e = true →
  let st' := send i e input st in
  (blank input → send_begin input st = None ∧ st' = st)
  ∧ (¬ blank input →
     ∃ c' l q r,
       send_begin input st = Some q
       ∧ input = l ++ q ++ r ∧ blank l ∧ blank r
       ∧ (∃ a, head q = Some a ∧ is_whitespace a = false)
       ∧ (∃ z, last q = Some z ∧ is_whitespace z = false)
       ∧ current_chat st' = Some c'
       ∧ history c' = default [] (history <$> current_chat st) ++
                        [plain_message User q (t_user e);
                         plain_message Assistant [] (t_ai e)]
       ∧ GAIA_BUSY st' = true
       ∧ (currentId st = None →
            loadAll (ls st')
            = c' :: new_chat (fallback_id i) (model_value e)
                 :: loadAll (ls st))).
Proof.
  intros Hbusy Hpipe Hsse Hfiles Hallowed st'. unfold st', send, send_begin.
  rewrite Hbusy. split.
  - intros Hb. apply trim_blank in Hb. by rewrite Hb.
  - intros Hnb.
    destruct (trim_split input) as (l & r & Hs & Hl & Hr & Hh & Hlast).
    destruct (trim input) as [|a q] eqn:Ht.
    { exfalso. apply Hnb. by apply trim_blank. }
    cbn [truthy].
    destruct (send_resume_streamed i e (a :: q) st Hbusy Hpipe Hsse Hfiles
                Hallowed) as (c' & Hc & Hhist & Hb & _ & _ & Hnone).
    exists c', l, (a :: q), r. split_and!; try done.
    + exists a. split; [done|]. by apply Hh.
    + destruct (last (a :: q)) as [z|] eqn:Hz.
      * exists z. split; [done|]. by apply Hlast.
      * by apply last_None in Hz.
Qed.

Lemma send_trims_input_witness :
  ∃ c', current_chat (send plain_send env1 (str "  hi ") (initial_app None))
        = Some c'
        ∧ content <$> history c' = [str "hi"; []]
        ∧ id <$> loadAll (ls (send plain_send env1 (str "  hi ")
                                (initial_app None)))
          = ["c_1"; "c_0"]%string.
Proof.
  destruct (send_trims_input plain_send env1 (str "  hi ") (initial_app None)
              eq_refl eq_refl eq_refl eq_refl eq_refl) as [_ H].
  destruct H as (c' & l & q & r & _ & _ & _ & _ & _ & _ & Hc & _ & _ & Hl).
  { intros Hb. apply Forall_forall with (x := 104%N) in Hb; [done|].
    right. right. by left. }
  exists c'. split; [exact Hc|].
  injection Hc as <-. split; reflexivity.
Defined.

(** C6, the failing case.  A send attempted while the busy flag is set is
    dropped.  But a streamed send that passes the guard while a session is
    live does not cancel it: the session is left exactly as it is, still
    live, a second session is opened next to it, [currentSSE] moves to the
    new session, so that the stop button no longer reaches the first one,
    and the first session goes on buffering what its feed delivers. *)
Theorem second_send_leaves_first_session_live (i : SendInputs) (e : SendEnv)
    (input : jsstring) (st : App) (sid : nat) (s : Session) :
  sessions st !! sid = Some s → live s = true →
  shouldPipeline i = false → streaming_sse i = true →
  filesToSend (chips i) (vault_refs i) = [] → sseAllowed e = true →
  (GAIA_BUSY st = true → send i e input st = st)
  ∧ (GAIA_BUSY st = false → ¬ blank input →
     let st' := send i e input st in
     sessions st' !! sid = Some s
     ∧ (∃ s', sessions st' !! length (sessions st) = Some s' ∧ live s' = true)
     ∧ length (sessions st') = S (length (sessions st))
     ∧ currentSSE st' = Some (length (sessions st))
     ∧ currentSSE st' ≠ Some sid
     ∧ es_open <$> sessions (stop_click st') !! sid = Some true
     ∧ (∀ text t, text ≠ [] →
          buffer sid (deliver sid (EvDelta (Some text)) t st')
          = Some (fullText s ++ text))).
Proof.
  intros Hs Hlive Hpipe Hsse Hfiles Hallowed.
  assert (Hlt : (sid < length (sessions st))%nat) by (by eapply lookup_lt_Some).
  assert (Hopen : es_open s = true).
  { unfold live in Hlive. by apply andb_true_iff in Hlive as [? _]. }
  split.
  { intros Hb. unfold send, send_begin. by rewrite Hb. }
  intros Hbusy Hnb st'. unfold st', send, send_begin. rewrite Hbusy.
  destruct (trim input) as [|a q] eqn:Ht.
  { exfalso. apply Hnb. by apply trim_blank. }
  cbn [truthy].
  destruct (send_resume_streamed i e (a :: q) st Hbusy Hpipe Hsse Hfiles
              Hallowed) as (_ & _ & _ & _ & Hcs & (s' & Hss & Hl' & _) & _).
  set (st2 := (send_resume i e (a :: q) st).2) in *.
  assert (Hsid : sessions st2 !! sid = Some s)
    by (rewrite Hss; by apply lookup_app_l_Some).
  split_and!.
  - done.
  - exists s'. split; [|done]. rewrite Hss. by apply list_lookup_middle.
  - rewrite Hss, length_app. simpl. lia.
  - done.
  - rewrite Hcs. intros [= E]. lia.
  - unfold stop_click. rewrite Hcs. simpl.
    rewrite list_lookup_alter_ne by lia. by rewrite Hsid, <-Hopen.
  - intros text t Htext. unfold deliver, buffer. rewrite Hsid, Hopen. simpl.
    destruct text as [|b text]; [done|]. simpl.
    rewrite list_lookup_insert_eq by (rewrite Hss, length_app; lia). done.
Qed.

Lemma second_send_leaves_first_session_live_witness :
  let st := overlap_after_second_send in
  let st' := deliver 0 EvDone 10
               (deliver 0 (EvDelta (Some (str "late"))) 9 st) in
  GAIA_BUSY overlap_before_second_send = false
  ∧ live <$> sessions overlap_before_second_send !! 0%nat = Some true
  ∧ sessions st !! 0%nat = sessions overlap_before_second_send !! 0%nat
  ∧ live <$> sessions st !! 1%nat = Some true
  ∧ currentSSE st = Some 1%nat
  ∧ buffer 0 st' = Some (str "late")
  ∧ ((λ c, content <$> history c) <$> current_chat st')
    = Some [str "q1"; str "late"; []; str "q2"; []]
  ∧ ((λ c, role <$> history c) <$> current_chat st')
    = Some [User; User; Assistant; User; Assistant]
  ∧ live <$> sessions st' !! 1%nat = Some true
  ∧ GAIA_BUSY st' = false
  ∧ currentSSE st' = None.
Proof.
  destruct (second_send_leaves_first_session_live plain_send env2 (str "q2")
              overlap_before_second_send 0
              (mkSession 1 0 true false [] (Some THINKING) 0)
              eq_refl eq_refl eq_refl eq_refl eq_refl eq_refl) as [_ H].
  destruct (H eq_refl) as (H1 & _ & _ & H4 & _).
  { intros Hb. apply Forall_forall with (x := 113%N) in Hb; [done|]. by left. }
  split_and!; [reflexivity|reflexivity|exact H1|reflexivity|exact H4
              |reflexivity..].
Defined.

(** C4, the failing case.  While the reply streams ("Hel" has arrived), the
    user edits the question and saves: the save inserts the new version as a
    user message at index 1, the index of the session's reply slot, and
    moves the placeholder to index 2.  [finish] looks the slot up again by
    [currentId] and [aiIdx] when [done] arrives: it writes the trimmed
    buffer "Hello" into the user message at index 1, the text of the edit is
    lost, and the assistant message stays the empty placeholder, for good
    since the session is closed. *)
Theorem done_after_save_overwrites_user_message :
  let st := deliver 0 (EvDelta (Some (str "lo"))) 5 saved_mid_stream in
  let st' := deliver 0 EvDone 6 st in
  s_aiIdx <$> sessions st !! 0%nat = Some 1%nat
  ∧ buffer 0 st = Some (str "Hello")
  ∧ ((λ c, content <$> history c) <$> current_chat st)
    = Some [str "hi"; str "hi!"; []]
  ∧ ((λ c, role <$> history c) <$> current_chat st)
    = Some [User; User; Assistant]
  ∧ ((λ c, content <$> history c) <$> current_chat st')
    = Some [str "hi"; str "Hello"; []]
  ∧ ((λ c, role <$> history c) <$> current_chat st')
    = Some [User; User; Assistant]
  ∧ finalized <$> sessions st' !! 0%nat = Some 1%nat
  ∧ (∀ ev t, deliver 0 ev t st' = st').
Proof. split_and!; reflexivity. Qed.

(** The same lookup after the chat was switched: the user clicks "new chat"
    while the reply streams; the error event then closes the session but
    persists nothing, and the reply slot of the first chat stays the empty
    placeholder. *)
Lemma error_after_new_chat_persists_nothing :
  let st := new_chat_mid_stream in
  let st' := deliver 0 EvError 6 st in
  currentId st = Some "c_2"%string
  ∧ buffer 0 st = Some (str "Hel")
  ∧ ls st' = ls st
  ∧ ((λ c, content <$> history c) <$> find_chat "c_1" (ls st'))
    = Some [str "hi"; []]
  ∧ finalized <$> sessions st' !! 0%nat = Some 1%nat
  ∧ (∀ ev t, deliver 0 ev t st' = st').
Proof. split_and!; reflexivity. Qed.

End SendRoutes.
